(** * code_gen: symbolic I/Q waveform generator (tx_tools, src/code_gen.c)

    A shallow embedding of the synthesis engine of [code_gen]: the sample
    encoder and block buffer ([signal_out]), the two tone synthesisers
    ([add_noise], [add_sine]), the timeline loop of [gen] with its
    cancellation flag, and the level converters of the command line.

    The C program computes on [double].  The embedding is written once over
    an arithmetic interface ([Arith]) and is run on two instances:
    - [B64]: IEEE-754 binary64 with round-to-nearest-even, the arithmetic the
      compiled program performs (Rocq's primitive floats);
    - [Exact]: the rationals, the real-number reading in which the
      specification states its formulas.
    Facts about control flow, buffering and the random stream are proved for
    every instance; facts that need algebra are proved on [Exact]; the
    sample count and the encoder, whose results depend on the rounding of
    [double], are proved on [B64] from the standard library's specification
    of floating-point addition and multiplication; concrete evaluations are
    carried out on [B64]. *)

From Stdlib Require Import ZArith QArith Qround Qabs Qpower List Bool Lia Lqa.
From Stdlib Require Import Floats.
Import ListNotations.

Local Open Scope Z_scope.

(** * Machine integers *)

Definition SIZE_MAX : Z := 2 ^ 64 - 1.
Definition INT_MIN : Z := - 2 ^ 31.
Definition INT_MAX : Z := 2 ^ 31 - 1.

(** Arithmetic on [size_t] is modulo [2^64]; a [uint8_t] cast is modulo 256. *)
Definition size_t (z : Z) : Z := z mod 2 ^ 64.
Definition uint8_t (z : Z) : Z := z mod 256.

(** Conversion of a truncated floating value to an integer type.  ISO C leaves
    the conversion undefined when the truncated value is not representable;
    the model then returns one fixed value: [INT_MIN], which the x86-64
    conversion instruction yields, and [2^63] for [size_t].  The theorems
    below either hold for any such choice or assume the value in range. *)
Definition int_of_trunc (z : option Z) : Z :=
  match z with
  | Some z => if (INT_MIN <=? z) && (z <=? INT_MAX) then z else INT_MIN
  | None => INT_MIN
  end.

Definition size_t_of_trunc (z : option Z) : Z :=
  match z with
  | Some z => if (0 <=? z) && (z <=? SIZE_MAX) then z else 2 ^ 63
  | None => 2 ^ 63
  end.

(** * The arithmetic of [double] *)

Class Arith : Type := {
  double : Type;
  dadd : double -> double -> double;
  dsub : double -> double -> double;
  dmul : double -> double -> double;
  ddiv : double -> double -> double;
  dle : double -> double -> bool;
  (** [(double)n] for an integer [n] of type [int] or [size_t] *)
  of_integer : Z -> double;
  (** a decimal literal of the source text *)
  lit : Q -> double;
  (** [(int)x] and [(size_t)x] *)
  to_int : double -> Z;
  to_size_t : double -> Z
}.

Declare Scope dbl_scope.
Delimit Scope dbl_scope with dbl.
Bind Scope dbl_scope with double.
Infix "+" := dadd : dbl_scope.
Infix "-" := dsub : dbl_scope.
Infix "*" := dmul : dbl_scope.
Infix "/" := ddiv : dbl_scope.
Infix "<=?" := dle : dbl_scope.

(** ** IEEE-754 binary64 *)

Module B64.

(** Integer to double, correctly rounded (exact below [2^53]). *)
Definition of_Z (z : Z) : float :=
  SF2Prim (binary_normalize prec emax z 0 false).

(** The integral part of a double, rounding toward zero; [None] for
    infinities and NaN. *)
Definition trunc (f : float) : option Z :=
  match Prim2SF f with
  | S754_zero _ => Some 0
  | S754_finite s m e =>
      let a := if 0 <=? e then Z.pos m * 2 ^ e else Z.pos m / 2 ^ (- e) in
      Some (if s then - a else a)
  | S754_infinity _ | S754_nan => None
  end.

(** A decimal literal [n/d] is the double nearest to it: the correctly
    rounded quotient of two exactly represented integers. *)
Definition of_Q (q : Q) : float :=
  PrimFloat.div (of_Z (Qnum q)) (of_Z (Z.pos (Qden q))).

#[export] Instance arith : Arith := {|
  double := float;
  dadd := PrimFloat.add;
  dsub := PrimFloat.sub;
  dmul := PrimFloat.mul;
  ddiv := PrimFloat.div;
  dle := PrimFloat.leb;
  of_integer := of_Z;
  lit := of_Q;
  to_int := fun f => int_of_trunc (trunc f);
  to_size_t := fun f => size_t_of_trunc (trunc f)
|}.

End B64.

(** ** Exact rational arithmetic *)

Module Exact.

(** Truncation toward zero. *)
Definition trunc (q : Q) : Z := Z.quot (Qnum q) (Z.pos (Qden q)).

#[export] Instance arith : Arith := {|
  double := Q;
  dadd := Qplus;
  dsub := Qminus;
  dmul := Qmult;
  ddiv := Qdiv;
  dle := Qle_bool;
  of_integer := inject_Z;
  lit := fun q => q;
  to_int := fun q => int_of_trunc (Some (trunc q));
  to_size_t := fun q => size_t_of_trunc (Some (trunc q))
|}.

End Exact.

(** * Externals: the C library and [fast_osc.h] *)

(** [rand]/[srand] and [pow] belong to the C library; the oscillator table
    and [db_to_mag] are declared in [fast_osc.h].  Their code is not part of
    [code_gen.c]; the engine is verified for every implementation of them. *)
Class Platform (A : Arith) : Type := {
  rand_state : Type;
  srand : Z -> rand_state;
  rand : rand_state -> Z * rand_state;
  RAND_MAX : Z;
  lut_osc_t : Type;
  get_lut_osc : Z -> Z -> lut_osc_t;
  lut_oscc : lut_osc_t -> Z -> double;
  lut_oscs : lut_osc_t -> Z -> double;
  db_to_mag : Z -> double;
  pow : double -> double -> double
}.

(** * Configuration and tone timeline *)

(** The file-scope settings of [code_gen.c], fixed before [gen] runs. *)
Record config {A : Arith} : Type := {
  sample_rate : double;
  noise_floor : double;
  noise_signal : double;
  gain : double;
  out_block_size : Z
}.

(** Modelled from the spec: [tone_t] is declared in [code_parse.h], which is
    not among the sources.  Section 3 gives a tone event a real frequency, an
    unsigned duration in microseconds and a signed integer level; a duration
    of 0 marks the end of the timeline. *)
Record tone_t {A : Arith} : Type := {
  hz : double;
  us : Z;
  db : Z
}.

Definition DEFAULT_SAMPLE_RATE : Z := 1000000.
Definition DEFAULT_BUF_LENGTH : Z := 1 * 16384.
Definition MINIMAL_BUF_LENGTH : Z := 512.
Definition MAXIMAL_BUF_LENGTH : Z := 256 * 16384.

(** The block-size check of [main]: a size outside the bounds falls back to
    the default. *)
Definition checked_block_size (requested : Z) : Z :=
  if (requested <? MINIMAL_BUF_LENGTH) || (requested >? MAXIMAL_BUF_LENGTH)
  then DEFAULT_BUF_LENGTH
  else requested.

(** * The output block *)

(** [out_block] is the block allocated by [malloc (out_block_size)],
    [block_size] the value of [out_block_size] it was allocated with;
    [fd_out] lists the data handed to each [write (fd, ...)] call, oldest
    first.  [overrun] records that a byte was stored at an index outside the
    allocation, which C leaves undefined. *)
Record sink : Type := {
  out_block : list Z;
  out_block_pos : Z;
  block_size : Z;
  fd_out : list (list Z);
  overrun : bool
}.

Fixpoint store (n : nat) (v : Z) (l : list Z) : list Z :=
  match l, n with
  | [], _ => []
  | _ :: l', O => v :: l'
  | x :: l', S n' => x :: store n' v l'
  end.

(** [out_block[out_block_pos++] = v] *)
Definition put_byte (v : Z) (s : sink) : sink :=
  let p := out_block_pos s in
  {| out_block := store (Z.to_nat p) v (out_block s);
     out_block_pos := size_t (p + 1);
     block_size := block_size s;
     fd_out := fd_out s;
     overrun := overrun s || (Z.of_nat (length (out_block s)) <=? p) |}.

(** [write (fd, out_block, out_block_size); out_block_pos = 0].  The program
    does not look at what [write] returns; the model records the block
    handed to it. *)
Definition flush_block (s : sink) : sink :=
  {| out_block := out_block s;
     out_block_pos := 0;
     block_size := block_size s;
     fd_out := fd_out s ++ [firstn (Z.to_nat (block_size s)) (out_block s)];
     overrun := overrun s |}.

(** Lines 124-129 of [signal_out]: store the two bytes, then write the block
    out if the cursor has reached the block size. *)
Definition block_put (i8 q8 : Z) (s : sink) : sink :=
  let s := put_byte i8 s in
  let s := put_byte q8 s in
  if out_block_pos s =? block_size s then flush_block s else s.

(** The sink at the start of [gen]: [malloc] returns [size] bytes of
    unspecified content, the cursor is 0. *)
Definition new_sink (size : Z) (content : list Z) : sink :=
  {| out_block := content;
     out_block_pos := 0;
     block_size := size;
     fd_out := [];
     overrun := false |}.

(** A sequence of encoded sample pairs written one after the other. *)
Definition block_put_all (pairs : list (Z * Z)) (s : sink) : sink :=
  fold_left (fun s p => block_put (fst p) (snd p) s) pairs s.

(** * The sample encoder *)

Definition bound (x : Z) : Z :=
  if x <? 0 then 0 else if x >? 255 then 255 else x.

Section Engine.

Context {A : Arith} {P : Platform A}.
Local Open Scope dbl_scope.

(** [(uint8_t)bound((int)((v + 1.0) * scale))] with [scale = 127.5] *)
Definition encode (v : double) : Z :=
  let scale := lit 127.5 in
  uint8_t (bound (to_int ((v + lit 1.0) * scale))).

(** * Engine state *)

(** The mutable file-scope state: the generator behind [rand], the output
    block, the cancellation flag.  [emitted] is an observation log: the
    arguments of every call of [signal_out], oldest first. *)
Record state : Type := {
  rng : rand_state;
  snk : sink;
  do_exit : bool;
  emitted : list (double * double)
}.

Definition sighandler (st : state) : state :=
  {| rng := rng st; snk := snk st; do_exit := true; emitted := emitted st |}.

Definition signal_out (i q : double) (st : state) : state :=
  let i8 := encode i in
  let q8 := encode q in
  {| rng := rng st;
     snk := block_put i8 q8 (snk st);
     do_exit := do_exit st;
     emitted := emitted st ++ [(i, q)] |}.

(** [(double)rand() / RAND_MAX] *)
Definition randf (st : state) : double * state :=
  let (r, g) := rand (rng st) in
  (of_integer r / of_integer RAND_MAX,
   {| rng := g; snk := snk st; do_exit := do_exit st; emitted := emitted st |}).

(** An asynchronous signal may interrupt a tone: [sig = Some t] runs the
    handler just before sample [t] of the tone is computed. *)
Definition deliver (sig : option Z) (t : Z) (st : state) : state :=
  match sig with
  | Some t' => if t' =? t then sighandler st else st
  | None => st
  end.

(** [(size_t)(time_us * sample_rate / 1000000)] *)
Definition sample_count (cfg : config) (time_us : Z) : Z :=
  to_size_t (of_integer time_us * sample_rate cfg / of_integer 1000000).

(** ** add_noise *)

Fixpoint add_noise_loop (cfg : config) (sig : option Z) (n : nat) (t : Z)
  (st : state) : state :=
  match n with
  | O => st
  | S n' =>
      let st := deliver sig t st in
      let (r1, st) := randf st in
      let x := (r1 - lit 0.5) * noise_floor cfg in
      let (r2, st) := randf st in
      let y := (r2 - lit 0.5) * noise_floor cfg in
      add_noise_loop cfg sig n' (t + 1)%Z (signal_out x y st)
  end.

Definition add_noise (cfg : config) (time_us : Z) (db : Z) (sig : option Z)
  (st : state) : state :=
  let end_ := sample_count cfg time_us in
  add_noise_loop cfg sig (Z.to_nat end_) 0%Z st.

(** ** add_sine *)

Definition att_steps : Z := 100.

(** [t < att_steps ? (1.0 / att_steps) * t : 1.0] *)
Definition att_in (t : Z) : double :=
  if (t <? att_steps)%Z
  then lit 1.0 / of_integer att_steps * of_integer t
  else lit 1.0.

(** [t + att_steps > end ? (1.0 / att_steps) * (end - t) : 1.0] *)
Definition att_out (end_ t : Z) : double :=
  if (size_t (t + att_steps) >? end_)%Z
  then lit 1.0 / of_integer att_steps * of_integer (size_t (end_ - t))
  else lit 1.0.

Fixpoint add_sine_loop (cfg : config) (lut : lut_osc_t) (att : double)
  (end_ : Z) (sig : option Z) (n : nat) (t : Z) (st : state) : state :=
  match n with
  | O => st
  | S n' =>
      let st := deliver sig t st in
      let x := lut_oscc lut t * gain cfg * att * att_in t * att_out end_ t in
      let y := lut_oscs lut t * gain cfg * att * att_in t * att_out end_ t in
      let (r1, st) := randf st in
      let x := x + (r1 - lit 0.5) * noise_signal cfg in
      let (r2, st) := randf st in
      let y := y + (r2 - lit 0.5) * noise_signal cfg in
      add_sine_loop cfg lut att end_ sig n' (t + 1)%Z (signal_out x y st)
  end.

Definition add_sine (cfg : config) (freq_hz : double) (time_us : Z) (db : Z)
  (sig : option Z) (st : state) : state :=
  let lut := get_lut_osc (to_size_t freq_hz) (to_size_t (sample_rate cfg)) in
  let att := db_to_mag db in
  let end_ := sample_count cfg time_us in
  add_sine_loop cfg lut att end_ sig (Z.to_nat end_) 0%Z st.

(** ** gen *)

(** When the signal handler runs, relative to the timeline loop of [gen]:
    never; just before the loop condition is evaluated for tone [j] (counted
    from 0); or during tone [j], just before its sample [t].  The handler
    only writes [do_exit], so where exactly it falls inside one iteration of
    a synthesis loop makes no difference. *)
Inductive arrival : Type :=
| Never
| BeforeTone (j : nat)
| DuringTone (j : nat) (t : Z).

Definition at_head (arr : arrival) (j : nat) (st : state) : state :=
  match arr with
  | BeforeTone j' => if Nat.eqb j' j then sighandler st else st
  | _ => st
  end.

Definition within (arr : arrival) (j : nat) : option Z :=
  match arr with
  | DuringTone j' t => if Nat.eqb j' j then Some t else None
  | _ => None
  end.

(** The body of the timeline loop. *)
Definition gen_tone (cfg : config) (tone : tone_t) (sig : option Z)
  (st : state) : state :=
  if (db tone <? -24)%Z
  then add_noise cfg (size_t (us tone)) (db tone) sig st
  else add_sine cfg (hz tone) (size_t (us tone)) (db tone) sig st.

(** [for (tone = symbol->tone; tone->us && !do_exit; ++tone)].  The timeline
    is the array up to and including its terminator. *)
Fixpoint gen_loop (cfg : config) (arr : arrival) (j : nat)
  (tones : list tone_t) (st : state) : state :=
  match tones with
  | [] => st
  | tone :: rest =>
      let st := at_head arr j st in
      if (us tone =? 0)%Z then st
      else if do_exit st then st
      else gen_loop cfg arr (S j) rest (gen_tone cfg tone (within arr j) st)
  end.

(** [srand (rand_seed); gen (filename, symbols, base_f)]: the block is
    allocated with unspecified [content], the flag and the cursor start from
    their static initialisers.  [gen] here is the synthesis: the state after
    the timeline loop.  The destination that [gen] opens and the line it
    prints after the loop are added by [gen_output] below. *)
Definition initial (cfg : config) (rand_seed : Z) (content : list Z) : state :=
  {| rng := srand rand_seed;
     snk := new_sink (out_block_size cfg) content;
     do_exit := false;
     emitted := [] |}.

Definition gen (cfg : config) (rand_seed : Z) (content : list Z)
  (arr : arrival) (tones : list tone_t) : state :=
  gen_loop cfg arr 0 tones (initial cfg rand_seed content).

(** ** Level converters *)

(** [sine_pk_level], applied to the value [atofs] parsed from the option. *)
Definition sine_pk_level (level : double) : double :=
  if level <=? lit 0 then pow (lit 10.0) (lit 1.0 / lit 20.0 * level)
  else level.

End Engine.

Arguments state {A P}.

(** * A reference platform *)

(** Used to evaluate the engine on concrete inputs: the sample generator that
    ISO C gives for [rand] (7.22.2.2), and the oscillator table of a 0 Hz
    carrier at 0 dB, for which [fast_osc.h] yields cos 0 = 1 and sin 0 = 0.
    [pow] is tabulated for the exponents 0 and 1 only. *)
Module Ref.

Definition lcg_srand (seed : Z) : Z := seed mod 2 ^ 32.

Definition lcg_rand (next : Z) : Z * Z :=
  let next := (next * 1103515245 + 12345) mod 2 ^ 32 in
  ((next / 65536) mod 32768, next).

#[export] Instance platform (A : Arith) : Platform A := {|
  rand_state := Z;
  srand := lcg_srand;
  rand := lcg_rand;
  RAND_MAX := 32767;
  lut_osc_t := unit;
  get_lut_osc := fun _ _ => tt;
  lut_oscc := fun _ _ => lit 1.0;
  lut_oscs := fun _ _ => lit 0;
  db_to_mag := fun _ => lit 1.0;
  pow := fun x y =>
    if (y <=? lit 0)%dbl && (lit 0 <=? y)%dbl then lit 1.0 else x
|}.

End Ref.

(** * Invariants of the output block *)

(** The bytes of a sequence of pairs in wire order: I0 Q0 I1 Q1 ... *)
Definition interleave (pairs : list (Z * Z)) : list Z :=
  flat_map (fun p => [fst p; snd p]) pairs.

(** The sinks agree on everything but the bytes at and above the cursor. *)
Definition sink_rel (s1 s2 : sink) : Prop :=
  out_block_pos s1 = out_block_pos s2 /\
  0 <= out_block_pos s1 /\
  block_size s1 = block_size s2 /\
  fd_out s1 = fd_out s2 /\
  overrun s1 = overrun s2 /\
  length (out_block s1) = length (out_block s2) /\
  firstn (Z.to_nat (out_block_pos s1)) (out_block s1) =
  firstn (Z.to_nat (out_block_pos s1)) (out_block s2).

(** The cursor is even and below the block size, and the block has the size
    it was allocated with. *)
Definition sink_ok (s : sink) : Prop :=
  0 <= out_block_pos s < block_size s /\
  Z.even (out_block_pos s) = true /\
  Z.even (block_size s) = true /\
  block_size s <= SIZE_MAX /\
  Z.of_nat (length (out_block s)) = block_size s.

(** * What the loops emit *)

Section Traces.

Context {A : Arith} {P : Platform A}.
Local Open Scope dbl_scope.

(** The value [randf] returns in generator state [g], and the state it
    leaves. *)
Definition uniform (g : rand_state) : double :=
  of_integer (fst (rand g)) / of_integer RAND_MAX.

Definition next (g : rand_state) : rand_state := snd (rand g).

(** One noise sample pair of amplitude [amp]: two successive draws, each
    shifted by 0.5 and scaled by [amp] alone. *)
Definition noise_xy (amp : double) (g : rand_state) : double * double :=
  ((uniform g - lit 0.5) * amp, (uniform (next g) - lit 0.5) * amp).

Fixpoint noise_pairs (amp : double) (g : rand_state) (n : nat)
  : list (double * double) :=
  match n with
  | O => []
  | S n' => noise_xy amp g :: noise_pairs amp (next (next g)) n'
  end.

Fixpoint rng_after (g : rand_state) (n : nat) : rand_state :=
  match n with
  | O => g
  | S n' => rng_after (next (next g)) n'
  end.

(** The oscillator sample of index [t], scaled by gain, level and ramps. *)
Definition carrier (cfg : config) (lut : lut_osc_t) (att : double)
  (end_ t : Z) : double * double :=
  (lut_oscc lut t * gain cfg * att * att_in t * att_out end_ t,
   lut_oscs lut t * gain cfg * att * att_in t * att_out end_ t).

Fixpoint carriers (cfg : config) (lut : lut_osc_t) (att : double)
  (end_ t : Z) (n : nat) : list (double * double) :=
  match n with
  | O => []
  | S n' => carrier cfg lut att end_ t :: carriers cfg lut att end_ (t + 1)%Z n'
  end.

Definition add_pair (cz : (double * double) * (double * double))
  : double * double :=
  (fst (fst cz) + fst (snd cz), snd (fst cz) + snd (snd cz)).

Definition encode_pair (p : double * double) : Z * Z :=
  (encode (fst p), encode (snd p)).

(** The state after the sample pairs [pairs] went through [signal_out]. *)
Definition emit_all (pairs : list (double * double)) (g : rand_state)
  (flag : bool) (st : state) : state :=
  {| rng := g;
     snk := block_put_all (map encode_pair pairs) (snk st);
     do_exit := flag;
     emitted := emitted st ++ pairs |}.

(** Whether a signal scheduled at sample [sig] falls among the [n] samples
    that start at index [t]. *)
Definition hit (sig : option Z) (t : Z) (n : nat) : bool :=
  match sig with
  | Some t' => (t <=? t')%Z && (t' <? t + Z.of_nat n)%Z
  | None => false
  end.

(** Number of loop iterations [add_noise] and [add_sine] perform for a tone. *)
Definition tone_samples (cfg : config) (tone : tone_t) : nat :=
  Z.to_nat (sample_count cfg (size_t (us tone))).

(** The sample pairs a tone contributes when the generator is in state [g]. *)
Definition tone_pairs (cfg : config) (tone : tone_t) (g : rand_state)
  : list (double * double) :=
  let n := tone_samples cfg tone in
  if (db tone <? -24)%Z
  then noise_pairs (noise_floor cfg) g n
  else
    map add_pair
      (combine
         (carriers cfg
            (get_lut_osc (to_size_t (hz tone)) (to_size_t (sample_rate cfg)))
            (db_to_mag (db tone)) (sample_count cfg (size_t (us tone))) 0 n)
         (noise_pairs (noise_signal cfg) g n)).

Definition terminator : tone_t := {| hz := lit 0; us := 0; db := 0 |}.

(** Two states with the same generator, output block and emitted samples:
    they may differ in the cancellation flag only. *)
Definition same_output (st1 st2 : state) : Prop :=
  rng st1 = rng st2 /\ snk st1 = snk st2 /\ emitted st1 = emitted st2.

Definition st_rel (st1 st2 : state) : Prop :=
  rng st1 = rng st2 /\ do_exit st1 = do_exit st2 /\
  emitted st1 = emitted st2 /\ sink_rel (snk st1) (snk st2).

(** The factor the two ramps contribute to the oscillator term at sample
    index [t] of a tone of [end_] samples.  [add_sine] multiplies by
    [att_in] and then by [att_out]; for [end_ >= 2 * att_steps] one of the
    two is 1.0 at every index. *)
Definition envelope (end_ t : Z) : double := att_in t * att_out end_ t.

End Traces.

(** * The encoder as the specification reads it *)

Section Reference.

Local Open Scope Q_scope.

(** The reading of the specification: the scaled value rounded to the
    nearest integer (halves away from zero, as C's [round]), then clamped. *)
Definition round_nearest (q : Q) : Z :=
  if Qle_bool 0 q then Qfloor (q + (1 # 2)) else (- Qfloor (- q + (1 # 2)))%Z.

Definition spec_encode (v : Q) : Z :=
  Z.max 0 (Z.min 255 (round_nearest ((v + 1.0) * 127.5))).

(** The receiver's inverse of the scaling: byte [b] stands for
    [b / 127.5 - 1]. *)
Definition decode (b : Z) : Q := inject_Z b / 127.5 - 1.

End Reference.

(** * binary64 ramps and concrete inputs *)

Section Inputs.

#[local] Existing Instance B64.arith.
#[local] Existing Instance Ref.platform.

(** The envelope on the rising side, where [att_out] is 1.0, and on the
    falling side, where [att_in] is 1.0, as functions of the distance to the
    start and to the end of the tone. *)
Definition rise64 (t : Z) : float :=
  PrimFloat.mul (att_in (A := B64.arith) t) (B64.of_Q 1.0).

Definition fall64 (k : Z) : float :=
  PrimFloat.mul (B64.of_Q 1.0)
    (if k <? att_steps
     then PrimFloat.mul (PrimFloat.div (B64.of_Q 1.0) (B64.of_Z att_steps))
            (B64.of_Z k)
     else B64.of_Q 1.0).

(** A binary64 run on the reference platform: the default settings with the
    smallest block size, a seed, a block of zeros. *)
Definition cfg64 : config (A := B64.arith) :=
  Build_config B64.arith (B64.of_Z DEFAULT_SAMPLE_RATE)
    (PrimFloat.mul (B64.of_Q 0.1) (B64.of_Z 2))
    (PrimFloat.mul (B64.of_Q 0.05) (B64.of_Z 2))
    (B64.of_Q 1.0) MINIMAL_BUF_LENGTH.

Definition tone64 (f : float) (time_us level : Z) : tone_t (A := B64.arith) :=
  Build_tone_t B64.arith f time_us level.

Definition start64 : state (P := Ref.platform B64.arith) :=
  initial cfg64 1 (repeat 0 512).

Definition timeline64 : list (tone_t (A := B64.arith)) :=
  [tone64 0 300 0; tone64 0 5 (-30); tone64 0 0 0].

End Inputs.

(** * The stream, the timeline prefix, the noise level *)

(** All bytes the sink has accepted and not lost: the blocks written out,
    then the bytes buffered below the cursor. *)
Definition stream (s : sink) : list Z :=
  concat (fd_out s) ++ firstn (Z.to_nat (out_block_pos s)) (out_block s).

(** The cursor is even, the size odd, so they never meet; [overrun] is set
    exactly when the cursor has passed the size. *)
Definition odd_inv (s : sink) (written : list (list Z)) : Prop :=
  Z.odd (block_size s) = true /\
  Z.even (out_block_pos s) = true /\
  0 <= out_block_pos s /\
  Z.of_nat (length (out_block s)) = block_size s /\
  overrun s = (block_size s <? out_block_pos s) /\
  fd_out s = written.

Section Prefix.

Context {A : Arith}.

(** The tones the loop of [gen] reaches when it is not cancelled: those in
    front of the first tone of duration 0. *)
Fixpoint active (tones : list tone_t) : list tone_t :=
  match tones with
  | [] => []
  | tone :: rest => if us tone =? 0 then [] else tone :: active rest
  end.

Definition total_samples (cfg : config) (tones : list tone_t) : nat :=
  list_sum (map (tone_samples cfg) (active tones)).

End Prefix.

Section NoiseLevel.

Context {P : Platform B64.arith}.

(** [noise_pp_level], applied to the value [atofs] parsed from the option.
    [sqrt] is the IEEE-754 square root, correctly rounded. *)
Definition noise_pp_level (level : float) : float :=
  let level :=
    if PrimFloat.ltb level (B64.of_Z 0)
    then @pow B64.arith P (B64.of_Q 10.0)
           (PrimFloat.mul (PrimFloat.div (B64.of_Q 1.0) (B64.of_Q 20.0)) level)
    else level in
  PrimFloat.mul (PrimFloat.mul level (B64.of_Z 2))
    (PrimFloat.sqrt
       (PrimFloat.div
          (PrimFloat.mul (PrimFloat.div (B64.of_Q 1.0) (B64.of_Q 2.0))
             (B64.of_Q 3.0))
          (B64.of_Q 2.0))).

End NoiseLevel.

(** * Further concrete inputs *)

Section MoreInputs.

#[local] Existing Instance Ref.platform.

(** The undisturbed binary64 run of [timeline64]. *)
Definition run64 : state (P := Ref.platform B64.arith) :=
  gen cfg64 1 (repeat 0 512) Never timeline64.

(** The settings of [cfg64] with the odd block size 513. *)
Definition cfg513 : config (A := B64.arith) :=
  Build_config B64.arith (sample_rate cfg64) (noise_floor cfg64)
    (noise_signal cfg64) (gain cfg64) 513.

(** The same settings in exact arithmetic. *)
Definition cfgQ : config (A := Exact.arith) :=
  Build_config Exact.arith 1000000%Q 0.2%Q 0.1%Q 1%Q MINIMAL_BUF_LENGTH.

Definition toneQ : tone_t (A := Exact.arith) :=
  Build_tone_t Exact.arith 0%Q 1000 0.

End MoreInputs.

(** * The number a double stands for *)

(** The rational value of a finite double, in lowest terms; [None] for
    infinities and NaN.  Both zeros stand for 0. *)
Definition value64 (f : float) : option Q :=
  match Prim2SF f with
  | S754_zero _ => Some 0%Q
  | S754_finite s m e =>
      let a :=
        if 0 <=? e then inject_Z (Z.pos m * 2 ^ e)
        else Qred (Z.pos m # Pos.pow 2 (Z.to_pos (- e))) in
      Some (if s then Qopp a else a)
  | S754_infinity _ | S754_nan => None
  end.

(** ** Rounding to binary64 *)

(** [bpow e] is 2 to the power [e]; [F2Q m e] the number [m * 2^e]. *)
Definition bpow (e : Z) : Q := (2 ^ e)%Q.

Definition F2Q (m e : Z) : Q := (inject_Z m * bpow e)%Q.

(** The exponent of the last place of a binary64 number of magnitude
    [2^e], and the number of bits that rounding [m * 2^e] shifts out. *)
Definition fexp64 (e : Z) : Z := Z.max (e - 53) (-1074).

Definition shift64 (m e : Z) : Z :=
  Z.max 0 (fexp64 (Zdigits2 m + e) - e).

(** What [binary_round_aux] returns for a final mantissa [m] and exponent
    [e]. *)
Definition sf_of (sx : bool) (m e : Z) : spec_float :=
  match m with
  | Z0 => S754_zero sx
  | Zpos p => if e <=? 1024 - 53 then S754_finite sx p e else S754_infinity sx
  | Zneg _ => S754_nan
  end.

(** One unit in the last place of [x], bounded from above: relative
    2^-52, absolute 2^-1074 for subnormal results. *)
Definition round_err (x : Q) : Q := (x * bpow (-52) + bpow (-1074))%Q.

Definition sf_val (r : spec_float) : option Q :=
  match r with
  | S754_zero _ => Some 0%Q
  | S754_finite s m e =>
      Some (if s then Qopp (F2Q (Z.pos m) e) else F2Q (Z.pos m) e)
  | S754_infinity _ | S754_nan => None
  end.

(** [m2 * 2^e2] is a rounding of the non-negative number [x]: it is not
    below any double that [x] reaches, and within [round_err x] of [x]. *)
Definition rounds_to (x : Q) (m2 e2 : Z) : Prop :=
  (0 <= m2)%Z /\
  (forall b eb : Z,
      (0 < b < 2 ^ 53)%Z -> (-1074 <= eb)%Z ->
      (F2Q b eb <= x)%Q -> (F2Q b eb <= F2Q m2 e2)%Q) /\
  (x - round_err x <= F2Q m2 e2)%Q /\ (F2Q m2 e2 <= x + round_err x)%Q.

(** The doubles 1.0 and 127.5. *)
Definition one_sf : spec_float := S754_finite false 4503599627370496 (-52).

Definition scale_sf : spec_float := S754_finite false 8972014882652160 (-46).

(** [(v + 1.0) * scale] as [signal_out] computes it. *)
Definition scaled64 (v : float) : float :=
  PrimFloat.mul (PrimFloat.add v (B64.of_Q 1.0)) (B64.of_Q 127.5).

(** * Whole timelines *)

Section Timelines.

Context {A : Arith} {P : Platform A}.

(** The sample pairs of the tones [tones], synthesised one after the other
    from generator state [g]: each tone continues the random stream where
    the previous one left it. *)
Fixpoint timeline_pairs (cfg : config) (g : rand_state)
  (tones : list tone_t) : list (double * double) :=
  match tones with
  | [] => []
  | tone :: rest =>
      tone_pairs cfg tone g ++
      timeline_pairs cfg (rng_after g (tone_samples cfg tone)) rest
  end.

End Timelines.

(** * The streams of a run *)

(** [gen] opens the destination, runs the timeline loop between two readings
    of [clock ()], prints the processor time that elapsed with [printf], that
    is on the standard output, frees the block and closes the destination.
    [clock], [CLOCKS_PER_SEC] and the conversion [%f] belong to the C
    library. *)
Class Stdio (A : Arith) : Type := {
  CLOCKS_PER_SEC : Z;
  (** the characters [printf] produces for a [double] under [%f] *)
  printf_f : double -> list Z
}.

(** [outpath]: a null, empty or ["-"] path selects the standard output
    ([fd = fileno (stdout)]), any other path a file, created or truncated. *)
Inductive destination : Type :=
| Stdout
| File.

(** What a run leaves on the standard output and in the file. *)
Record streams : Type := {
  on_stdout : list Z;
  on_file : list Z
}.

(** The characters of ["Time elapsed in ms: "] and the newline. *)
Definition elapsed_text : list Z :=
  [84; 105; 109; 101; 32; 101; 108; 97; 112; 115; 101; 100; 32; 105; 110; 32;
   109; 115; 58; 32].

Definition newline : Z := 10.

Section Output.

Context {A : Arith} {P : Platform A} {S : Stdio A}.
Local Open Scope dbl_scope.

(** [(double)(stop - start) * 1000.0 / CLOCKS_PER_SEC] *)
Definition elapsed (start stop : Z) : double :=
  of_integer (stop - start) * lit 1000.0 / of_integer CLOCKS_PER_SEC.

(** [printf ("Time elapsed in ms: %f\n", elapsed)] *)
Definition elapsed_line (start stop : Z) : list Z :=
  elapsed_text ++ printf_f (elapsed start stop) ++ [newline].

(** [gen] with its destination and the two clock readings [start] and
    [stop].  The blocks go to [fd] with [write] during the loop; the line of
    [printf] is buffered by stdio and reaches the standard output after the
    loop, hence after every block.  The partly filled block is freed, not
    written. *)
Definition gen_output (dest : destination) (cfg : config) (rand_seed : Z)
  (content : list Z) (arr : arrival) (tones : list tone_t)
  (start stop : Z) : streams :=
  let run := gen cfg rand_seed content arr tones in
  let written := concat (fd_out (snk run)) in
  match dest with
  | Stdout =>
      {| on_stdout := written ++ elapsed_line start stop; on_file := [] |}
  | File =>
      {| on_stdout := elapsed_line start stop; on_file := written |}
  end.

End Output.

(** ** The conversion [%f] on the reference platform *)

(** ISO C 7.21.6.1: [%f] prints [[-]ddd.dddddd] with six digits after the
    decimal point, the value rounded to that many digits; glibc rounds the
    exact binary value, halves to even. *)
Fixpoint decimal (fuel : nat) (n : Z) (acc : list Z) : list Z :=
  match fuel with
  | O => acc
  | S fuel' =>
      let acc := (48 + n mod 10) :: acc in
      if n <? 10 then acc else decimal fuel' (n / 10) acc
  end.

Definition round_half_even (q : Q) : Z :=
  let f := Qfloor q in
  match Qcompare (q - inject_Z f) (1 # 2) with
  | Lt => f
  | Gt => f + 1
  | Eq => if Z.even f then f else f + 1
  end.

(** A non-negative value with six decimals. *)
Definition fixed6 (q : Q) : list Z :=
  let n := round_half_even (q * 1000000) in
  let whole := n / 1000000 in
  decimal (S (Z.to_nat (Z.log2 whole))) whole [] ++
  [46] ++ tl (decimal 7 (1000000 + n mod 1000000) []).

Definition printf_f64 (x : float) : list Z :=
  let minus (s : bool) : list Z := if s then [45] else [] in
  match Prim2SF x, value64 x with
  | S754_zero s, _ => minus s ++ fixed6 0
  | S754_finite s _ _, Some q => minus s ++ fixed6 (Qabs q)
  | S754_infinity s, _ => minus s ++ [105; 110; 102]
  | _, _ => [110; 97; 110]
  end.

(** [CLOCKS_PER_SEC] is 1000000 on every XSI-conformant system. *)
#[export] Instance stdio64 : Stdio B64.arith :=
  Build_Stdio B64.arith 1000000 printf_f64.

(** * Inputs on which binary64 and exact arithmetic part *)

Section RoundingInputs.

#[local] Existing Instance Ref.platform.

(** A sample rate of 9999999 Hz and a tone of 901000001 us: both are
    doubles, their product is not. *)
Definition cfg10M : config (A := B64.arith) :=
  Build_config B64.arith (B64.of_Z 9999999) (noise_floor cfg64)
    (noise_signal cfg64) (gain cfg64) MINIMAL_BUF_LENGTH.

Definition tone901 : tone_t (A := B64.arith) := tone64 0 901000001 0.

End RoundingInputs.

(** * Closed forms of the synthesis loops *)

Section ClosedForms.

Context {A : Arith} {P : Platform A}.
Local Open Scope dbl_scope.

Lemma randf_eq (st : state) :
  randf st =
  (uniform (rng st),
   {| rng := next (rng st); snk := snk st; do_exit := do_exit st;
      emitted := emitted st |}).
Proof.
  unfold randf, uniform, next.
  destruct (rand (rng st)) as [r g]; reflexivity.
Qed.

Lemma emit_all_nil (st : state) :
  emit_all [] (rng st) (do_exit st) st = st.
Proof.
  destruct st as [g s f e]; unfold emit_all; cbn.
  now rewrite app_nil_r.
Qed.

Lemma deliver_flag (sig : option Z) (t : Z) (n : nat) (st : state) :
  do_exit (deliver sig t st) || hit sig (t + 1) n =
  do_exit st || hit sig t (S n).
Proof.
  unfold deliver, hit; destruct sig as [t'|]; [|reflexivity].
  destruct (Z.eqb_spec t' t) as [->|Hne]; cbn [do_exit sighandler].
  - replace (t <=? t)%Z with true by (symmetry; apply Z.leb_le; lia).
    replace (t <? t + Z.of_nat (S n))%Z with true
      by (symmetry; apply Z.ltb_lt; lia).
    now rewrite orb_true_r.
  - f_equal.
    destruct (Z.leb_spec (t + 1) t'), (Z.leb_spec t t'),
      (Z.ltb_spec t' (t + 1 + Z.of_nat n)),
      (Z.ltb_spec t' (t + Z.of_nat (S n)));
      cbn; try reflexivity; lia.
Qed.

Lemma deliver_fields (sig : option Z) (t : Z) (st : state) :
  rng (deliver sig t st) = rng st /\ snk (deliver sig t st) = snk st /\
  emitted (deliver sig t st) = emitted st.
Proof.
  unfold deliver; destruct sig as [t'|]; [destruct (t' =? t)%Z|]; auto.
Qed.

Lemma add_noise_loop_eq (cfg : config) (sig : option Z) (n : nat) :
  forall (t : Z) (st : state),
    add_noise_loop cfg sig n t st =
    emit_all (noise_pairs (noise_floor cfg) (rng st) n) (rng_after (rng st) n)
      (do_exit st || hit sig t n) st.
Proof.
  induction n as [|n IH]; intros t st.
  - cbn [add_noise_loop noise_pairs rng_after].
    replace (hit sig t 0) with false.
    + now rewrite orb_false_r, emit_all_nil.
    + unfold hit; destruct sig as [t'|]; [|reflexivity].
      rewrite Z.add_0_r.
      destruct (Z.leb_spec t t'), (Z.ltb_spec t' t); cbn; try reflexivity; lia.
  - cbn [add_noise_loop noise_pairs rng_after].
    destruct (deliver_fields sig t st) as (Hg & Hs & He).
    rewrite <- (deliver_flag sig t n st).
    set (st0 := deliver sig t st) in *.
    rewrite randf_eq; cbn iota; rewrite randf_eq; cbn iota.
    cbn [rng snk do_exit emitted].
    rewrite IH; cbn [rng snk do_exit emitted signal_out].
    rewrite Hg, He, Hs.
    unfold emit_all, signal_out, block_put_all, noise_xy.
    cbn [rng snk do_exit emitted map encode_pair fst snd fold_left].
    now rewrite <- app_assoc.
Qed.

Lemma add_sine_loop_eq (cfg : config) (lut : lut_osc_t) (att : double)
  (end_ : Z) (sig : option Z) (n : nat) :
  forall (t : Z) (st : state),
    add_sine_loop cfg lut att end_ sig n t st =
    emit_all
      (map add_pair
         (combine (carriers cfg lut att end_ t n)
            (noise_pairs (noise_signal cfg) (rng st) n)))
      (rng_after (rng st) n) (do_exit st || hit sig t n) st.
Proof.
  induction n as [|n IH]; intros t st.
  - cbn [add_sine_loop noise_pairs rng_after carriers combine map].
    replace (hit sig t 0) with false.
    + now rewrite orb_false_r, emit_all_nil.
    + unfold hit; destruct sig as [t'|]; [|reflexivity].
      rewrite Z.add_0_r.
      destruct (Z.leb_spec t t'), (Z.ltb_spec t' t); cbn; try reflexivity; lia.
  - cbn [add_sine_loop noise_pairs rng_after carriers combine map].
    destruct (deliver_fields sig t st) as (Hg & Hs & He).
    rewrite <- (deliver_flag sig t n st).
    set (st0 := deliver sig t st) in *.
    rewrite randf_eq; cbn iota; rewrite randf_eq; cbn iota.
    cbn [rng snk do_exit emitted].
    rewrite IH; cbn [rng snk do_exit emitted signal_out].
    rewrite Hg, He, Hs.
    unfold emit_all, signal_out, block_put_all, noise_xy, add_pair, carrier.
    cbn [rng snk do_exit emitted map encode_pair fst snd fold_left].
    now rewrite <- app_assoc.
Qed.

End ClosedForms.

(** * One tone event *)

Section Tone.

Context {A : Arith} {P : Platform A}.
Local Open Scope dbl_scope.

Lemma gen_tone_eq (cfg : config) (tone : tone_t) (sig : option Z)
  (st : state) :
  gen_tone cfg tone sig st =
  emit_all (tone_pairs cfg tone (rng st))
    (rng_after (rng st) (tone_samples cfg tone))
    (do_exit st || hit sig 0 (tone_samples cfg tone)) st.
Proof.
  unfold gen_tone, tone_pairs, tone_samples, add_noise, add_sine.
  destruct (db tone <? -24)%Z.
  - apply add_noise_loop_eq.
  - apply add_sine_loop_eq.
Qed.

Lemma noise_pairs_length (amp : double) (n : nat) :
  forall g : rand_state, length (noise_pairs amp g n) = n.
Proof. induction n as [|n IH]; intros g; cbn; [reflexivity|now rewrite IH]. Qed.

Lemma carriers_length (cfg : config) (lut : lut_osc_t) (att : double)
  (end_ : Z) (n : nat) :
  forall t : Z, length (carriers cfg lut att end_ t n) = n.
Proof. induction n as [|n IH]; intros t; cbn; [reflexivity|now rewrite IH]. Qed.

Lemma tone_pairs_length (cfg : config) (tone : tone_t) (g : rand_state) :
  length (tone_pairs cfg tone g) = tone_samples cfg tone.
Proof.
  unfold tone_pairs; destruct (db tone <? -24)%Z.
  - apply noise_pairs_length.
  - rewrite length_map, length_combine, carriers_length, noise_pairs_length.
    apply Nat.min_id.
Qed.

Lemma size_t_id (z : Z) : (0 <= z <= SIZE_MAX)%Z -> size_t z = z.
Proof. unfold size_t, SIZE_MAX; intros H; apply Z.mod_small; lia. Qed.

(** C3.  A tone whose level is below -24 is synthesised from the random
    generator alone: its sample pairs are successive pairs of draws, each
    shifted by 0.5 and multiplied by [noise_floor], with no oscillator term,
    and the resulting state does not depend on the frequency of the tone. *)
Theorem noise_only_below_floor (cfg : config) (tone : tone_t)
  (sig : option Z) (st : state) :
  (db tone < -24)%Z ->
  emitted (gen_tone cfg tone sig st) =
    emitted st ++
    noise_pairs (noise_floor cfg) (rng st) (tone_samples cfg tone) /\
  forall f : double,
    gen_tone cfg {| hz := f; us := us tone; db := db tone |} sig st =
    gen_tone cfg tone sig st.
Proof.
  intros Hdb.
  apply Z.ltb_lt in Hdb.
  split.
  - rewrite gen_tone_eq; unfold tone_pairs; now rewrite Hdb.
  - intros f; unfold gen_tone; cbn [db us hz]; now rewrite Hdb.
Qed.

Lemma noise_pairs_nth (amp : double) (n : nat) :
  forall (g : rand_state) (k : nat),
    (k < n)%nat ->
    nth_error (noise_pairs amp g n) k = Some (noise_xy amp (rng_after g k)).
Proof.
  induction n as [|n IH]; intros g k Hk; [lia|].
  destruct k as [|k]; cbn; [reflexivity|].
  apply IH; lia.
Qed.

Lemma sine_pairs_nth (cfg : config) (lut : lut_osc_t) (att : double)
  (end_ : Z) (amp : double) (n : nat) :
  forall (t : Z) (g : rand_state) (k : nat),
    (k < n)%nat ->
    nth_error
      (map add_pair (combine (carriers cfg lut att end_ t n)
                       (noise_pairs amp g n))) k =
    Some (add_pair (carrier cfg lut att end_ (t + Z.of_nat k),
                    noise_xy amp (rng_after g k))).
Proof.
  induction n as [|n IH]; intros t g k Hk; [lia|].
  destruct k as [|k].
  - cbn; now rewrite Z.add_0_r.
  - cbn [carriers noise_pairs combine map nth_error rng_after].
    rewrite IH by lia.
    now replace (t + 1 + Z.of_nat k)%Z with (t + Z.of_nat (S k))%Z by lia.
Qed.

(** C10.  On either branch the noise added to sample [k] of a tone is a draw
    shifted by 0.5 and multiplied by the configured noise amplitude only
    ([noise_signal] with an oscillator, [noise_floor] without).  Gain, tone
    level and both ramps multiply the oscillator term [carrier] alone, so the
    noise term has the same form at every index, ramp-in and ramp-out
    included. *)
Theorem noise_not_scaled_by_tone (cfg : config) (tone : tone_t)
  (sig : option Z) (st : state) (k : nat) :
  (k < tone_samples cfg tone)%nat ->
  let g := rng_after (rng st) k in
  let c :=
    carrier cfg
      (get_lut_osc (to_size_t (hz tone)) (to_size_t (sample_rate cfg)))
      (db_to_mag (db tone)) (sample_count cfg (size_t (us tone)))
      (Z.of_nat k) in
  nth_error (emitted (gen_tone cfg tone sig st)) (length (emitted st) + k) =
  Some
    (if (db tone <? -24)%Z
     then ((uniform g - lit 0.5) * noise_floor cfg,
           (uniform (next g) - lit 0.5) * noise_floor cfg)
     else (fst c + (uniform g - lit 0.5) * noise_signal cfg,
           snd c + (uniform (next g) - lit 0.5) * noise_signal cfg)).
Proof.
  intros Hk; cbv zeta.
  rewrite gen_tone_eq; cbn [emitted emit_all].
  rewrite nth_error_app2 by lia.
  replace (length (emitted st) + k - length (emitted st))%nat with k by lia.
  unfold tone_pairs; fold (tone_samples cfg tone).
  destruct (db tone <? -24)%Z.
  - now rewrite noise_pairs_nth.
  - now rewrite sine_pairs_nth.
Qed.

End Tone.

(** * The output block: cursor and flushes *)

Section Sink.

Lemma store_length (n : nat) (v : Z) :
  forall l : list Z, length (store n v l) = length l.
Proof.
  induction n as [|n IH]; intros [|x l]; cbn; try reflexivity.
  now rewrite IH.
Qed.

Lemma firstn_store (n : nat) (v : Z) :
  forall l : list Z,
    (n < length l)%nat -> firstn (S n) (store n v l) = firstn n l ++ [v].
Proof.
  induction n as [|n IH]; intros [|x l] H; cbn in *; try lia.
  - reflexivity.
  - f_equal; apply IH; lia.
Qed.

(** Two blocks that agree below index [n] agree below [n + 1] once the same
    byte is stored at [n] in both. *)
Lemma firstn_store_agree (n : nat) (v : Z) :
  forall (l1 l2 : list Z) (m : nat),
    firstn n l1 = firstn n l2 ->
    length l1 = length l2 ->
    (m <= S n)%nat ->
    firstn m (store n v l1) = firstn m (store n v l2).
Proof.
  induction n as [|n IH]; intros l1 l2 m Hf Hl Hm.
  - destruct l1 as [|x1 l1], l2 as [|x2 l2]; cbn in *; try discriminate;
      try reflexivity.
    destruct m as [|[|m]]; cbn; try reflexivity; lia.
  - destruct l1 as [|x1 l1], l2 as [|x2 l2]; cbn in *; try discriminate;
      try reflexivity.
    injection Hf as -> Hf.
    destruct m as [|m]; cbn; [reflexivity|].
    f_equal; apply IH; [assumption|lia|lia].
Qed.

Lemma size_t_nonneg (z : Z) : 0 <= size_t z.
Proof. unfold size_t; apply Z.mod_pos_bound; lia. Qed.

Lemma size_t_succ_le (z : Z) : 0 <= z -> size_t (z + 1) <= z + 1.
Proof. unfold size_t; intros H; apply Z.mod_le; lia. Qed.

(** ** Two runs on blocks of different initial content *)

Lemma put_byte_rel (v : Z) (s1 s2 : sink) :
  sink_rel s1 s2 -> sink_rel (put_byte v s1) (put_byte v s2).
Proof.
  intros (Hp & H0 & Hb & Hf & Ho & Hl & Ha).
  unfold sink_rel, put_byte; cbn.
  rewrite <- Hp, Hb, Hf, Ho, Hl, !store_length.
  repeat split; try assumption.
  - apply size_t_nonneg.
  - apply firstn_store_agree; try assumption.
    pose proof (size_t_succ_le _ H0).
    pose proof (size_t_nonneg (out_block_pos s1 + 1)).
    lia.
Qed.

Lemma block_put_rel (i8 q8 : Z) (s1 s2 : sink) :
  sink_rel s1 s2 -> sink_rel (block_put i8 q8 s1) (block_put i8 q8 s2).
Proof.
  intros H.
  apply (put_byte_rel i8), (put_byte_rel q8) in H.
  unfold block_put.
  set (t1 := put_byte q8 (put_byte i8 s1)) in *.
  set (t2 := put_byte q8 (put_byte i8 s2)) in *.
  clearbody t1 t2.
  destruct H as (Hp & H0 & Hb & Hf & Ho & Hl & Ha).
  rewrite <- Hp, <- Hb.
  destruct (Z.eqb_spec (out_block_pos t1) (block_size t1)) as [He|_].
  - unfold sink_rel, flush_block; cbn.
    rewrite <- Hb, Hf, <- He, Ha.
    repeat split; try assumption; lia.
  - repeat split; assumption.
Qed.

Lemma block_put_all_rel (pairs : list (Z * Z)) :
  forall s1 s2 : sink,
    sink_rel s1 s2 ->
    sink_rel (block_put_all pairs s1) (block_put_all pairs s2).
Proof.
  induction pairs as [|p pairs IH]; intros s1 s2 H; cbn; [assumption|].
  apply IH, block_put_rel, H.
Qed.

Lemma new_sink_rel (size : Z) (c1 c2 : list Z) :
  length c1 = length c2 -> sink_rel (new_sink size c1) (new_sink size c2).
Proof.
  intros H; unfold sink_rel, new_sink; cbn; repeat split; try assumption; lia.
Qed.

(** ** Blocks of even size *)

Lemma even_step (p n : Z) :
  Z.even p = true -> Z.even n = true -> 0 <= p < n -> p + 2 <= n.
Proof.
  intros Hp Hn H.
  apply Z.even_spec in Hp; apply Z.even_spec in Hn.
  destruct Hp as [a ->], Hn as [b ->]; lia.
Qed.

(** One write below the last pair of the block: the cursor advances by 2 and
    nothing is flushed. *)
Lemma block_put_below (i8 q8 : Z) (s : sink) :
  sink_ok s ->
  out_block_pos s + 2 < block_size s ->
  let s' := block_put i8 q8 s in
  sink_ok s' /\
  out_block_pos s' = out_block_pos s + 2 /\
  fd_out s' = fd_out s /\
  overrun s' = overrun s /\
  block_size s' = block_size s /\
  firstn (Z.to_nat (out_block_pos s')) (out_block s') =
  firstn (Z.to_nat (out_block_pos s)) (out_block s) ++ [i8; q8].
Proof.
  intros (Hp & He & Hes & Hmax & Hlen) Hlt; cbv zeta.
  unfold block_put, put_byte; cbn.
  rewrite ?store_length.
  unfold SIZE_MAX in Hmax.
  assert (H1 : size_t (out_block_pos s + 1) = out_block_pos s + 1)
    by (unfold size_t; apply Z.mod_small; lia).
  rewrite H1.
  assert (H2 : size_t (out_block_pos s + 1 + 1) = out_block_pos s + 2)
    by (unfold size_t; rewrite Z.mod_small; lia).
  rewrite H2.
  destruct (Z.eqb_spec (out_block_pos s + 2) (block_size s)) as [E|_]; [lia|].
  cbn; rewrite ?store_length.
  replace (Z.of_nat (length (out_block s)) <=? out_block_pos s) with false
    by (symmetry; apply Z.leb_gt; lia).
  replace (Z.of_nat (length (out_block s)) <=? out_block_pos s + 1) with false
    by (symmetry; apply Z.leb_gt; lia).
  rewrite !orb_false_r.
  unfold sink_ok; cbn [out_block out_block_pos block_size fd_out overrun].
  rewrite ?store_length.
  repeat split; try assumption; try lia.
  - rewrite Z.even_add, He; reflexivity.
  - replace (Z.to_nat (out_block_pos s + 2))
      with (S (Z.to_nat (out_block_pos s + 1))) by lia.
    rewrite firstn_store by (rewrite store_length; lia).
    replace (Z.to_nat (out_block_pos s + 1))
      with (S (Z.to_nat (out_block_pos s))) by lia.
    rewrite firstn_store by lia.
    now rewrite <- app_assoc.
Qed.

(** The write that fills the block: one [write] call of the whole block, and
    the cursor is back at 0. *)
Lemma block_put_last (i8 q8 : Z) (s : sink) :
  sink_ok s ->
  out_block_pos s + 2 = block_size s ->
  let s' := block_put i8 q8 s in
  sink_ok s' /\
  out_block_pos s' = 0 /\
  fd_out s' =
    fd_out s ++
    [firstn (Z.to_nat (out_block_pos s)) (out_block s) ++ [i8; q8]] /\
  overrun s' = overrun s /\
  block_size s' = block_size s.
Proof.
  intros (Hp & He & Hes & Hmax & Hlen) Heq; cbv zeta.
  unfold block_put, put_byte; cbn.
  rewrite ?store_length.
  unfold SIZE_MAX in Hmax.
  assert (H1 : size_t (out_block_pos s + 1) = out_block_pos s + 1)
    by (unfold size_t; apply Z.mod_small; lia).
  rewrite H1.
  assert (H2 : size_t (out_block_pos s + 1 + 1) = out_block_pos s + 2)
    by (unfold size_t; rewrite Z.mod_small; lia).
  rewrite H2.
  destruct (Z.eqb_spec (out_block_pos s + 2) (block_size s)) as [_|N]; [|lia].
  unfold flush_block; cbn; rewrite ?store_length.
  replace (Z.of_nat (length (out_block s)) <=? out_block_pos s) with false
    by (symmetry; apply Z.leb_gt; lia).
  replace (Z.of_nat (length (out_block s)) <=? out_block_pos s + 1) with false
    by (symmetry; apply Z.leb_gt; lia).
  rewrite !orb_false_r.
  unfold sink_ok; cbn [out_block out_block_pos block_size fd_out overrun].
  rewrite ?store_length.
  repeat split; try assumption; try lia.
  f_equal; f_equal.
  replace (Z.to_nat (block_size s))
    with (S (Z.to_nat (out_block_pos s + 1))) by lia.
  rewrite firstn_store by (rewrite store_length; lia).
  replace (Z.to_nat (out_block_pos s + 1))
    with (S (Z.to_nat (out_block_pos s))) by lia.
  rewrite firstn_store by lia.
  now rewrite <- app_assoc.
Qed.

Lemma block_put_all_below (pairs : list (Z * Z)) :
  forall s : sink,
    sink_ok s ->
    out_block_pos s + 2 * Z.of_nat (length pairs) < block_size s ->
    let s' := block_put_all pairs s in
    sink_ok s' /\
    out_block_pos s' = out_block_pos s + 2 * Z.of_nat (length pairs) /\
    fd_out s' = fd_out s /\
    overrun s' = overrun s /\
    block_size s' = block_size s /\
    firstn (Z.to_nat (out_block_pos s')) (out_block s') =
    firstn (Z.to_nat (out_block_pos s)) (out_block s) ++ interleave pairs.
Proof.
  induction pairs as [|[i8 q8] pairs IH]; intros s Hok Hlt; cbv zeta.
  - cbn; rewrite app_nil_r, Z.add_0_r; repeat split; try apply Hok.
  - cbn [block_put_all fold_left fst snd length] in *.
    destruct (block_put_below i8 q8 s Hok)
      as (Hok1 & Hp1 & Hf1 & Ho1 & Hb1 & Ha1);
      [lia|].
    destruct (IH (block_put i8 q8 s) Hok1)
      as (Hok2 & Hp2 & Hf2 & Ho2 & Hb2 & Ha2);
      [lia|].
    fold (block_put_all pairs (block_put i8 q8 s)).
    repeat split; try apply Hok2; try congruence; try lia.
    rewrite Ha2, Ha1, <- app_assoc; reflexivity.
Qed.

(** From an empty block, the pairs that fill it exactly are written out as
    one block, in wire order. *)
Lemma block_put_all_fill (pairs : list (Z * Z)) (s : sink) :
  sink_ok s ->
  out_block_pos s = 0 ->
  2 * Z.of_nat (length pairs) = block_size s ->
  let s' := block_put_all pairs s in
  sink_ok s' /\
  out_block_pos s' = 0 /\
  fd_out s' = fd_out s ++ [interleave pairs] /\
  overrun s' = overrun s.
Proof.
  intros Hok H0 Hlen; cbv zeta.
  destruct (exists_last (l := pairs)) as (init & [i8 q8] & ->).
  { intros ->; cbn in Hlen; destruct Hok; lia. }
  rewrite length_app in Hlen; cbn [length] in Hlen.
  unfold block_put_all; rewrite fold_left_app; cbn [fold_left fst snd].
  fold (block_put_all init s).
  destruct (block_put_all_below init s Hok)
    as (Hok1 & Hp1 & Hf1 & Ho1 & Hb1 & Ha1);
    [lia|].
  destruct (block_put_last i8 q8 (block_put_all init s) Hok1)
    as (Hok2 & Hp2 & Hf2 & Ho2 & Hb2); [lia|].
  repeat split; try apply Hok2; try congruence.
  rewrite Hf2, Hf1, Ha1, H0; cbn [Z.to_nat firstn app].
  unfold interleave; rewrite flat_map_app; reflexivity.
Qed.

(** With an even block size the cursor stays below the size and no store
    leaves the block, whatever is written. *)
Lemma block_put_all_ok (pairs : list (Z * Z)) :
  forall s : sink,
    sink_ok s ->
    sink_ok (block_put_all pairs s) /\
    overrun (block_put_all pairs s) = overrun s.
Proof.
  induction pairs as [|[i8 q8] pairs IH]; intros s Hok; [now split|].
  cbn [block_put_all fold_left fst snd].
  fold (block_put_all pairs (block_put i8 q8 s)).
  assert (H : sink_ok (block_put i8 q8 s) /\
              overrun (block_put i8 q8 s) = overrun s).
  { destruct Hok as (Hp & He & Hes & Hmax & Hl).
    pose proof (even_step _ _ He Hes Hp) as Hstep.
    assert (Hok : sink_ok s) by (repeat split; assumption || lia).
    destruct (Z.eq_dec (out_block_pos s + 2) (block_size s)) as [E|N].
    - destruct (block_put_last i8 q8 s Hok E) as (? & _ & _ & ? & _); now split.
    - destruct (block_put_below i8 q8 s Hok) as (? & _ & _ & ? & _);
        [lia|now split]. }
  destruct H as (Hok1 & Ho1).
  destruct (IH _ Hok1) as (Hok2 & Ho2).
  split; [assumption|congruence].
Qed.

Lemma new_sink_ok (size : Z) (content : list Z) :
  0 < size <= SIZE_MAX ->
  Z.even size = true ->
  Z.of_nat (length content) = size ->
  sink_ok (new_sink size content).
Proof.
  intros H He Hl; unfold sink_ok, new_sink; cbn.
  unfold SIZE_MAX in H.
  repeat split; try assumption; try reflexivity; lia.
Qed.

(** C4, as amended.  The block size counts bytes and a sample pair takes two
    of them: from an empty block of even size, the [size / 2] pairs that fill
    it cause exactly one [write], of the whole block in wire order, and leave
    the cursor at 0; one pair fewer causes no [write] at all. *)
Theorem block_flushed_once_when_full (size : Z) (content : list Z)
  (full short : list (Z * Z)) :
  0 < size <= SIZE_MAX ->
  Z.even size = true ->
  Z.of_nat (length content) = size ->
  2 * Z.of_nat (length full) = size ->
  2 * Z.of_nat (length short) = size - 2 ->
  fd_out (block_put_all full (new_sink size content)) = [interleave full] /\
  out_block_pos (block_put_all full (new_sink size content)) = 0 /\
  fd_out (block_put_all short (new_sink size content)) = [].
Proof.
  intros Hs He Hc Hf Hsh.
  pose proof (new_sink_ok size content Hs He Hc) as Hok.
  destruct (block_put_all_fill full _ Hok) as (_ & Hp & Hfd & _);
    [reflexivity|exact Hf|].
  destruct (block_put_all_below short _ Hok) as (_ & _ & Hfd' & _);
    [unfold new_sink; cbn [out_block_pos block_size]; lia|].
  repeat split; assumption.
Qed.

(** C4, as stated, fails: with the smallest accepted block size, 512 bytes,
    writing 512 sample pairs flushes twice and writing 511 pairs flushes
    once. *)
Lemma block_size_pairs_flush_twice :
  let s := new_sink 512 (repeat 0 512) in
  length (fd_out (block_put_all (repeat (0, 0) 512) s)) = 2%nat /\
  out_block_pos (block_put_all (repeat (0, 0) 512) s) = 0 /\
  length (fd_out (block_put_all (repeat (0, 0) 511) s)) = 1%nat.
Proof. vm_compute; repeat split. Qed.

(** C5, on the code.  [main] keeps the odd block size 513.  The cursor then
    moves 0, 2, ..., 512, 514: it never equals the block size, so nothing is
    ever written out; the 257th pair stores its second byte at index 513, one
    past the 513 bytes allocated, and leaves the cursor above the capacity. *)
Theorem odd_block_size_overruns :
  checked_block_size 513 = 513 /\
  let s := new_sink 513 (repeat 0 513) in
  out_block_pos (block_put_all (repeat (0, 0) 256) s) = 512 /\
  overrun (block_put_all (repeat (0, 0) 256) s) = false /\
  out_block_pos (block_put_all (repeat (0, 0) 257) s) = 514 /\
  overrun (block_put_all (repeat (0, 0) 257) s) = true /\
  fd_out (block_put_all (repeat (0, 0) 257) s) = [].
Proof. vm_compute; repeat split. Qed.

End Sink.

(** * The timeline loop *)

Section Timeline.

Context {A : Arith} {P : Platform A}.
Local Open Scope dbl_scope.

Lemma same_output_refl (st : state) : same_output st st.
Proof. repeat split. Qed.

(** A signal during a tone changes nothing but the flag. *)
Lemma gen_tone_signal (cfg : config) (tone : tone_t) (sig : option Z)
  (st : state) :
  same_output (gen_tone cfg tone sig st) (gen_tone cfg tone None st) /\
  do_exit (gen_tone cfg tone sig st) =
    do_exit st || hit sig 0 (tone_samples cfg tone).
Proof. rewrite !gen_tone_eq; repeat split. Qed.

(** Once the flag is set and no further signal is due, the loop stops at its
    next condition check. *)
Lemma gen_loop_stops (cfg : config) (k : nat) (t : Z) (j : nat)
  (tones : list tone_t) (st : state) :
  do_exit st = true ->
  gen_loop cfg (DuringTone k t) j tones st = st.
Proof.
  intros Hx; destruct tones as [|tone rest]; cbn; [reflexivity|].
  rewrite Hx; now destruct (us tone =? 0)%Z.
Qed.

Lemma gen_loop_cut (cfg : config) (k : nat) (t : Z) (tones : list tone_t) :
  forall (j : nat) (st : state),
    (j <= k)%nat ->
    (forall tone : tone_t,
        nth_error tones (k - j) = Some tone ->
        hit (Some t) 0 (tone_samples cfg tone) = true) ->
    same_output
      (gen_loop cfg (DuringTone k t) j tones st)
      (gen_loop cfg Never j (firstn (S (k - j)) tones ++ [terminator]) st).
Proof.
  induction tones as [|tone rest IH]; intros j st Hjk Hhit.
  - cbn; apply same_output_refl.
  - cbn [firstn app gen_loop at_head within].
    destruct (us tone =? 0)%Z; [apply same_output_refl|].
    destruct (do_exit st); [apply same_output_refl|].
    destruct (Nat.eqb_spec k j) as [->|Hne].
    + rewrite Nat.sub_diag in *; cbn [firstn app gen_loop at_head].
      destruct (gen_tone_signal cfg tone (Some t) st) as (Hsame & Hflag).
      rewrite gen_loop_stops.
      * replace (us terminator =? 0)%Z with true by reflexivity.
        exact Hsame.
      * rewrite Hflag, (Hhit tone eq_refl); apply orb_true_r.
    + replace (k - j)%nat with (S (k - S j)) in * by lia.
      apply IH; [lia|].
      intros tn Hn; apply Hhit; exact Hn.
Qed.

(** ** Runs that differ in the initial content of the block *)

Lemma gen_tone_rel (cfg : config) (tone : tone_t) (sig : option Z)
  (st1 st2 : state) :
  st_rel st1 st2 ->
  st_rel (gen_tone cfg tone sig st1) (gen_tone cfg tone sig st2).
Proof.
  intros (Hg & Hx & He & Hs).
  rewrite !gen_tone_eq; unfold st_rel, emit_all; cbn.
  rewrite <- Hg, <- Hx, <- He.
  split; [reflexivity|split; [reflexivity|split; [reflexivity|]]].
  apply block_put_all_rel, Hs.
Qed.

Lemma at_head_rel (arr : arrival) (j : nat) (st1 st2 : state) :
  st_rel st1 st2 -> st_rel (at_head arr j st1) (at_head arr j st2).
Proof.
  intros H; unfold at_head; destruct arr as [|j'|j' t]; try assumption.
  destruct (Nat.eqb j' j); [|assumption].
  destruct H as (Hg & Hx & He & Hs).
  split; [assumption|split; [reflexivity|split; assumption]].
Qed.

Lemma gen_loop_rel (cfg : config) (arr : arrival) (tones : list tone_t) :
  forall (j : nat) (st1 st2 : state),
    st_rel st1 st2 ->
    st_rel (gen_loop cfg arr j tones st1) (gen_loop cfg arr j tones st2).
Proof.
  induction tones as [|tone rest IH]; intros j st1 st2 H; cbn [gen_loop];
    [assumption|].
  apply (at_head_rel arr j) in H.
  destruct (us tone =? 0)%Z; [assumption|].
  pose proof H as (_ & Hx & _).
  rewrite <- Hx.
  destruct (do_exit (at_head arr j st1)); [assumption|].
  apply IH, gen_tone_rel, H.
Qed.

End Timeline.

(** * The encoder in exact arithmetic *)

Section Encoder.

Local Open Scope Q_scope.

Lemma trunc_nonneg (q : Q) :
  0 <= q ->
  (0 <= Exact.trunc q)%Z /\
  inject_Z (Exact.trunc q) <= q /\ q < inject_Z (Exact.trunc q + 1).
Proof.
  intros H.
  assert (E : Exact.trunc q = Qfloor q).
  { destruct q as [n d]; unfold Exact.trunc, Qfloor; cbn [Qnum Qden].
    apply Z.quot_div_nonneg; [|lia].
    unfold Qle in H; cbn in H; lia. }
  rewrite E; repeat split.
  - change 0%Z with (Qfloor 0); apply Qfloor_resp_le, H.
  - apply Qfloor_le.
  - apply Qlt_floor.
Qed.

Lemma trunc_neg (q : Q) :
  q < 0 ->
  (Exact.trunc q <= 0)%Z /\
  q <= inject_Z (Exact.trunc q) /\ inject_Z (Exact.trunc q - 1) < q.
Proof.
  intros H.
  assert (E : Exact.trunc q = Qceiling q).
  { destruct q as [n d]; unfold Exact.trunc, Qceiling, Qfloor, Qopp;
      cbn [Qnum Qden].
    assert (Hn : (n < 0)%Z) by (unfold Qlt in H; cbn in H; lia).
    replace n with (- (- n))%Z at 1 by lia.
    rewrite Z.quot_opp_l by lia.
    f_equal; apply Z.quot_div_nonneg; lia. }
  rewrite E; repeat split.
  - change 0%Z with (Qceiling 0); apply Qceiling_resp_le, Qlt_le_weak, H.
  - apply Qle_ceiling.
  - apply Qceiling_lt.
Qed.

Lemma inject_Z_le_inv (a b : Z) : inject_Z a <= inject_Z b -> (a <= b)%Z.
Proof. now rewrite <- Zle_Qle. Qed.

Lemma inject_Z_lt_inv (a b : Z) : inject_Z a < inject_Z b -> (a < b)%Z.
Proof. now rewrite <- Zlt_Qlt. Qed.

(** In the range of [int] the conversion is the truncation. *)
Lemma to_int_exact (p : Q) :
  inject_Z (- 2 ^ 31) < p < inject_Z (2 ^ 31) ->
  to_int (Arith := Exact.arith) p = Exact.trunc p.
Proof.
  intros [Hlo Hhi]; cbn [to_int Exact.arith]; unfold int_of_trunc.
  assert (H : (INT_MIN <= Exact.trunc p <= INT_MAX)%Z).
  { unfold INT_MIN, INT_MAX.
    destruct (Qlt_le_dec p 0) as [Hn|Hp].
    - destruct (trunc_neg p Hn) as (H0 & Hle & _).
      assert (inject_Z (- 2 ^ 31) < inject_Z (Exact.trunc p))
        by (eapply Qlt_le_trans; eassumption).
      apply inject_Z_lt_inv in H; lia.
    - destruct (trunc_nonneg p Hp) as (H0 & Hle & _).
      assert (inject_Z (Exact.trunc p) < inject_Z (2 ^ 31))
        by (eapply Qle_lt_trans; eassumption).
      apply inject_Z_lt_inv in H; lia. }
  destruct H as [H1 H2].
  apply Z.leb_le in H1, H2; now rewrite H1, H2.
Qed.

Lemma bound_clamp (z : Z) : uint8_t (bound z) = Z.max 0 (Z.min 255 z).
Proof.
  unfold uint8_t, bound.
  destruct (Z.ltb_spec z 0); [rewrite Z.mod_small; lia|].
  destruct (Z.gtb_spec z 255); rewrite Z.mod_small; lia.
Qed.

(** C2, as stated, fails: at [v = -0.5] the scaled value is 63.75, which
    rounds to 64, and the encoder produces 63, in binary64 as in exact
    arithmetic. *)
Lemma encode_is_not_rounding :
  encode (A := B64.arith) (-0.5)%float = 63%Z /\
  encode (A := Exact.arith) (-0.5) = 63%Z /\
  spec_encode (-0.5) = 64%Z /\
  encode (A := Exact.arith) (-0.5) <> spec_encode (-0.5).
Proof. vm_compute; repeat split; discriminate. Qed.

End Encoder.

(** * The envelope of a tone *)

Section Envelope.

Context {A : Arith}.
Local Open Scope dbl_scope.

Lemma att_in_ramp (t : Z) :
  (t < att_steps)%Z ->
  att_in t = lit 1.0 / of_integer att_steps * of_integer t.
Proof.
  intros H; unfold att_in.
  now replace (t <? att_steps)%Z with true by (symmetry; apply Z.ltb_lt, H).
Qed.

Lemma att_in_flat (t : Z) : (att_steps <= t)%Z -> att_in t = lit 1.0.
Proof.
  intros H; unfold att_in.
  now replace (t <? att_steps)%Z with false by (symmetry; apply Z.ltb_ge, H).
Qed.

Lemma att_out_flat (end_ t : Z) :
  (0 <= t)%Z -> (t + att_steps <= end_)%Z -> (end_ <= SIZE_MAX)%Z ->
  att_out end_ t = lit 1.0.
Proof.
  intros H0 H Hmax; unfold att_out.
  rewrite size_t_id by (unfold att_steps in *; lia).
  destruct (Z.gtb_spec (t + att_steps) end_); [lia|reflexivity].
Qed.

Lemma att_out_ramp (end_ t : Z) :
  (0 <= t < end_)%Z -> (end_ < t + att_steps)%Z ->
  (end_ <= SIZE_MAX - att_steps)%Z ->
  att_out end_ t = lit 1.0 / of_integer att_steps * of_integer (end_ - t).
Proof.
  intros H0 H Hmax; unfold att_out.
  rewrite !size_t_id by (unfold att_steps, SIZE_MAX in *; lia).
  destruct (Z.gtb_spec (t + att_steps) end_); [reflexivity|lia].
Qed.

End Envelope.

Section EnvelopeShape.

Lemma Z_range_forallb (P : Z -> bool) (n : nat) :
  forallb P (map Z.of_nat (seq 0 n)) = true ->
  forall t : Z, 0 <= t < Z.of_nat n -> P t = true.
Proof.
  intros H t Ht.
  rewrite forallb_forall in H; apply H.
  rewrite <- (Z2Nat.id t) by lia.
  apply in_map, in_seq; lia.
Qed.

(** ** Exact arithmetic *)

Lemma envelope_rise (end_ t : Z) :
  2 * att_steps <= end_ <= SIZE_MAX - att_steps ->
  0 <= t <= att_steps ->
  (envelope (A := Exact.arith) end_ t == inject_Z t / 100)%Q.
Proof.
  intros He Ht; unfold envelope.
  rewrite att_out_flat by (unfold att_steps in *; lia).
  destruct (Z.eq_dec t att_steps) as [->|Hne].
  - rewrite att_in_flat by lia; reflexivity.
  - rewrite att_in_ramp by lia.
    cbn [lit dadd dmul ddiv of_integer Exact.arith]; unfold att_steps.
    field.
Qed.

Lemma envelope_hold (end_ t : Z) :
  2 * att_steps <= end_ <= SIZE_MAX - att_steps ->
  att_steps <= t <= end_ - att_steps ->
  (envelope (A := Exact.arith) end_ t == 1)%Q.
Proof.
  intros He Ht; unfold envelope.
  rewrite att_out_flat, att_in_flat by (unfold att_steps in *; lia).
  reflexivity.
Qed.

Lemma envelope_fall (end_ t : Z) :
  2 * att_steps <= end_ <= SIZE_MAX - att_steps ->
  end_ - att_steps <= t < end_ ->
  (envelope (A := Exact.arith) end_ t == inject_Z (end_ - t) / 100)%Q.
Proof.
  intros He Ht; unfold envelope.
  rewrite att_in_flat by (unfold att_steps in *; lia).
  destruct (Z.eq_dec t (end_ - att_steps)) as [->|Hne].
  - rewrite att_out_flat by (unfold att_steps in *; lia).
    replace (end_ - (end_ - att_steps)) with 100 by (unfold att_steps; lia).
    reflexivity.
  - rewrite att_out_ramp by (unfold att_steps in *; lia).
    cbn [lit dadd dmul ddiv of_integer Exact.arith]; unfold att_steps.
    field.
Qed.

(** ** binary64 *)

Lemma digits2_pos_bounds (m : positive) :
  2 ^ (Z.pos (digits2_pos m) - 1) <= Z.pos m < 2 ^ Z.pos (digits2_pos m).
Proof.
  induction m as [p IH|p IH|]; cbn [digits2_pos].
  - rewrite Pos2Z.inj_succ.
    replace (Z.succ (Z.pos (digits2_pos p)) - 1)
      with (Z.succ (Z.pos (digits2_pos p) - 1)) by lia.
    rewrite !Z.pow_succ_r by lia; lia.
  - rewrite Pos2Z.inj_succ.
    replace (Z.succ (Z.pos (digits2_pos p)) - 1)
      with (Z.succ (Z.pos (digits2_pos p) - 1)) by lia.
    rewrite !Z.pow_succ_r by lia; lia.
  - cbn; lia.
Qed.

(** A double that converts to [size_t] is at most [2^64 - 2048], the
    largest double below [2^64]; so is the value fixed for an undefined
    conversion. *)
Lemma to_size_t_b64_bound (f : float) :
  0 <= to_size_t (Arith := B64.arith) f <= 2 ^ 64 - 2048.
Proof.
  cbn [to_size_t B64.arith]; unfold B64.trunc.
  pose proof (Prim2SF_valid f) as Hv.
  destruct (Prim2SF f) as [s|s| |s m e]; cbn [size_t_of_trunc];
    try (cbn; lia).
  cbn [valid_binary] in Hv.
  unfold bounded, canonical_mantissa, fexp, emin in Hv.
  apply andb_true_iff in Hv; destruct Hv as [Hc He].
  apply Z.eqb_eq in Hc. apply Z.leb_le in He.
  change prec with 53 in *; change emax with 1024 in *.
  pose proof (digits2_pos_bounds m) as Hd.
  set (d := Z.pos (digits2_pos m)) in *.
  set (a := if 0 <=? e then Z.pos m * 2 ^ e else Z.pos m / 2 ^ (- e)).
  set (z := if s then - a else a).
  unfold SIZE_MAX.
  destruct ((0 <=? z) && (z <=? 2 ^ 64 - 1)) eqn:Hr; [|lia].
  apply andb_true_iff in Hr; destruct Hr as [H0 H1].
  apply Z.leb_le in H0, H1.
  split; [exact H0|].
  assert (Hm : Z.pos m < 2 ^ 53).
  { eapply Z.lt_le_trans; [apply Hd|]. apply Z.pow_le_mono_r; lia. }
  assert (Ha : 0 <= a).
  { unfold a; destruct (Z.leb_spec 0 e).
    - apply Z.mul_nonneg_nonneg; [lia|apply Z.pow_nonneg; lia].
    - apply Z.div_pos; [lia|apply Z.pow_pos_nonneg; lia]. }
  assert (Hz : z <= a) by (unfold z; destruct s; lia).
  cut (a <= 2 ^ 64 - 2048 \/ 2 ^ 64 <= a).
  { intros [H|H]; [lia|]. unfold z in *; destruct s; lia. }
  unfold a; destruct (Z.leb_spec 0 e) as [Hpos|Hneg].
  - destruct (Z_le_gt_dec e 11) as [H11|H12].
    + left. assert (2 ^ e <= 2 ^ 11) by (apply Z.pow_le_mono_r; lia).
      assert (0 < 2 ^ e) by (apply Z.pow_pos_nonneg; lia).
      change (2 ^ 64 - 2048) with ((2 ^ 53 - 1) * 2 ^ 11).
      apply Z.mul_le_mono_nonneg; lia.
    + right. assert (d = 53) by lia.
      assert (2 ^ 52 <= Z.pos m) by (replace 52 with (d - 1) by lia; apply Hd).
      assert (2 ^ 12 <= 2 ^ e) by (apply Z.pow_le_mono_r; lia).
      change (2 ^ 64) with (2 ^ 52 * 2 ^ 12).
      apply Z.mul_le_mono_nonneg; lia.
  - left. assert (0 < 2 ^ (- e)) by (apply Z.pow_pos_nonneg; lia).
    assert (Z.pos m / 2 ^ (- e) <= Z.pos m)
      by (apply Z.div_le_upper_bound; nia).
    lia.
Qed.

Lemma sample_count_b64_bound (cfg : config (A := B64.arith)) (time_us : Z) :
  0 <= sample_count cfg time_us <= SIZE_MAX - att_steps.
Proof.
  unfold sample_count, SIZE_MAX, att_steps.
  pose proof (to_size_t_b64_bound
                (PrimFloat.div
                   (PrimFloat.mul (B64.of_Z time_us) (sample_rate cfg))
                   (B64.of_Z 1000000))) as H.
  cbn [dmul ddiv of_integer B64.arith]; lia.
Qed.

Lemma rise64_monotone (t : Z) :
  0 <= t < att_steps -> PrimFloat.leb (rise64 t) (rise64 (t + 1)) = true.
Proof.
  apply (Z_range_forallb
           (fun t => PrimFloat.leb (rise64 t) (rise64 (t + 1))) 100).
  vm_compute; reflexivity.
Qed.

Lemma fall64_monotone (k : Z) :
  0 <= k < att_steps -> PrimFloat.leb (fall64 k) (fall64 (k + 1)) = true.
Proof.
  apply (Z_range_forallb
           (fun k => PrimFloat.leb (fall64 k) (fall64 (k + 1))) 100).
  vm_compute; reflexivity.
Qed.

Lemma envelope64_rise (end_ t : Z) :
  2 * att_steps <= end_ <= SIZE_MAX - att_steps ->
  0 <= t <= att_steps ->
  envelope (A := B64.arith) end_ t = rise64 t.
Proof.
  intros He Ht; unfold envelope, rise64.
  now rewrite att_out_flat by (unfold att_steps in *; lia).
Qed.

Lemma envelope64_fall (end_ t : Z) :
  2 * att_steps <= end_ <= SIZE_MAX - att_steps ->
  end_ - att_steps <= t < end_ ->
  envelope (A := B64.arith) end_ t = fall64 (end_ - t).
Proof.
  intros He Ht; unfold envelope, fall64.
  rewrite att_in_flat by (unfold att_steps in *; lia).
  destruct (Z.ltb_spec (end_ - t) att_steps) as [Hlt|Hge].
  - now rewrite att_out_ramp by (unfold att_steps in *; lia).
  - now rewrite att_out_flat by (unfold att_steps in *; lia).
Qed.

(** C6.  For a tone of [end_ >= 2 * att_steps] samples ([att_steps] = 100;
    [end_] is at most [SIZE_MAX - att_steps], as is every sample count that
    a double converts to, see [sample_count_b64_bound]) the factor applied
    at sample index [t] is, in exact arithmetic, [t / 100] over the first
    100 indices, 1 over the middle indices and [(end_ - t) / 100] over the
    last 100: it rises linearly from 0, holds at 1, and falls linearly toward
    0 at [end_]; it is non-decreasing on the rise and non-increasing on the
    fall.  In binary64 the factor is exactly 1.0 over the middle indices and
    is monotone in the same way. *)
Theorem envelope_shape (end_ t : Z) :
  2 * att_steps <= end_ <= SIZE_MAX - att_steps ->
  0 <= t < end_ ->
  (t < att_steps ->
   (envelope (A := Exact.arith) end_ t == inject_Z t / 100)%Q) /\
  (att_steps <= t <= end_ - att_steps ->
   (envelope (A := Exact.arith) end_ t == 1)%Q) /\
  (end_ - att_steps <= t ->
   (envelope (A := Exact.arith) end_ t == inject_Z (end_ - t) / 100)%Q) /\
  (t < att_steps ->
   (envelope (A := Exact.arith) end_ t <=
    envelope (A := Exact.arith) end_ (t + 1))%Q) /\
  (end_ - att_steps <= t -> t + 1 < end_ ->
   (envelope (A := Exact.arith) end_ (t + 1) <=
    envelope (A := Exact.arith) end_ t)%Q) /\
  (att_steps <= t <= end_ - att_steps ->
   envelope (A := B64.arith) end_ t = 1%float) /\
  (t < att_steps ->
   PrimFloat.leb (envelope (A := B64.arith) end_ t)
     (envelope (A := B64.arith) end_ (t + 1)) = true) /\
  (end_ - att_steps <= t -> t + 1 < end_ ->
   PrimFloat.leb (envelope (A := B64.arith) end_ (t + 1))
     (envelope (A := B64.arith) end_ t) = true).
Proof.
  intros He Ht.
  assert (Ha : att_steps = 100) by reflexivity.
  repeat split.
  - intros H; apply envelope_rise; lia.
  - intros H; apply envelope_hold; lia.
  - intros H; apply envelope_fall; lia.
  - intros H.
    rewrite !envelope_rise by lia.
    rewrite inject_Z_plus; change (inject_Z 1) with 1%Q.
    unfold Qdiv; change (/ 100)%Q with (1 # 100); lra.
  - intros H H1.
    rewrite !envelope_fall by lia.
    replace (end_ - t) with (end_ - (t + 1) + 1) by lia.
    rewrite inject_Z_plus; change (inject_Z 1) with 1%Q.
    unfold Qdiv; change (/ 100)%Q with (1 # 100); lra.
  - intros H; unfold envelope.
    rewrite att_in_flat, att_out_flat by lia.
    vm_compute; reflexivity.
  - intros H.
    rewrite !envelope64_rise by lia.
    apply rise64_monotone; lia.
  - intros H H1.
    rewrite !envelope64_fall by lia.
    replace (end_ - t) with (end_ - (t + 1) + 1) by lia.
    apply fall64_monotone; lia.
Qed.

End EnvelopeShape.

(** * Level conversion *)

Section Levels.

#[local] Existing Instance B64.arith.
Context {P : Platform B64.arith}.

Lemma positive_not_le_zero (x : float) :
  PrimFloat.ltb 0 x = true -> PrimFloat.leb x 0 = false.
Proof.
  rewrite ltb_spec, leb_spec.
  change (Prim2SF 0) with (S754_zero false).
  destruct (Prim2SF x) as [s|s| |s m e]; try destruct s; cbn; congruence.
Qed.

(** C9.  [sine_pk_level] takes the decibel branch for every argument that is
    [<= 0] and returns [pow (10.0, 1.0 / 20.0 * level)] there; an argument
    that is [> 0] is returned unchanged.  Zero, of either sign, takes the
    decibel branch, where the exponent is 0 and the result is 1.0 ([pow]
    returns 1 for a zero exponent, ISO C F.10.4.4). *)
Theorem tone_level_branches (level : float) :
  (forall x : float,
      pow x 0%float = 1%float /\ pow x neg_zero = 1%float) ->
  (PrimFloat.leb level 0 = true ->
   sine_pk_level level =
   pow (lit 10.0) (lit 1.0 / lit 20.0 * level)%dbl) /\
  (PrimFloat.ltb 0 level = true -> sine_pk_level level = level) /\
  sine_pk_level 0%float = 1%float /\
  sine_pk_level neg_zero = 1%float.
Proof.
  intros Hpow.
  assert (Hz : B64.of_Q 0 = 0%float) by (vm_compute; reflexivity).
  repeat split.
  - intros H; unfold sine_pk_level; cbn [dle lit B64.arith].
    now rewrite Hz, H.
  - intros H; unfold sine_pk_level; cbn [dle lit B64.arith].
    now rewrite Hz, (positive_not_le_zero level H).
  - replace (@sine_pk_level _ P 0%float) with (@pow _ P (lit 10.0) 0%float)
      by (vm_compute; reflexivity).
    apply Hpow.
  - replace (@sine_pk_level _ P neg_zero) with (@pow _ P (lit 10.0) neg_zero)
      by (vm_compute; reflexivity).
    apply Hpow.
Qed.

End Levels.

(** * Sample counts in exact arithmetic *)

Section Counts.

Local Open Scope Q_scope.

Lemma trunc_floor (q : Q) : 0 <= q -> Exact.trunc q = Qfloor q.
Proof.
  intros H; destruct q as [n d]; unfold Exact.trunc, Qfloor; cbn [Qnum Qden].
  apply Z.quot_div_nonneg; [|lia].
  unfold Qle in H; cbn in H; lia.
Qed.

(** For a non-negative quotient within [size_t], the sample count is the
    floor of [time_us * sample_rate / 1000000]. *)
Lemma sample_count_floor (cfg : config (A := Exact.arith)) (time_us : Z) :
  0 <= inject_Z time_us * sample_rate cfg / 1000000 ->
  (Qfloor (inject_Z time_us * sample_rate cfg / 1000000) <= SIZE_MAX)%Z ->
  sample_count cfg time_us =
  Qfloor (inject_Z time_us * sample_rate cfg / 1000000).
Proof.
  intros H0 Hmax.
  unfold sample_count; cbn [to_size_t dmul ddiv of_integer Exact.arith].
  change (inject_Z 1000000) with 1000000.
  unfold size_t_of_trunc; rewrite trunc_floor by exact H0.
  assert (H : (0 <= Qfloor (inject_Z time_us * sample_rate cfg / 1000000))%Z).
  { change 0%Z with (Qfloor 0); apply Qfloor_resp_le, H0. }
  apply Z.leb_le in H, Hmax; now rewrite H, Hmax.
Qed.

End Counts.

Section NoiseBound.

#[local] Existing Instance Exact.arith.
Context {P : Platform Exact.arith}.
Local Open Scope Q_scope.

(** With draws in [0, RAND_MAX], a noise term of amplitude [amp] stays
    within [amp / 2] of zero, whatever the sample index. *)
Lemma noise_term_bounded (amp : Q) (g : rand_state) :
  (0 <= fst (rand g) <= RAND_MAX)%Z ->
  (0 < RAND_MAX)%Z ->
  0 <= amp ->
  Qabs (fst (noise_xy amp g)) <= amp * (1 # 2).
Proof.
  intros [Hr0 Hr1] HM Ha.
  unfold noise_xy, uniform; cbn [fst lit dsub dmul ddiv of_integer Exact.arith].
  set (r := fst (rand g)) in *.
  assert (HMq : 0 < inject_Z RAND_MAX)
    by (change 0 with (inject_Z 0); now rewrite <- Zlt_Qlt).
  assert (Hu0 : 0 <= inject_Z r / inject_Z RAND_MAX).
  { apply Qle_shift_div_l; [exact HMq|].
    rewrite Qmult_0_l; change 0 with (inject_Z 0); now rewrite <- Zle_Qle. }
  assert (Hu1 : inject_Z r / inject_Z RAND_MAX <= 1).
  { apply Qle_shift_div_r; [exact HMq|].
    rewrite Qmult_1_l; now rewrite <- Zle_Qle. }
  set (u := inject_Z r / inject_Z RAND_MAX) in *.
  apply Qabs_Qle_condition; split; nra.
Qed.

End NoiseBound.

(** * Concrete runs *)

Section Runs.

#[local] Existing Instance B64.arith.
#[local] Existing Instance Ref.platform.

Example tone_samples_1000 :
  tone_samples cfg64 (tone64 0 1000 0) = 1000%nat.
Proof. vm_compute; reflexivity. Qed.

Example timeline64_run :
  let r := gen (P := Ref.platform B64.arith) cfg64 1 (repeat 0 512) Never
             timeline64 in
  length (emitted r) = 305%nat /\ length (fd_out (snk r)) = 1%nat /\
  out_block_pos (snk r) = 98 /\ overrun (snk r) = false.
Proof. vm_compute; repeat split. Qed.

(** The conversion of an out-of-range value: C leaves it undefined, x86-64
    yields [INT_MIN], and the byte is then 0, not 255. *)
Example encode_beyond_int :
  map (encode (A := B64.arith)) [1; 2; 0x1p100; -1; -3]%float =
  [255; 255; 0; 0; 0].
Proof. vm_compute; reflexivity. Qed.

Lemma noise_only_below_floor_witness :
  db (tone64 0 500 (-30)) < -24 /\
  emitted (gen_tone cfg64 (tone64 0 500 (-30)) None start64) =
    emitted start64 ++
    noise_pairs (noise_floor cfg64) (rng start64)
      (tone_samples cfg64 (tone64 0 500 (-30))) /\
  forall f : float,
    gen_tone cfg64
      {| hz := f; us := us (tone64 0 500 (-30));
         db := db (tone64 0 500 (-30)) |} None start64 =
    gen_tone cfg64 (tone64 0 500 (-30)) None start64.
Proof.
  assert (H : db (tone64 0 500 (-30)) < -24) by (cbn; lia).
  split; [exact H|].
  exact (noise_only_below_floor cfg64 (tone64 0 500 (-30)) None start64 H).
Defined.

Lemma block_flushed_once_when_full_witness :
  0 < 512 <= SIZE_MAX /\
  Z.even 512 = true /\
  Z.of_nat (length (repeat 7 512)) = 512 /\
  2 * Z.of_nat (length (repeat (1, 2) 256)) = 512 /\
  2 * Z.of_nat (length (repeat (1, 2) 255)) = 512 - 2 /\
  fd_out (block_put_all (repeat (1, 2) 256) (new_sink 512 (repeat 7 512))) =
    [interleave (repeat (1, 2) 256)] /\
  out_block_pos
    (block_put_all (repeat (1, 2) 256) (new_sink 512 (repeat 7 512))) = 0 /\
  fd_out (block_put_all (repeat (1, 2) 255) (new_sink 512 (repeat 7 512))) = [].
Proof.
  assert (H1 : 0 < 512 <= SIZE_MAX) by (unfold SIZE_MAX; lia).
  assert (H2 : Z.even 512 = true) by reflexivity.
  assert (H3 : Z.of_nat (length (repeat 7 512)) = 512)
    by (vm_compute; reflexivity).
  assert (H4 : 2 * Z.of_nat (length (repeat (1, 2) 256)) = 512)
    by (vm_compute; reflexivity).
  assert (H5 : 2 * Z.of_nat (length (repeat (1, 2) 255)) = 512 - 2)
    by (vm_compute; reflexivity).
  repeat (split; [assumption|]).
  exact (block_flushed_once_when_full 512 (repeat 7 512) (repeat (1, 2) 256)
           (repeat (1, 2) 255) H1 H2 H3 H4 H5).
Defined.

Lemma envelope_shape_witness :
  2 * att_steps <= 300 <= SIZE_MAX - att_steps /\
  0 <= 50 < 300 /\
  (envelope (A := Exact.arith) 300 50 == inject_Z 50 / 100)%Q /\
  (envelope (A := Exact.arith) 300 50 <=
   envelope (A := Exact.arith) 300 51)%Q /\
  PrimFloat.leb (envelope (A := B64.arith) 300 50)
    (envelope (A := B64.arith) 300 51) = true.
Proof.
  assert (H1 : 2 * att_steps <= 300 <= SIZE_MAX - att_steps)
    by (unfold att_steps, SIZE_MAX; lia).
  assert (H2 : 0 <= 50 < 300) by lia.
  assert (H3 : 50 < att_steps) by (unfold att_steps; lia).
  split; [exact H1|split; [exact H2|]].
  destruct (envelope_shape 300 50 H1 H2)
    as (Hrise & _ & _ & Hmono & _ & _ & Hmono64 & _).
  exact (conj (Hrise H3) (conj (Hmono H3) (Hmono64 H3))).
Defined.

Lemma tone_level_branches_witness :
  (forall x : float,
      pow (Platform := Ref.platform B64.arith) x 0%float = 1%float /\
      pow (Platform := Ref.platform B64.arith) x neg_zero = 1%float) /\
  sine_pk_level (P := Ref.platform B64.arith) 2%float = 2%float /\
  sine_pk_level (P := Ref.platform B64.arith) 0%float = 1%float /\
  sine_pk_level (P := Ref.platform B64.arith) neg_zero = 1%float.
Proof.
  assert (H : forall x : float,
             pow (Platform := Ref.platform B64.arith) x 0%float = 1%float /\
             pow (Platform := Ref.platform B64.arith) x neg_zero = 1%float)
    by (intros x; split; vm_compute; reflexivity).
  split; [exact H|].
  destruct (tone_level_branches (P := Ref.platform B64.arith) 2%float H)
    as (_ & Hpos & Hz & Hnz).
  exact (conj (Hpos eq_refl) (conj Hz Hnz)).
Defined.

Lemma noise_not_scaled_by_tone_witness :
  (0 < tone_samples cfg64 (tone64 0 1000 0))%nat /\
  let g := rng_after (rng start64) 0 in
  let c :=
    carrier (P := Ref.platform B64.arith) cfg64
      (get_lut_osc (to_size_t (hz (tone64 0 1000 0)))
         (to_size_t (sample_rate cfg64)))
      (db_to_mag (db (tone64 0 1000 0)))
      (sample_count cfg64 (size_t (us (tone64 0 1000 0)))) (Z.of_nat 0) in
  nth_error (emitted (gen_tone cfg64 (tone64 0 1000 0) None start64))
    (length (emitted start64) + 0) =
  Some
    (if db (tone64 0 1000 0) <? -24
     then ((uniform g - lit 0.5) * noise_floor cfg64,
           (uniform (next g) - lit 0.5) * noise_floor cfg64)%dbl
     else (fst c + (uniform g - lit 0.5) * noise_signal cfg64,
           snd c + (uniform (next g) - lit 0.5) * noise_signal cfg64)%dbl).
Proof.
  assert (H : (0 < tone_samples cfg64 (tone64 0 1000 0))%nat)
    by (rewrite tone_samples_1000; lia).
  split; [exact H|].
  exact (noise_not_scaled_by_tone cfg64 (tone64 0 1000 0) None start64 0%nat H).
Defined.

End Runs.

(** * The byte stream of the output block *)

Section SinkStream.

Lemma block_put_stream (i8 q8 : Z) (s : sink) :
  sink_ok s ->
  let s' := block_put i8 q8 s in
  sink_ok s' /\
  stream s' = stream s ++ [i8; q8] /\
  block_size s' = block_size s /\
  out_block_pos s' = (out_block_pos s + 2) mod block_size s /\
  Z.of_nat (length (fd_out s')) =
    Z.of_nat (length (fd_out s)) + (out_block_pos s + 2) / block_size s /\
  (Forall (fun b => Z.of_nat (length b) = block_size s) (fd_out s) ->
   Forall (fun b => Z.of_nat (length b) = block_size s) (fd_out s')).
Proof.
  intros Hok; cbv zeta.
  pose proof Hok as (Hp & He & Hes & Hmax & Hl).
  pose proof (even_step _ _ He Hes Hp) as Hstep.
  destruct (Z.eq_dec (out_block_pos s + 2) (block_size s)) as [E|N].
  - destruct (block_put_last i8 q8 s Hok E) as (Hok' & Hp' & Hf' & _ & Hb').
    repeat split; try apply Hok'; try assumption.
    + unfold stream; rewrite Hf', Hp', concat_app; cbn [concat Z.to_nat firstn].
      now rewrite !app_nil_r, <- app_assoc.
    + rewrite Hp', E, Z.mod_same by lia; reflexivity.
    + rewrite Hf', length_app, E, Z.div_same by lia; cbn [length]; lia.
    + intros HF; rewrite Hf'; apply Forall_app; split; [exact HF|].
      constructor; [|constructor].
      rewrite length_app, firstn_length_le by lia; cbn [length]; lia.
  - destruct (block_put_below i8 q8 s Hok)
      as (Hok' & Hp' & Hf' & _ & Hb' & Ha'); [lia|].
    repeat split; try apply Hok'; try assumption.
    + unfold stream; rewrite Hf', Ha'; now rewrite app_assoc.
    + rewrite Hp', Z.mod_small by lia; reflexivity.
    + rewrite Hf', Z.div_small by lia; lia.
    + now rewrite Hf'.
Qed.

Lemma block_put_all_stream (pairs : list (Z * Z)) :
  forall s : sink,
    sink_ok s ->
    let s' := block_put_all pairs s in
    let n := Z.of_nat (length pairs) in
    sink_ok s' /\
    stream s' = stream s ++ interleave pairs /\
    block_size s' = block_size s /\
    out_block_pos s' = (out_block_pos s + 2 * n) mod block_size s /\
    Z.of_nat (length (fd_out s')) =
      Z.of_nat (length (fd_out s)) + (out_block_pos s + 2 * n) / block_size s /\
    (Forall (fun b => Z.of_nat (length b) = block_size s) (fd_out s) ->
     Forall (fun b => Z.of_nat (length b) = block_size s) (fd_out s')).
Proof.
  induction pairs as [|[i8 q8] pairs IH]; intros s Hok; cbv zeta.
  - pose proof Hok as (Hp & _).
    cbn [block_put_all fold_left length interleave flat_map Z.of_nat].
    rewrite app_nil_r, Z.mul_0_r, Z.add_0_r, Z.mod_small, Z.div_small by lia.
    repeat split; try apply Hok; auto; lia.
  - cbn [block_put_all fold_left fst snd].
    fold (block_put_all pairs (block_put i8 q8 s)).
    destruct (block_put_stream i8 q8 s Hok)
      as (Hok1 & Hs1 & Hb1 & Hp1 & Hf1 & HF1).
    destruct (IH _ Hok1) as (Hok2 & Hs2 & Hb2 & Hp2 & Hf2 & HF2).
    pose proof Hok as (Hp & _).
    assert (Hsz : 0 < block_size s) by lia.
    set (n := Z.of_nat (length pairs)) in *.
    replace (Z.of_nat (length ((i8, q8) :: pairs))) with (n + 1)
      by (cbn [length]; lia).
    rewrite Hb1 in *.
    repeat split; try apply Hok2.
    + rewrite Hs2, Hs1, <- app_assoc; reflexivity.
    + exact Hb2.
    + rewrite Hp2, Hp1, Zplus_mod_idemp_l; f_equal; lia.
    + rewrite Hf2, Hf1, Hp1, <- Z.add_assoc; f_equal.
      replace (out_block_pos s + 2 * (n + 1))
        with (out_block_pos s + 2 + 2 * n) by lia.
      set (a := out_block_pos s + 2).
      rewrite (Z.div_mod a (block_size s)) at 3 by lia.
      rewrite <- Z.add_assoc, (Z.mul_comm (block_size s) (a / block_size s)).
      rewrite Z.div_add_l by lia; reflexivity.
    + intros HF; apply HF2, HF1, HF.
Qed.

End SinkStream.

(** * Whole runs of [gen] *)

Section Runs2.

Context {A : Arith} {P : Platform A}.

Lemma at_head_fields (arr : arrival) (j : nat) (st : state) :
  rng (at_head arr j st) = rng st /\ snk (at_head arr j st) = snk st /\
  emitted (at_head arr j st) = emitted st.
Proof.
  unfold at_head; destruct arr as [|j'|j' t]; auto.
  destruct (Nat.eqb j' j); auto.
Qed.

(** The output block has seen the emitted sample pairs, encoded, in the
    order of emission, and nothing else. *)
Lemma gen_loop_log (cfg : config) (arr : arrival) (s0 : sink)
  (tones : list tone_t) :
  forall (j : nat) (st : state),
    snk st = block_put_all (map encode_pair (emitted st)) s0 ->
    snk (gen_loop cfg arr j tones st) =
    block_put_all (map encode_pair (emitted (gen_loop cfg arr j tones st))) s0.
Proof.
  induction tones as [|tone rest IH]; intros j st H; cbn [gen_loop];
    [exact H|].
  destruct (at_head_fields arr j st) as (_ & Hs & He).
  assert (H' : snk (at_head arr j st) =
               block_put_all (map encode_pair (emitted (at_head arr j st))) s0)
    by (now rewrite Hs, He).
  destruct (us tone =? 0)%Z; [exact H'|].
  destruct (do_exit (at_head arr j st)); [exact H'|].
  apply IH.
  rewrite gen_tone_eq; cbn [snk emitted emit_all].
  rewrite H', map_app; unfold block_put_all; now rewrite fold_left_app.
Qed.

Lemma gen_sink_log (cfg : config) (rand_seed : Z) (content : list Z)
  (arr : arrival) (tones : list tone_t) :
  snk (gen cfg rand_seed content arr tones) =
  block_put_all
    (map encode_pair (emitted (gen cfg rand_seed content arr tones)))
    (new_sink (out_block_size cfg) content).
Proof. unfold gen; apply gen_loop_log; reflexivity. Qed.

Lemma concat_length_uniform (size : Z) (l : list (list Z)) :
  Forall (fun b => Z.of_nat (length b) = size) l ->
  Z.of_nat (length (concat l)) = size * Z.of_nat (length l).
Proof.
  induction 1 as [|b l Hb _ IH]; cbn [concat length]; [lia|].
  rewrite length_app; lia.
Qed.

Lemma gen_written_blocks (cfg : config) (rand_seed : Z)
  (content : list Z) (arr : arrival) (tones : list tone_t) :
  (0 < out_block_size cfg <= SIZE_MAX)%Z ->
  Z.even (out_block_size cfg) = true ->
  Z.of_nat (length content) = out_block_size cfg ->
  let run := gen cfg rand_seed content arr tones in
  let bytes := interleave (map encode_pair (emitted run)) in
  let n := Z.of_nat (length (emitted run)) in
  concat (fd_out (snk run)) =
    firstn (Z.to_nat (out_block_size cfg * (2 * n / out_block_size cfg)))
      bytes /\
  stream (snk run) = bytes /\
  out_block_pos (snk run) = ((2 * n) mod out_block_size cfg)%Z /\
  Z.of_nat (length (fd_out (snk run))) = (2 * n / out_block_size cfg)%Z.
Proof.
  intros Hs He Hc; cbv zeta.
  rewrite gen_sink_log.
  set (pairs :=
         map encode_pair (emitted (gen cfg rand_seed content arr tones))).
  pose proof (new_sink_ok _ content Hs He Hc) as Hok.
  destruct (block_put_all_stream pairs _ Hok) as (_ & Hst & _ & Hp & Hf & HF).
  cbn [new_sink block_size out_block_pos fd_out length] in Hp, Hf, HF.
  unfold stream at 2 in Hst; cbn [new_sink fd_out out_block_pos concat app
    Z.to_nat firstn] in Hst.
  assert (Hn : Z.of_nat (length pairs) =
               Z.of_nat
                 (length (emitted (gen cfg rand_seed content arr tones))))
    by (unfold pairs; now rewrite length_map).
  rewrite Hn in Hp, Hf; cbn [Z.of_nat Z.add] in Hp, Hf.
  repeat split; try assumption.
  rewrite <- Hst; unfold stream.
  specialize (HF (Forall_nil _)).
  apply concat_length_uniform in HF.
  rewrite <- Hf, <- HF, Nat2Z.id, firstn_app, Nat.sub_diag, firstn_all.
  cbn [firstn]; now rewrite app_nil_r.
Qed.

(** With an even block size, the bytes handed to [write] during a run are
    the encoded sample pairs in emission order, I before Q, cut at the last
    whole block: [gen] frees the block without writing its partly filled
    tail, so the final [2 N mod size] bytes of a run of [N] pairs never reach
    the destination. *)
Theorem written_is_whole_blocks (cfg : config) (rand_seed : Z)
  (content : list Z) (arr : arrival) (tones : list tone_t) :
  (0 < out_block_size cfg <= SIZE_MAX)%Z ->
  Z.even (out_block_size cfg) = true ->
  Z.of_nat (length content) = out_block_size cfg ->
  let run := gen cfg rand_seed content arr tones in
  let bytes := interleave (map encode_pair (emitted run)) in
  let n := Z.of_nat (length (emitted run)) in
  concat (fd_out (snk run)) =
    firstn (Z.to_nat (out_block_size cfg * (2 * n / out_block_size cfg)))
      bytes /\
  stream (snk run) = bytes /\
  out_block_pos (snk run) = ((2 * n) mod out_block_size cfg)%Z /\
  Z.of_nat (length (fd_out (snk run))) = (2 * n / out_block_size cfg)%Z.
Proof. apply gen_written_blocks. Qed.

(** With an even block size no run stores a byte outside the block, and the
    cursor ends below the block size. *)
Theorem even_block_never_overruns (cfg : config) (rand_seed : Z)
  (content : list Z) (arr : arrival) (tones : list tone_t) :
  (0 < out_block_size cfg <= SIZE_MAX)%Z ->
  Z.even (out_block_size cfg) = true ->
  Z.of_nat (length content) = out_block_size cfg ->
  let run := gen cfg rand_seed content arr tones in
  overrun (snk run) = false /\
  (0 <= out_block_pos (snk run) < out_block_size cfg)%Z /\
  length (out_block (snk run)) = length content.
Proof.
  intros Hs He Hc; cbv zeta.
  rewrite gen_sink_log.
  set (pairs :=
         map encode_pair (emitted (gen cfg rand_seed content arr tones))).
  pose proof (new_sink_ok _ content Hs He Hc) as Hok.
  destruct (block_put_all_ok pairs _ Hok) as ((Hp & _ & _ & _ & Hl) & Ho).
  destruct (block_put_all_stream pairs _ Hok) as (_ & _ & Hb & _).
  rewrite Hb in Hp, Hl; cbn [new_sink block_size overrun] in *.
  repeat split; try assumption; try lia.
Qed.

(** [gen] never looks past the first tone of duration 0. *)
Theorem tones_after_terminator_ignored (cfg : config) (rand_seed : Z)
  (content : list Z) (arr : arrival) (front back : list tone_t)
  (last : tone_t) :
  us last = 0%Z ->
  gen cfg rand_seed content arr (front ++ last :: back) =
  gen cfg rand_seed content arr (front ++ [last]).
Proof.
  intros Hz; unfold gen.
  generalize (initial cfg rand_seed content) as st, 0%nat as j.
  induction front as [|tone rest IH]; intros st j; cbn [app gen_loop].
  - now rewrite Hz.
  - destruct (us tone =? 0)%Z; [reflexivity|].
    destruct (do_exit (at_head arr j st)); [reflexivity|].
    apply IH.
Qed.

End Runs2.

(** * Totals, and what a signal can change *)

Section Totals.

Context {A : Arith} {P : Platform A}.

Lemma rng_after_add (n m : nat) :
  forall g : rand_state, rng_after g (n + m) = rng_after (rng_after g n) m.
Proof. induction n as [|n IH]; intros g; cbn; [reflexivity|apply IH]. Qed.

Lemma gen_loop_never (cfg : config) (tones : list tone_t) :
  forall (j : nat) (st : state),
    do_exit st = false ->
    length (emitted (gen_loop cfg Never j tones st)) =
      (length (emitted st) + total_samples cfg tones)%nat /\
    rng (gen_loop cfg Never j tones st) =
      rng_after (rng st) (total_samples cfg tones) /\
    do_exit (gen_loop cfg Never j tones st) = false.
Proof.
  unfold total_samples.
  induction tones as [|tone rest IH]; intros j st Hx;
    cbn [gen_loop at_head active map list_sum rng_after].
  - rewrite Nat.add_0_r; auto.
  - destruct (us tone =? 0)%Z; cbn [map list_sum rng_after].
    + rewrite Nat.add_0_r; auto.
    + rewrite Hx.
      destruct (IH (S j) (gen_tone cfg tone (within Never j) st))
        as (Hl & Hg & Hf).
      { rewrite gen_tone_eq; cbn [do_exit emit_all within hit].
        now rewrite Hx. }
      rewrite Hl, Hg, Hf, gen_tone_eq; cbn [emitted rng emit_all].
      change (list_sum (tone_samples cfg tone ::
                          map (tone_samples cfg) (active rest)))
        with (tone_samples cfg tone +
              list_sum (map (tone_samples cfg) (active rest)))%nat.
      rewrite length_app, tone_pairs_length, rng_after_add.
      repeat split; lia.
Qed.

(** An uncancelled run emits, for each tone in front of the terminator, that
    tone's sample count, and draws exactly two random numbers per sample
    pair, on the oscillator branch as on the noise branch. *)
Theorem run_totals (cfg : config) (rand_seed : Z) (content : list Z)
  (tones : list tone_t) :
  length (emitted (gen cfg rand_seed content Never tones)) =
    total_samples cfg tones /\
  rng (gen cfg rand_seed content Never tones) =
    rng_after (srand rand_seed) (total_samples cfg tones) /\
  do_exit (gen cfg rand_seed content Never tones) = false.
Proof.
  unfold gen.
  destruct (gen_loop_never cfg tones 0 (initial cfg rand_seed content) eq_refl)
    as (Hl & Hg & Hf).
  repeat split; assumption.
Qed.

Lemma gen_loop_extends (cfg : config) (arr : arrival) (tones : list tone_t) :
  forall (j : nat) (st : state),
    exists more : list (double * double),
      emitted (gen_loop cfg arr j tones st) = emitted st ++ more.
Proof.
  induction tones as [|tone rest IH]; intros j st; cbn [gen_loop].
  - exists []; now rewrite app_nil_r.
  - destruct (at_head_fields arr j st) as (_ & _ & He).
    destruct (us tone =? 0)%Z; [exists []; now rewrite app_nil_r|].
    destruct (do_exit (at_head arr j st)); [exists []; now rewrite app_nil_r|].
    destruct (IH (S j) (gen_tone cfg tone (within arr j) (at_head arr j st)))
      as (more & Hm).
    rewrite Hm, gen_tone_eq; cbn [emitted emit_all]; rewrite He, <- app_assoc.
    eexists; reflexivity.
Qed.

Lemma at_head_flag (arr : arrival) (j : nat) (st : state) :
  (do_exit st = true -> do_exit (at_head arr j st) = true) /\
  (do_exit (at_head arr j st) = false -> at_head arr j st = st).
Proof.
  unfold at_head; destruct arr as [|j'|j' t]; auto.
  destruct (Nat.eqb j' j); auto.
  split; [reflexivity|discriminate].
Qed.

Lemma gen_loop_flag_set (cfg : config) (arr : arrival) (j : nat)
  (tones : list tone_t) (st : state) :
  do_exit st = true ->
  emitted (gen_loop cfg arr j tones st) = emitted st.
Proof.
  intros Hx; destruct tones as [|tone rest]; cbn [gen_loop]; [reflexivity|].
  destruct (at_head_fields arr j st) as (_ & _ & He).
  destruct (at_head_flag arr j st) as (Hset & _).
  rewrite (Hset Hx); now destruct (us tone =? 0)%Z.
Qed.

Lemma gen_loop_prefix (cfg : config) (arr : arrival) (tones : list tone_t) :
  forall (j : nat) (st : state),
    do_exit st = false ->
    exists more : list (double * double),
      emitted (gen_loop cfg Never j tones st) =
      emitted (gen_loop cfg arr j tones st) ++ more.
Proof.
  induction tones as [|tone rest IH]; intros j st Hx;
    cbn [gen_loop at_head].
  - exists []; now rewrite app_nil_r.
  - destruct (at_head_fields arr j st) as (_ & _ & He).
    destruct (at_head_flag arr j st) as (_ & Hunset).
    destruct (us tone =? 0)%Z; [exists []; now rewrite He, app_nil_r|].
    rewrite Hx.
    destruct (do_exit (at_head arr j st)) eqn:Hxa.
    + rewrite He.
      destruct (gen_loop_extends cfg Never rest (S j)
                  (gen_tone cfg tone (within Never j) st)) as (more & Hm).
      rewrite Hm, gen_tone_eq; cbn [emitted emit_all]; rewrite <- app_assoc.
      eexists; reflexivity.
    + rewrite (Hunset eq_refl).
      change (within Never j) with (@None Z).
      destruct (hit (within arr j) 0 (tone_samples cfg tone)) eqn:Hh.
      * rewrite (gen_loop_flag_set cfg arr (S j) rest
                   (gen_tone cfg tone (within arr j) st))
          by (rewrite gen_tone_eq; cbn [do_exit emit_all];
              rewrite Hh; apply orb_true_r).
        destruct (gen_loop_extends cfg Never rest (S j)
                    (gen_tone cfg tone None st)) as (more & Hm).
        rewrite Hm, !gen_tone_eq; cbn [emitted emit_all].
        eexists; reflexivity.
      * replace (gen_tone cfg tone (within arr j) st)
          with (gen_tone cfg tone None st)
          by (rewrite !gen_tone_eq, Hh; reflexivity).
        apply IH.
        rewrite gen_tone_eq; cbn [do_exit emit_all hit]; now rewrite Hx.
Qed.

(** Whenever a signal arrives, the sample pairs of the cancelled run are an
    initial segment of those of the undisturbed run: a signal shortens the
    output and changes no sample. *)
Theorem cancelled_run_is_prefix (cfg : config) (rand_seed : Z)
  (content : list Z) (arr : arrival) (tones : list tone_t) :
  exists more : list (double * double),
    emitted (gen cfg rand_seed content Never tones) =
    emitted (gen cfg rand_seed content arr tones) ++ more.
Proof. unfold gen; apply gen_loop_prefix; reflexivity. Qed.

Lemma gen_loop_cut_before (cfg : config) (k : nat) (tones : list tone_t) :
  forall (j : nat) (st : state),
    (j <= k)%nat ->
    same_output
      (gen_loop cfg (BeforeTone k) j tones st)
      (gen_loop cfg Never j (firstn (k - j) tones ++ [terminator]) st).
Proof.
  induction tones as [|tone rest IH]; intros j st Hjk.
  - rewrite firstn_nil; cbn; apply same_output_refl.
  - destruct (Nat.eqb_spec k j) as [->|Hne].
    + rewrite Nat.sub_diag; cbn [firstn app gen_loop at_head].
      rewrite Nat.eqb_refl; cbn [do_exit sighandler].
      replace (us terminator =? 0)%Z with true by reflexivity.
      destruct (us tone =? 0)%Z; repeat split.
    + replace (k - j)%nat with (S (k - S j)) by lia.
      cbn [firstn app gen_loop at_head within].
      replace (Nat.eqb k j) with false by (symmetry; now apply Nat.eqb_neq).
      destruct (us tone =? 0)%Z; [apply same_output_refl|].
      destruct (do_exit st); [apply same_output_refl|].
      apply IH; lia.
Qed.

(** A signal that arrives between tones, just before the loop condition is
    evaluated for tone [k], leaves exactly the output of the first [k]
    tones. *)
Theorem cancellation_before_tone (cfg : config) (rand_seed : Z)
  (content : list Z) (tones : list tone_t) (k : nat) :
  let cut := gen cfg rand_seed content (BeforeTone k) tones in
  let whole :=
    gen cfg rand_seed content Never (firstn k tones ++ [terminator]) in
  emitted cut = emitted whole /\ snk cut = snk whole /\ rng cut = rng whole.
Proof.
  cbv zeta; unfold gen.
  pose proof (gen_loop_cut_before cfg k tones 0
                (initial cfg rand_seed content)) as H.
  rewrite Nat.sub_0_r in H.
  destruct H as (Hg & Hs & He); [lia|].
  repeat split; assumption.
Qed.

End Totals.

(** * The encoder: range and order *)

Section EncoderFacts.

(** Whatever the sample (out of range, infinite, not a number) and whatever
    the arithmetic, the encoder yields a byte. *)
Lemma encode_is_byte {A : Arith} (v : double) : 0 <= encode v <= 255.
Proof. unfold encode; rewrite bound_clamp; lia. Qed.

Lemma interleave_bytes {A : Arith} (pairs : list (double * double)) :
  Forall (fun b => 0 <= b <= 255) (interleave (map encode_pair pairs)).
Proof.
  induction pairs as [|[x y] pairs IH]; cbn; [constructor|].
  repeat constructor; try apply encode_is_byte; exact IH.
Qed.

(** With an even block size every byte handed to [write] is an encoded
    sample: nothing of the unspecified initial content of the block reaches
    the destination. *)
Theorem written_bytes_are_samples {A : Arith} {P : Platform A}
  (cfg : config) (rand_seed : Z) (content : list Z) (arr : arrival)
  (tones : list tone_t) :
  0 < out_block_size cfg <= SIZE_MAX ->
  Z.even (out_block_size cfg) = true ->
  Z.of_nat (length content) = out_block_size cfg ->
  Forall (fun b => 0 <= b <= 255)
    (concat (fd_out (snk (gen cfg rand_seed content arr tones)))).
Proof.
  intros Hs He Hc.
  destruct (gen_written_blocks cfg rand_seed content arr tones Hs He Hc)
    as (Hw & _).
  rewrite Hw.
  pose proof (interleave_bytes
                (emitted (gen cfg rand_seed content arr tones))) as H.
  match goal with
  | |- Forall _ (firstn ?k ?l) =>
      rewrite <- (firstn_skipn k l) in H; apply Forall_app in H; apply H
  end.
Qed.

Local Open Scope Q_scope.

Lemma trunc_monotone (p q : Q) : p <= q -> (Exact.trunc p <= Exact.trunc q)%Z.
Proof.
  intros Hpq.
  destruct (Qlt_le_dec p 0) as [Hp|Hp], (Qlt_le_dec q 0) as [Hq|Hq].
  - destruct (trunc_neg p Hp) as (_ & _ & H1), (trunc_neg q Hq) as (_ & H2 & _).
    assert (H : inject_Z (Exact.trunc p - 1) < inject_Z (Exact.trunc q))
      by (eapply Qlt_le_trans; [exact H1|eapply Qle_trans; eassumption]).
    apply inject_Z_lt_inv in H; lia.
  - destruct (trunc_neg p Hp) as (H1 & _), (trunc_nonneg q Hq) as (H2 & _); lia.
  - exfalso; apply (Qlt_irrefl 0).
    eapply Qle_lt_trans; [exact Hp|eapply Qle_lt_trans; eassumption].
  - destruct (trunc_nonneg p Hp) as (_ & H1 & _),
      (trunc_nonneg q Hq) as (_ & _ & H2).
    assert (H : inject_Z (Exact.trunc p) < inject_Z (Exact.trunc q + 1))
      by (eapply Qle_lt_trans; [exact H1|eapply Qle_lt_trans; eassumption]).
    apply inject_Z_lt_inv in H; lia.
Qed.

(** In exact arithmetic the encoder preserves order: a larger sample never
    gets a smaller byte (for samples whose scaled value fits an [int]). *)
Theorem encode_monotone (v w : Q) :
  inject_Z (- 2 ^ 31) < (v + 1.0) * 127.5 < inject_Z (2 ^ 31) ->
  inject_Z (- 2 ^ 31) < (w + 1.0) * 127.5 < inject_Z (2 ^ 31) ->
  v <= w ->
  (encode (A := Exact.arith) v <= encode (A := Exact.arith) w)%Z.
Proof.
  intros Hv Hw Hvw.
  change (encode (A := Exact.arith) v)
    with (uint8_t (bound (to_int (Arith := Exact.arith)
                            ((v + 1.0) * 127.5)%Q))).
  change (encode (A := Exact.arith) w)
    with (uint8_t (bound (to_int (Arith := Exact.arith)
                            ((w + 1.0) * 127.5)%Q))).
  rewrite !to_int_exact, !bound_clamp by assumption.
  assert (H : (v + 1.0) * 127.5 <= (w + 1.0) * 127.5) by lra.
  apply trunc_monotone in H; lia.
Qed.

End EncoderFacts.

(** * The block size kept by [main] *)

Section BlockSize.

Lemma checked_block_size_cases (requested : Z) :
  (checked_block_size requested = requested /\
   MINIMAL_BUF_LENGTH <= requested <= MAXIMAL_BUF_LENGTH) \/
  (checked_block_size requested = DEFAULT_BUF_LENGTH /\
   ~ MINIMAL_BUF_LENGTH <= requested <= MAXIMAL_BUF_LENGTH).
Proof.
  unfold checked_block_size, MINIMAL_BUF_LENGTH, MAXIMAL_BUF_LENGTH,
    DEFAULT_BUF_LENGTH.
  destruct (Z.ltb_spec requested 512), (Z.gtb_spec requested (256 * 16384));
    cbn [orb];
    first [left; split; [reflexivity|lia]|right; split; [reflexivity|lia]].
Qed.

(** Whatever size is requested, [main] runs [gen] with a size within the
    bounds: the request itself when it is within them, the default
    otherwise; checking twice changes nothing. *)
Theorem checked_block_size_in_bounds (requested : Z) :
  MINIMAL_BUF_LENGTH <= checked_block_size requested <= MAXIMAL_BUF_LENGTH /\
  checked_block_size (checked_block_size requested) =
    checked_block_size requested /\
  (checked_block_size requested = requested \/
   (checked_block_size requested = DEFAULT_BUF_LENGTH /\
    ~ MINIMAL_BUF_LENGTH <= requested <= MAXIMAL_BUF_LENGTH)).
Proof.
  destruct (checked_block_size_cases requested) as [(E & H)|(E & H)].
  - rewrite !E; split; [exact H|split; [reflexivity|now left]].
  - rewrite !E; split; [|split; [reflexivity|now right]].
    unfold DEFAULT_BUF_LENGTH, MINIMAL_BUF_LENGTH, MAXIMAL_BUF_LENGTH; lia.
Qed.

(** An even request, in or out of bounds, gives a run that never stores
    outside the block: the default that replaces a rejected size is even
    too. *)
Theorem even_request_never_overruns {A : Arith} {P : Platform A}
  (cfg : config) (requested : Z) (rand_seed : Z) (content : list Z)
  (arr : arrival) (tones : list tone_t) :
  Z.even requested = true ->
  out_block_size cfg = checked_block_size requested ->
  Z.of_nat (length content) = out_block_size cfg ->
  overrun (snk (gen cfg rand_seed content arr tones)) = false.
Proof.
  intros He Hc Hl.
  rewrite gen_sink_log.
  assert (Hok : sink_ok (new_sink (out_block_size cfg) content)).
  { apply new_sink_ok; [| |exact Hl]; rewrite Hc;
      destruct (checked_block_size_cases requested) as [(-> & H)|(-> & _)];
      unfold MINIMAL_BUF_LENGTH, MAXIMAL_BUF_LENGTH, DEFAULT_BUF_LENGTH,
        SIZE_MAX in *; try lia; try exact He; reflexivity. }
  destruct (block_put_all_ok
              (map encode_pair (emitted (gen cfg rand_seed content arr tones)))
              _ Hok) as (_ & Ho).
  exact Ho.
Qed.

End BlockSize.

(** * The envelope of any tone, in exact arithmetic *)

Section EnvelopeAny.

Local Open Scope Q_scope.

Lemma att_in_exact (t : Z) :
  (0 <= t)%Z ->
  att_in (A := Exact.arith) t == inject_Z (Z.min t att_steps) / 100.
Proof.
  intros Ht.
  destruct (Z.lt_ge_cases t att_steps) as [H|H].
  - rewrite att_in_ramp, Z.min_l by lia.
    cbn [lit dadd dmul ddiv of_integer Exact.arith]; unfold att_steps; field.
  - rewrite att_in_flat, Z.min_r by lia; reflexivity.
Qed.

Lemma att_out_exact (end_ t : Z) :
  (0 <= t < end_)%Z -> (end_ <= SIZE_MAX - att_steps)%Z ->
  att_out (A := Exact.arith) end_ t ==
  inject_Z (Z.min (end_ - t) att_steps) / 100.
Proof.
  intros Ht He.
  destruct (Z.lt_ge_cases end_ (t + att_steps)) as [H|H].
  - rewrite att_out_ramp, Z.min_l by lia.
    cbn [lit dadd dmul ddiv of_integer Exact.arith]; unfold att_steps; field.
  - rewrite att_out_flat, Z.min_r by (unfold att_steps, SIZE_MAX in *; lia).
    reflexivity.
Qed.

Lemma ramp_unit (k : Z) :
  (0 <= k)%Z -> 0 <= inject_Z (Z.min k att_steps) / 100 <= 1.
Proof.
  intros Hk; unfold att_steps.
  assert (H0 : inject_Z 0 <= inject_Z (Z.min k 100))
    by (rewrite <- Zle_Qle; lia).
  assert (H1 : inject_Z (Z.min k 100) <= inject_Z 100)
    by (rewrite <- Zle_Qle; lia).
  change (inject_Z 0) with 0 in H0; change (inject_Z 100) with 100 in H1.
  unfold Qdiv; change (/ 100) with (1 # 100); split; lra.
Qed.

(** For a tone of any length the two ramps are computed independently and
    multiplied: the factor at index [t] is
    [min (t, 100) / 100 * min (end_ - t, 100) / 100], between 0 and 1; when
    the tone has fewer than 200 samples the ramps overlap and the factor
    stays below 1 at every index. *)
Theorem envelope_any_length (end_ t : Z) :
  (0 <= t < end_)%Z ->
  (end_ <= SIZE_MAX - att_steps)%Z ->
  envelope (A := Exact.arith) end_ t ==
    inject_Z (Z.min t att_steps) / 100 *
    (inject_Z (Z.min (end_ - t) att_steps) / 100) /\
  0 <= envelope (A := Exact.arith) end_ t <= 1 /\
  ((end_ < 2 * att_steps)%Z -> envelope (A := Exact.arith) end_ t < 1).
Proof.
  intros Ht He.
  assert (E : envelope (A := Exact.arith) end_ t ==
              inject_Z (Z.min t att_steps) / 100 *
              (inject_Z (Z.min (end_ - t) att_steps) / 100)).
  { unfold envelope; cbn [dmul Exact.arith].
    now rewrite att_in_exact, att_out_exact by lia. }
  pose proof (ramp_unit t ltac:(lia)) as [Ha0 Ha1].
  pose proof (ramp_unit (end_ - t) ltac:(lia)) as [Hb0 Hb1].
  split; [exact E|].
  rewrite E.
  set (a := inject_Z (Z.min t att_steps) / 100) in *.
  set (b := inject_Z (Z.min (end_ - t) att_steps) / 100) in *.
  split; [split; nra|].
  intros Hshort.
  assert (Hlt : a < 1 \/ b < 1).
  { unfold a, b, att_steps in *.
    destruct (Z.lt_ge_cases t 100) as [H|H]; [left|right].
    - rewrite Z.min_l by lia.
      assert (Hq : inject_Z t < inject_Z 100) by (rewrite <- Zlt_Qlt; lia).
      change (inject_Z 100) with 100 in Hq.
      unfold Qdiv; change (/ 100) with (1 # 100); lra.
    - rewrite Z.min_l by lia.
      assert (Hq : inject_Z (end_ - t) < inject_Z 100)
        by (rewrite <- Zlt_Qlt; lia).
      change (inject_Z 100) with 100 in Hq.
      unfold Qdiv; change (/ 100) with (1 # 100); lra. }
  destruct Hlt; nra.
Qed.

(** The ramps are not symmetric: the first sample of every tone has factor
    0, the last sample of a tone of more than 100 samples has factor 1/100,
    not 0. *)
Theorem envelope_ends (end_ : Z) :
  (att_steps < end_ <= SIZE_MAX - att_steps)%Z ->
  envelope (A := Exact.arith) end_ 0 == 0 /\
  envelope (A := Exact.arith) end_ (end_ - 1) == 1 # 100.
Proof.
  intros He; unfold att_steps in He.
  split; unfold envelope; cbn [dmul Exact.arith];
    rewrite att_in_exact, att_out_exact by (unfold att_steps; lia);
    unfold att_steps.
  - rewrite Z.min_l by lia; change (inject_Z 0) with 0; field.
  - rewrite Z.min_r, Z.min_l by lia.
    replace (end_ - (end_ - 1))%Z with 1%Z by lia.
    reflexivity.
Qed.

End EnvelopeAny.

(** * Sample magnitudes, in exact arithmetic *)

Section Magnitudes.

#[local] Existing Instance Exact.arith.
Context {P : Platform Exact.arith}.
Local Open Scope Q_scope.

Lemma uniform_unit (g : rand_state) :
  (0 <= fst (rand g) <= RAND_MAX)%Z ->
  (0 < RAND_MAX)%Z ->
  0 <= uniform g <= 1.
Proof.
  intros [Hr0 Hr1] HM.
  unfold uniform; cbn [ddiv of_integer Exact.arith].
  assert (HMq : 0 < inject_Z RAND_MAX)
    by (change 0 with (inject_Z 0); now rewrite <- Zlt_Qlt).
  split.
  - apply Qle_shift_div_l; [exact HMq|].
    rewrite Qmult_0_l; change 0 with (inject_Z 0); now rewrite <- Zle_Qle.
  - apply Qle_shift_div_r; [exact HMq|].
    rewrite Qmult_1_l; now rewrite <- Zle_Qle.
Qed.

Lemma half_bound (u amp : Q) :
  0 <= u <= 1 -> 0 <= amp -> Qabs ((u - 0.5) * amp) <= amp * (1 # 2).
Proof. intros [H0 H1] Ha; apply Qabs_Qle_condition; split; nra. Qed.

Lemma noise_xy_bounded (amp : Q) (g : rand_state) :
  (forall h : rand_state, 0 <= fst (rand h) <= RAND_MAX)%Z ->
  (0 < RAND_MAX)%Z ->
  0 <= amp ->
  Qabs (fst (noise_xy amp g)) <= amp * (1 # 2) /\
  Qabs (snd (noise_xy amp g)) <= amp * (1 # 2).
Proof.
  intros Hr HM Ha.
  unfold noise_xy; cbn [fst snd lit dsub dmul Exact.arith].
  split; apply half_bound; try assumption; apply uniform_unit; auto.
Qed.

(** When [rand] keeps to [0 .. RAND_MAX], every sample of a noise-only tone
    lies within half the noise floor of zero, in both components; the bound
    is closed: a draw of [RAND_MAX] gives exactly [+ noise_floor / 2]. *)
Theorem noise_tone_bounded (amp : Q) (n : nat) (g : rand_state) :
  (forall h : rand_state, 0 <= fst (rand h) <= RAND_MAX)%Z ->
  (0 < RAND_MAX)%Z ->
  0 <= amp ->
  Forall
    (fun p => Qabs (fst p) <= amp * (1 # 2) /\ Qabs (snd p) <= amp * (1 # 2))
    (noise_pairs amp g n) /\
  (fst (rand g) = RAND_MAX -> fst (noise_xy amp g) == amp * (1 # 2)).
Proof.
  intros Hr HM Ha; split.
  - revert g; induction n as [|n IH]; intros g; cbn [noise_pairs];
      constructor; [apply noise_xy_bounded; assumption|apply IH].
  - intros Hmax.
    unfold noise_xy, uniform.
    cbn [fst lit dsub dmul ddiv of_integer Exact.arith].
    rewrite Hmax.
    assert (HMq : ~ inject_Z RAND_MAX == 0).
    { intros E.
      assert (H : 0 < inject_Z RAND_MAX)
        by (change 0 with (inject_Z 0); now rewrite <- Zlt_Qlt).
      rewrite E in H; exact (Qlt_irrefl 0 H). }
    field; exact HMq.
Qed.

Lemma carrier_bounded (cfg : config) (lut : lut_osc_t) (att : Q)
  (end_ t : Z) :
  (forall (l : lut_osc_t) (i : Z),
      Qabs (lut_oscc l i) <= 1 /\ Qabs (lut_oscs l i) <= 1) ->
  0 <= gain cfg -> 0 <= att ->
  (0 <= t < end_)%Z -> (end_ <= SIZE_MAX - att_steps)%Z ->
  Qabs (fst (carrier cfg lut att end_ t)) <= gain cfg * att /\
  Qabs (snd (carrier cfg lut att end_ t)) <= gain cfg * att.
Proof.
  intros Ho Hg Ha Ht He.
  destruct (Ho lut t) as [Hc Hs].
  apply Qabs_Qle_condition in Hc, Hs.
  pose proof (att_in_exact t ltac:(lia)) as Ei.
  pose proof (att_out_exact end_ t Ht He) as Eo.
  pose proof (ramp_unit t ltac:(lia)) as Ri.
  pose proof (ramp_unit (end_ - t) ltac:(lia)) as Rj.
  rewrite <- Ei in Ri; rewrite <- Eo in Rj.
  unfold carrier; cbn [fst snd dmul Exact.arith].
  set (c := lut_oscc lut t) in *; set (s := lut_oscs lut t) in *.
  set (a := att_in t) in *; set (b := att_out end_ t) in *.
  set (w := gain cfg) in *.
  clearbody c s a b w; cbn [double Exact.arith] in c, s, a, b, w.
  assert (Hw : 0 <= w * att) by nra.
  assert (Hab : 0 <= a * b <= 1) by (split; nra).
  assert (Hwab : 0 <= w * att * (a * b) <= w * att) by (split; nra).
  split; apply Qabs_Qle_condition.
  - setoid_replace (c * w * att * a * b) with (c * (w * att * (a * b))) by ring.
    split; nra.
  - setoid_replace (s * w * att * a * b) with (s * (w * att * (a * b))) by ring.
    split; nra.
Qed.

Lemma sine_pairs_bounded (cfg : config) (lut : lut_osc_t) (att : Q)
  (end_ : Z) (n : nat) :
  (forall h : rand_state, 0 <= fst (rand h) <= RAND_MAX)%Z ->
  (0 < RAND_MAX)%Z ->
  (forall (l : lut_osc_t) (i : Z),
      Qabs (lut_oscc l i) <= 1 /\ Qabs (lut_oscs l i) <= 1) ->
  0 <= gain cfg -> 0 <= att -> 0 <= noise_signal cfg ->
  (end_ <= SIZE_MAX - att_steps)%Z ->
  forall (t : Z) (g : rand_state),
    (0 <= t)%Z -> (t + Z.of_nat n <= end_)%Z ->
    Forall
      (fun p =>
         Qabs (fst p) <= gain cfg * att + noise_signal cfg * (1 # 2) /\
         Qabs (snd p) <= gain cfg * att + noise_signal cfg * (1 # 2))
      (map add_pair
         (combine (carriers cfg lut att end_ t n)
            (noise_pairs (noise_signal cfg) g n))).
Proof.
  intros Hr HM Ho Hg Ha Hn He.
  induction n as [|n IH]; intros t g Ht Hte;
    cbn [carriers noise_pairs combine map]; constructor.
  - destruct (carrier_bounded cfg lut att end_ t Ho Hg Ha) as [Hc Hs];
      [lia|exact He|].
    destruct (noise_xy_bounded (noise_signal cfg) g Hr HM Hn) as [Hx Hy].
    unfold add_pair; cbn [fst snd dadd Exact.arith].
    split; (eapply Qle_trans; [apply Qabs_triangle|]);
      apply Qplus_le_compat; assumption.
  - apply IH; lia.
Qed.

(** When [rand] keeps to [0 .. RAND_MAX], the oscillator to [-1 .. 1] and
    gain, tone level and noise amplitude are not negative, every sample of
    an oscillator tone lies within [gain * level + noise_signal / 2] of
    zero: the envelope never raises a sample. *)
Theorem sine_tone_bounded (cfg : config) (tone : tone_t) (g : rand_state) :
  (forall h : rand_state, 0 <= fst (rand h) <= RAND_MAX)%Z ->
  (0 < RAND_MAX)%Z ->
  (forall (l : lut_osc_t) (i : Z),
      Qabs (lut_oscc l i) <= 1 /\ Qabs (lut_oscs l i) <= 1) ->
  0 <= gain cfg -> 0 <= db_to_mag (db tone) -> 0 <= noise_signal cfg ->
  (0 <= sample_count cfg (size_t (us tone)) <= SIZE_MAX - att_steps)%Z ->
  (-24 <= db tone)%Z ->
  Forall
    (fun p =>
       Qabs (fst p) <=
         gain cfg * db_to_mag (db tone) + noise_signal cfg * (1 # 2) /\
       Qabs (snd p) <=
         gain cfg * db_to_mag (db tone) + noise_signal cfg * (1 # 2))
    (tone_pairs cfg tone g).
Proof.
  intros Hr HM Ho Hg Ha Hn He Hdb.
  unfold tone_pairs.
  replace (db tone <? -24)%Z with false by (symmetry; apply Z.ltb_ge, Hdb).
  apply sine_pairs_bounded; try assumption; try lia.
  unfold tone_samples; lia.
Qed.

End Magnitudes.

(** * The noise level option *)

Section NoiseLevelFacts.

Context {P : Platform B64.arith}.

Lemma nonneg_not_lt_zero (x : float) :
  PrimFloat.leb 0 x = true -> PrimFloat.ltb x 0 = false.
Proof.
  rewrite ltb_spec, leb_spec.
  change (Prim2SF 0) with (S754_zero false).
  destruct (Prim2SF x) as [s|s| |s m e]; try destruct s; cbn; congruence.
Qed.

(** [noise_pp_level] takes the decibel branch for arguments below zero only:
    an argument that is [>= 0] is a multiplier, scaled by
    [2 * sqrt (3/4)].  Unlike the gain option, zero is not 0 dB here: it
    gives amplitude 0, noise off. *)
Theorem noise_level_branches (level : float) :
  (PrimFloat.leb 0 level = true ->
   noise_pp_level level =
   PrimFloat.mul (PrimFloat.mul level 2)
     (PrimFloat.sqrt 0.75)) /\
  (PrimFloat.ltb level 0 = true ->
   noise_pp_level level =
   PrimFloat.mul
     (PrimFloat.mul
        (@pow B64.arith P (B64.of_Q 10.0)
           (PrimFloat.mul (PrimFloat.div 1 20) level)) 2)
     (PrimFloat.sqrt 0.75)) /\
  noise_pp_level 0 = 0%float.
Proof.
  assert (E : PrimFloat.sqrt
                (PrimFloat.div
                   (PrimFloat.mul (PrimFloat.div (B64.of_Q 1.0) (B64.of_Q 2.0))
                      (B64.of_Q 3.0)) (B64.of_Q 2.0)) =
              PrimFloat.sqrt 0.75) by (vm_compute; reflexivity).
  assert (E0 : B64.of_Z 0 = 0%float) by (vm_compute; reflexivity).
  assert (E2 : B64.of_Z 2 = 2%float) by (vm_compute; reflexivity).
  assert (E1 : B64.of_Q 1.0 = 1%float) by (vm_compute; reflexivity).
  assert (E20 : B64.of_Q 20.0 = 20%float) by (vm_compute; reflexivity).
  split; [|split].
  - intros H; unfold noise_pp_level.
    now rewrite E, E0, E2, (nonneg_not_lt_zero level H).
  - intros H; unfold noise_pp_level.
    now rewrite E, E0, E2, E1, E20, H.
  - vm_compute; reflexivity.
Qed.

End NoiseLevelFacts.

(** * Cancelled output, and ramp indices *)

Section CancelledOutput.

Context {A : Arith} {P : Platform A}.

Lemma interleave_length (pairs : list (Z * Z)) :
  length (interleave pairs) = (2 * length pairs)%nat.
Proof.
  induction pairs as [|p pairs IH]; cbn [interleave flat_map length app] in *;
    [reflexivity|].
  unfold interleave in IH; rewrite IH; lia.
Qed.

(** With an even block size, the bytes a cancelled run hands to [write] are
    an initial segment of those of the undisturbed run. *)
Theorem cancelled_output_is_prefix (cfg : config) (rand_seed : Z)
  (content : list Z) (arr : arrival) (tones : list tone_t) :
  0 < out_block_size cfg <= SIZE_MAX ->
  Z.even (out_block_size cfg) = true ->
  Z.of_nat (length content) = out_block_size cfg ->
  exists more : list Z,
    concat (fd_out (snk (gen cfg rand_seed content Never tones))) =
    concat (fd_out (snk (gen cfg rand_seed content arr tones))) ++ more.
Proof.
  intros Hs He Hc.
  destruct (gen_written_blocks cfg rand_seed content Never tones Hs He Hc)
    as (Hn & _).
  destruct (gen_written_blocks cfg rand_seed content arr tones Hs He Hc)
    as (Ha & _).
  destruct (gen_loop_prefix cfg arr tones 0 (initial cfg rand_seed content)
              eq_refl) as (more & Hm).
  fold (gen cfg rand_seed content Never tones) in Hm.
  fold (gen cfg rand_seed content arr tones) in Hm.
  set (Wn := concat (fd_out (snk (gen cfg rand_seed content Never tones))))
    in *.
  set (Wa := concat (fd_out (snk (gen cfg rand_seed content arr tones)))) in *.
  set (En := emitted (gen cfg rand_seed content Never tones)) in *.
  set (Ea := emitted (gen cfg rand_seed content arr tones)) in *.
  set (size := out_block_size cfg) in *.
  set (ka := Z.to_nat (size * (2 * Z.of_nat (length Ea) / size))) in *.
  set (kn := Z.to_nat (size * (2 * Z.of_nat (length En) / size))) in *.
  assert (Hka : (ka <= length (interleave (map encode_pair Ea)))%nat).
  { rewrite interleave_length, length_map; unfold ka.
    pose proof (Z.mul_div_le (2 * Z.of_nat (length Ea)) size ltac:(lia)).
    lia. }
  assert (Hkk : (ka <= kn)%nat).
  { unfold ka, kn; apply Z2Nat.inj_le.
    - apply Z.mul_nonneg_nonneg; [lia|apply Z.div_pos; lia].
    - apply Z.mul_nonneg_nonneg; [lia|apply Z.div_pos; lia].
    - apply Z.mul_le_mono_nonneg_l; [lia|].
      apply Z.div_le_mono; [lia|].
      rewrite Hm, length_app; lia. }
  exists (skipn ka Wn).
  assert (E : Wa = firstn ka Wn).
  { rewrite Hn, Ha, firstn_firstn, Nat.min_l by exact Hkk.
    rewrite Hm, map_app; unfold interleave; rewrite flat_map_app.
    fold (interleave (map encode_pair Ea)).
    rewrite firstn_app.
    replace (ka - length (interleave (map encode_pair Ea)))%nat with 0%nat
      by lia.
    cbn [firstn]; now rewrite app_nil_r. }
  rewrite E; symmetry; apply firstn_skipn.
Qed.

End CancelledOutput.

Section RampIndex.

(** In binary64 a sample count that the conversion to [size_t] defines is
    at most [2^64 - 2048], so for every sample index of the tone the sums
    and differences [add_sine] forms in [size_t], [t + att_steps] and
    [end_ - t], never wrap around. *)
Theorem ramp_index_never_wraps (cfg : config (A := B64.arith))
  (time_us end_ t : Z) :
  B64.trunc
    (PrimFloat.div (PrimFloat.mul (B64.of_Z time_us) (sample_rate cfg))
       (B64.of_Z 1000000)) = Some end_ ->
  0 <= end_ <= SIZE_MAX ->
  0 <= t < end_ ->
  sample_count cfg time_us = end_ /\
  size_t (t + att_steps) = t + att_steps /\
  size_t (end_ - t) = end_ - t.
Proof.
  intros Hc Hr Ht.
  assert (E : sample_count cfg time_us = end_).
  { unfold sample_count; cbn [to_size_t dmul ddiv of_integer B64.arith].
    rewrite Hc; unfold size_t_of_trunc.
    destruct Hr as [H0 H1]; apply Z.leb_le in H0, H1; now rewrite H0, H1. }
  pose proof (sample_count_b64_bound cfg time_us) as Hb.
  rewrite E in Hb.
  unfold SIZE_MAX, att_steps in *.
  split; [exact E|].
  split; apply size_t_id; unfold SIZE_MAX; lia.
Qed.

End RampIndex.

(** * Further concrete runs *)

Section MoreRuns.

#[local] Existing Instance Ref.platform.

Lemma cfg64_block :
  0 < out_block_size cfg64 <= SIZE_MAX /\
  Z.even (out_block_size cfg64) = true /\
  Z.of_nat (length (repeat 0 512)) = out_block_size cfg64.
Proof. repeat split; vm_compute; reflexivity || discriminate. Defined.

Lemma written_is_whole_blocks_witness :
  0 < out_block_size cfg64 <= SIZE_MAX /\
  Z.even (out_block_size cfg64) = true /\
  Z.of_nat (length (repeat 0 512)) = out_block_size cfg64 /\
  let run :=
    gen (P := Ref.platform B64.arith) cfg64 1 (repeat 0 512) Never timeline64 in
  let bytes := interleave (map encode_pair (emitted run)) in
  let n := Z.of_nat (length (emitted run)) in
  concat (fd_out (snk run)) =
    firstn (Z.to_nat (out_block_size cfg64 * (2 * n / out_block_size cfg64)))
      bytes /\
  stream (snk run) = bytes /\
  out_block_pos (snk run) = (2 * n) mod out_block_size cfg64 /\
  Z.of_nat (length (fd_out (snk run))) = 2 * n / out_block_size cfg64.
Proof.
  destruct cfg64_block as (H1 & H2 & H3).
  exact (conj H1 (conj H2 (conj H3
           (written_is_whole_blocks (P := Ref.platform B64.arith) cfg64 1
              (repeat 0 512) Never timeline64 H1 H2 H3)))).
Defined.

Lemma even_block_never_overruns_witness :
  0 < out_block_size cfg64 <= SIZE_MAX /\
  Z.even (out_block_size cfg64) = true /\
  Z.of_nat (length (repeat 0 512)) = out_block_size cfg64 /\
  let run :=
    gen (P := Ref.platform B64.arith) cfg64 1 (repeat 0 512) (DuringTone 0 17)
      timeline64 in
  overrun (snk run) = false /\
  0 <= out_block_pos (snk run) < out_block_size cfg64 /\
  length (out_block (snk run)) = length (repeat 0 512).
Proof.
  destruct cfg64_block as (H1 & H2 & H3).
  exact (conj H1 (conj H2 (conj H3
           (even_block_never_overruns (P := Ref.platform B64.arith) cfg64 1
              (repeat 0 512) (DuringTone 0 17) timeline64 H1 H2 H3)))).
Defined.

Lemma tones_after_terminator_ignored_witness :
  us (tone64 0 0 0) = 0 /\
  gen (P := Ref.platform B64.arith) cfg64 1 (repeat 0 512) Never
    ([tone64 0 300 0] ++ tone64 0 0 0 :: [tone64 0 5 (-30)]) =
  gen (P := Ref.platform B64.arith) cfg64 1 (repeat 0 512) Never
    ([tone64 0 300 0] ++ [tone64 0 0 0]).
Proof.
  exact (conj eq_refl
           (tones_after_terminator_ignored (P := Ref.platform B64.arith) cfg64
              1 (repeat 0 512) Never [tone64 0 300 0] [tone64 0 5 (-30)]
              (tone64 0 0 0) eq_refl)).
Defined.

Lemma written_bytes_are_samples_witness :
  0 < out_block_size cfg64 <= SIZE_MAX /\
  Z.even (out_block_size cfg64) = true /\
  Z.of_nat (length (repeat 0 512)) = out_block_size cfg64 /\
  Forall (fun b => 0 <= b <= 255)
    (concat
       (fd_out
          (snk
             (gen (P := Ref.platform B64.arith) cfg64 1 (repeat 0 512) Never
                timeline64)))).
Proof.
  destruct cfg64_block as (H1 & H2 & H3).
  exact (conj H1 (conj H2 (conj H3
           (written_bytes_are_samples (P := Ref.platform B64.arith) cfg64 1
              (repeat 0 512) Never timeline64 H1 H2 H3)))).
Defined.

Lemma cancelled_output_is_prefix_witness :
  0 < out_block_size cfg64 <= SIZE_MAX /\
  Z.even (out_block_size cfg64) = true /\
  Z.of_nat (length (repeat 0 512)) = out_block_size cfg64 /\
  exists more : list Z,
    concat
      (fd_out
         (snk
            (gen (P := Ref.platform B64.arith) cfg64 1 (repeat 0 512) Never
               timeline64))) =
    concat
      (fd_out
         (snk
            (gen (P := Ref.platform B64.arith) cfg64 1 (repeat 0 512)
               (DuringTone 0 17) timeline64))) ++ more.
Proof.
  destruct cfg64_block as (H1 & H2 & H3).
  exact (conj H1 (conj H2 (conj H3
           (cancelled_output_is_prefix (P := Ref.platform B64.arith) cfg64 1
              (repeat 0 512) (DuringTone 0 17) timeline64 H1 H2 H3)))).
Defined.

Lemma even_request_never_overruns_witness :
  Z.even 100 = true /\
  out_block_size
    (Build_config B64.arith (sample_rate cfg64) (noise_floor cfg64)
       (noise_signal cfg64) (gain cfg64) DEFAULT_BUF_LENGTH) =
    checked_block_size 100 /\
  Z.of_nat (length (repeat 0 (Z.to_nat DEFAULT_BUF_LENGTH))) =
    out_block_size
      (Build_config B64.arith (sample_rate cfg64) (noise_floor cfg64)
         (noise_signal cfg64) (gain cfg64) DEFAULT_BUF_LENGTH) /\
  overrun
    (snk
       (gen (P := Ref.platform B64.arith)
          (Build_config B64.arith (sample_rate cfg64) (noise_floor cfg64)
             (noise_signal cfg64) (gain cfg64) DEFAULT_BUF_LENGTH)
          1 (repeat 0 (Z.to_nat DEFAULT_BUF_LENGTH)) Never timeline64)) =
  false.
Proof.
  assert (H1 : Z.even 100 = true) by reflexivity.
  assert (H2 : out_block_size
                 (Build_config B64.arith (sample_rate cfg64)
                    (noise_floor cfg64) (noise_signal cfg64) (gain cfg64)
                    DEFAULT_BUF_LENGTH) = checked_block_size 100)
    by reflexivity.
  assert (H3 : Z.of_nat (length (repeat 0 (Z.to_nat DEFAULT_BUF_LENGTH))) =
               out_block_size
                 (Build_config B64.arith (sample_rate cfg64)
                    (noise_floor cfg64) (noise_signal cfg64) (gain cfg64)
                    DEFAULT_BUF_LENGTH))
    by (rewrite repeat_length; reflexivity).
  exact (conj H1 (conj H2 (conj H3
           (even_request_never_overruns (P := Ref.platform B64.arith) _ 100 1
              (repeat 0 (Z.to_nat DEFAULT_BUF_LENGTH)) Never timeline64
              H1 H2 H3)))).
Defined.

Lemma ramp_index_never_wraps_witness :
  B64.trunc
    (PrimFloat.div (PrimFloat.mul (B64.of_Z 300) (sample_rate cfg64))
       (B64.of_Z 1000000)) = Some 300 /\
  0 <= 300 <= SIZE_MAX /\
  0 <= 250 < 300 /\
  sample_count cfg64 300 = 300 /\
  size_t (250 + att_steps) = 250 + att_steps /\
  size_t (300 - 250) = 300 - 250.
Proof.
  assert (H1 : B64.trunc
                 (PrimFloat.div
                    (PrimFloat.mul (B64.of_Z 300) (sample_rate cfg64))
                    (B64.of_Z 1000000)) = Some 300)
    by (vm_compute; reflexivity).
  assert (H2 : 0 <= 300 <= SIZE_MAX) by (unfold SIZE_MAX; lia).
  assert (H3 : 0 <= 250 < 300) by lia.
  exact (conj H1 (conj H2 (conj H3
           (ramp_index_never_wraps cfg64 300 300 250 H1 H2 H3)))).
Defined.

Lemma noise_level_branches_witness :
  PrimFloat.leb 0 2 = true /\
  noise_pp_level (P := Ref.platform B64.arith) 2 =
    PrimFloat.mul (PrimFloat.mul 2 2) (PrimFloat.sqrt 0.75) /\
  noise_pp_level (P := Ref.platform B64.arith) 0 = 0%float.
Proof.
  assert (H : PrimFloat.leb 0 2 = true) by reflexivity.
  destruct (noise_level_branches (P := Ref.platform B64.arith) 2%float)
    as (Hlin & _ & Hz).
  exact (conj H (conj (Hlin H) Hz)).
Defined.

End MoreRuns.

Section ExactRuns.

#[local] Existing Instance Exact.arith.
#[local] Existing Instance Ref.platform.
Local Open Scope Q_scope.

Lemma encode_monotone_witness :
  inject_Z (- 2 ^ 31) < (-0.5 + 1.0) * 127.5 < inject_Z (2 ^ 31) /\
  inject_Z (- 2 ^ 31) < (0.5 + 1.0) * 127.5 < inject_Z (2 ^ 31) /\
  -0.5 <= 0.5 /\
  (encode (A := Exact.arith) (-0.5)%Q <= encode (A := Exact.arith) 0.5%Q)%Z.
Proof.
  assert (H1 : inject_Z (- 2 ^ 31) < (-0.5 + 1.0) * 127.5 < inject_Z (2 ^ 31))
    by (split; reflexivity).
  assert (H2 : inject_Z (- 2 ^ 31) < (0.5 + 1.0) * 127.5 < inject_Z (2 ^ 31))
    by (split; reflexivity).
  assert (H3 : -0.5 <= 0.5) by (vm_compute; discriminate).
  exact (conj H1 (conj H2 (conj H3 (encode_monotone (-0.5) 0.5 H1 H2 H3)))).
Defined.

Lemma envelope_any_length_witness :
  (0 <= 50 < 150)%Z /\
  (150 <= SIZE_MAX - att_steps)%Z /\
  envelope (A := Exact.arith) 150 50 ==
    inject_Z (Z.min 50 att_steps) / 100 *
    (inject_Z (Z.min (150 - 50) att_steps) / 100) /\
  0 <= envelope (A := Exact.arith) 150 50 <= 1 /\
  envelope (A := Exact.arith) 150 50 < 1.
Proof.
  assert (H1 : (0 <= 50 < 150)%Z) by lia.
  assert (H2 : (150 <= SIZE_MAX - att_steps)%Z)
    by (unfold SIZE_MAX, att_steps; lia).
  assert (H3 : (150 < 2 * att_steps)%Z) by (unfold att_steps; lia).
  destruct (envelope_any_length 150 50 H1 H2) as (E & B & S).
  exact (conj H1 (conj H2 (conj E (conj B (S H3))))).
Defined.

Lemma envelope_ends_witness :
  (att_steps < 300 <= SIZE_MAX - att_steps)%Z /\
  envelope (A := Exact.arith) 300 0 == 0 /\
  envelope (A := Exact.arith) 300 (300 - 1) == 1 # 100.
Proof.
  assert (H : (att_steps < 300 <= SIZE_MAX - att_steps)%Z)
    by (unfold SIZE_MAX, att_steps; lia).
  exact (conj H (envelope_ends 300 H)).
Defined.

Lemma lcg_rand_range (h : Z) : (0 <= fst (Ref.lcg_rand h) <= 32767)%Z.
Proof.
  unfold Ref.lcg_rand; cbn [fst].
  pose proof (Z.mod_pos_bound
                (((h * 1103515245 + 12345) mod 2 ^ 32) / 65536) 32768).
  lia.
Defined.

Lemma noise_tone_bounded_witness :
  (forall h : Z, 0 <= fst (Ref.lcg_rand h) <= 32767)%Z /\
  (0 < 32767)%Z /\
  0 <= 0.2 /\
  Forall
    (fun p => Qabs (fst p) <= 0.2 * (1 # 2) /\ Qabs (snd p) <= 0.2 * (1 # 2))
    (noise_pairs (P := Ref.platform Exact.arith) 0.2 2433918595%Z 3) /\
  fst (noise_xy (P := Ref.platform Exact.arith) 0.2 2433918595%Z) ==
    0.2 * (1 # 2).
Proof.
  assert (H2 : (0 < 32767)%Z) by lia.
  assert (H3 : 0 <= 0.2) by (vm_compute; discriminate).
  assert (H4 : fst (Ref.lcg_rand 2433918595) = 32767%Z)
    by (vm_compute; reflexivity).
  destruct (noise_tone_bounded (P := Ref.platform Exact.arith) 0.2 3
              2433918595%Z lcg_rand_range H2 H3) as (B & T).
  exact (conj lcg_rand_range (conj H2 (conj H3 (conj B (T H4))))).
Defined.

Lemma sine_tone_bounded_witness :
  (forall h : Z, 0 <= fst (Ref.lcg_rand h) <= 32767)%Z /\
  (0 < 32767)%Z /\
  0 <= gain cfgQ /\
  0 <= db_to_mag (Platform := Ref.platform Exact.arith) (db toneQ) /\
  0 <= noise_signal cfgQ /\
  (0 <= sample_count cfgQ (size_t (us toneQ)) <= SIZE_MAX - att_steps)%Z /\
  (-24 <= db toneQ)%Z /\
  Forall
    (fun p =>
       Qabs (fst p) <=
         gain cfgQ * db_to_mag (Platform := Ref.platform Exact.arith)
                       (db toneQ) +
         noise_signal cfgQ * (1 # 2) /\
       Qabs (snd p) <=
         gain cfgQ * db_to_mag (Platform := Ref.platform Exact.arith)
                       (db toneQ) +
         noise_signal cfgQ * (1 # 2))
    (tone_pairs (P := Ref.platform Exact.arith) cfgQ toneQ 1%Z).
Proof.
  assert (H2 : (0 < 32767)%Z) by lia.
  assert (Ho : forall (l : unit) (i : Z),
             Qabs (lut_oscc (Platform := Ref.platform Exact.arith) l i) <= 1 /\
             Qabs (lut_oscs (Platform := Ref.platform Exact.arith) l i) <= 1)
    by (intros l i; split; vm_compute; discriminate).
  assert (H3 : 0 <= gain cfgQ) by (vm_compute; discriminate).
  assert (H4 : 0 <= db_to_mag (Platform := Ref.platform Exact.arith)
                      (db toneQ)) by (vm_compute; discriminate).
  assert (H5 : 0 <= noise_signal cfgQ) by (vm_compute; discriminate).
  assert (H6 : (0 <= sample_count cfgQ (size_t (us toneQ)) <=
                SIZE_MAX - att_steps)%Z)
    by (vm_compute; split; discriminate).
  assert (H7 : (-24 <= db toneQ)%Z) by (vm_compute; discriminate).
  exact (conj lcg_rand_range (conj H2 (conj H3 (conj H4 (conj H5 (conj H6
           (conj H7
              (sine_tone_bounded (P := Ref.platform Exact.arith) cfgQ toneQ
                 1%Z lcg_rand_range H2 Ho H3 H4 H5 H6 H7)))))))).
Defined.

End ExactRuns.

(** * Blocks of odd size *)

Section OddBlocks.

Lemma odd_even_differ (p n : Z) :
  Z.even p = true -> Z.odd n = true -> p <> n.
Proof.
  intros Hp Hn E; subst; rewrite <- Z.negb_odd, Hn in Hp; discriminate.
Qed.

Lemma block_put_odd (i8 q8 : Z) (s : sink) (written : list (list Z)) :
  odd_inv s written ->
  out_block_pos s + 2 <= SIZE_MAX ->
  odd_inv (block_put i8 q8 s) written /\
  out_block_pos (block_put i8 q8 s) = out_block_pos s + 2 /\
  block_size (block_put i8 q8 s) = block_size s.
Proof.
  intros (Ho & He & H0 & Hl & Hov & Hf) Hmax.
  unfold block_put, put_byte; cbn [out_block out_block_pos block_size fd_out
    overrun].
  rewrite !store_length.
  unfold SIZE_MAX in Hmax.
  assert (H1 : size_t (out_block_pos s + 1) = out_block_pos s + 1)
    by (unfold size_t; apply Z.mod_small; lia).
  rewrite H1.
  assert (H2 : size_t (out_block_pos s + 1 + 1) = out_block_pos s + 2)
    by (unfold size_t; rewrite Z.mod_small; lia).
  rewrite H2.
  assert (He2 : Z.even (out_block_pos s + 2) = true)
    by (rewrite Z.even_add, He; reflexivity).
  destruct (Z.eqb_spec (out_block_pos s + 2) (block_size s)) as [E|_];
    [exfalso; exact (odd_even_differ _ _ He2 Ho E)|].
  unfold odd_inv; cbn [out_block out_block_pos block_size fd_out overrun].
  rewrite !store_length, Hl, Hov.
  repeat split; try assumption; lia.
Qed.

Lemma block_put_all_odd (pairs : list (Z * Z)) (written : list (list Z)) :
  forall s : sink,
    odd_inv s written ->
    out_block_pos s + 2 * Z.of_nat (length pairs) <= SIZE_MAX ->
    odd_inv (block_put_all pairs s) written /\
    out_block_pos (block_put_all pairs s) =
      out_block_pos s + 2 * Z.of_nat (length pairs) /\
    block_size (block_put_all pairs s) = block_size s.
Proof.
  induction pairs as [|[i8 q8] pairs IH]; intros s Hinv Hmax.
  - cbn; rewrite Z.add_0_r; auto.
  - cbn [block_put_all fold_left fst snd length] in *.
    fold (block_put_all pairs (block_put i8 q8 s)).
    destruct (block_put_odd i8 q8 s written Hinv) as (Hinv1 & Hp1 & Hb1);
      [lia|].
    destruct (IH _ Hinv1) as (Hinv2 & Hp2 & Hb2); [lia|].
    split; [exact Hinv2|split; [lia|congruence]].
Qed.

(** With an odd block size a run never hands anything to [write]: the
    cursor, always even, steps over the size, and once more than
    [size / 2] pairs are emitted the stores fall outside the block. *)
Theorem odd_block_never_writes {A : Arith} {P : Platform A}
  (cfg : config) (rand_seed : Z) (content : list Z) (arr : arrival)
  (tones : list tone_t) :
  Z.odd (out_block_size cfg) = true ->
  Z.of_nat (length content) = out_block_size cfg ->
  2 * Z.of_nat (length (emitted (gen cfg rand_seed content arr tones))) <=
    SIZE_MAX ->
  let run := gen cfg rand_seed content arr tones in
  fd_out (snk run) = [] /\
  out_block_pos (snk run) = 2 * Z.of_nat (length (emitted run)) /\
  overrun (snk run) =
    (out_block_size cfg <? 2 * Z.of_nat (length (emitted run))).
Proof.
  intros Ho Hc Hmax; cbv zeta.
  rewrite gen_sink_log.
  set (pairs :=
         map encode_pair (emitted (gen cfg rand_seed content arr tones))).
  assert (Hn : Z.of_nat (length pairs) =
               Z.of_nat
                 (length (emitted (gen cfg rand_seed content arr tones))))
    by (unfold pairs; now rewrite length_map).
  assert (Hinv : odd_inv (new_sink (out_block_size cfg) content) []).
  { unfold odd_inv, new_sink; cbn [out_block out_block_pos block_size fd_out
      overrun].
    repeat split; try assumption; try reflexivity; lia. }
  destruct (block_put_all_odd pairs [] _ Hinv) as ((_ & _ & _ & _ & Hov & Hf)
                                                   & Hp & Hb).
  { cbn [new_sink out_block_pos]; lia. }
  cbn [new_sink out_block_pos block_size] in Hp, Hb.
  rewrite Hov, Hb, Hp, Hn.
  split; [exact Hf|split; [lia|reflexivity]].
Qed.

End OddBlocks.

Section OddRuns.

Lemma odd_block_never_writes_witness :
  Z.odd (out_block_size cfg513) = true /\
  Z.of_nat (length (repeat 0 513)) = out_block_size cfg513 /\
  2 * Z.of_nat
        (length
           (emitted
              (gen (P := Ref.platform B64.arith) cfg513 1 (repeat 0 513) Never
                 timeline64))) <= SIZE_MAX /\
  let run :=
    gen (P := Ref.platform B64.arith) cfg513 1 (repeat 0 513) Never
      timeline64 in
  fd_out (snk run) = [] /\
  out_block_pos (snk run) = 2 * Z.of_nat (length (emitted run)) /\
  overrun (snk run) =
    (out_block_size cfg513 <? 2 * Z.of_nat (length (emitted run))).
Proof.
  assert (H1 : Z.odd (out_block_size cfg513) = true) by reflexivity.
  assert (H2 : Z.of_nat (length (repeat 0 513)) = out_block_size cfg513)
    by (vm_compute; reflexivity).
  assert (H3 : 2 * Z.of_nat
                     (length
                        (emitted
                           (gen (P := Ref.platform B64.arith) cfg513 1
                              (repeat 0 513) Never timeline64))) <= SIZE_MAX)
    by (vm_compute; discriminate).
  exact (conj H1 (conj H2 (conj H3
           (odd_block_never_writes (P := Ref.platform B64.arith) cfg513 1
              (repeat 0 513) Never timeline64 H1 H2 H3)))).
Defined.

(** 305 sample pairs into a block of 513 bytes: nothing written, the cursor
    at 610, stores outside the block. *)
Example odd_block_run :
  let run :=
    gen (P := Ref.platform B64.arith) cfg513 1 (repeat 0 513) Never
      timeline64 in
  fd_out (snk run) = [] /\ out_block_pos (snk run) = 610 /\
  overrun (snk run) = true.
Proof. vm_compute; repeat split. Qed.

End OddRuns.


(** * A signal during a tone *)

Section Cancellation.

Context {A : Arith} {P : Platform A}.

Lemma timeline_pairs_length (cfg : config) (tones : list tone_t) :
  forall g : rand_state,
    length (timeline_pairs cfg g tones) =
    list_sum (map (tone_samples cfg) tones).
Proof.
  induction tones as [|tone rest IH]; intros g; cbn [timeline_pairs map];
    [reflexivity|].
  rewrite length_app, tone_pairs_length, IH; reflexivity.
Qed.

(** A run in which the signal falls into tone [k]: every tone up to and
    including [k] is synthesised in full, then the loop stops. *)
Lemma gen_loop_during (cfg : config) (k : nat) (t : Z)
  (tones : list tone_t) :
  forall (j : nat) (st : state),
    (j <= k)%nat ->
    do_exit st = false ->
    Forall (fun tn : tone_t => us tn <> 0) (firstn (S (k - j)) tones) ->
    (forall tone : tone_t,
        nth_error tones (k - j) = Some tone ->
        hit (Some t) 0 (tone_samples cfg tone) = true) ->
    (k - j < length tones)%nat ->
    emitted (gen_loop cfg (DuringTone k t) j tones st) =
      emitted st ++ timeline_pairs cfg (rng st) (firstn (S (k - j)) tones) /\
    do_exit (gen_loop cfg (DuringTone k t) j tones st) = true.
Proof.
  induction tones as [|tone rest IH]; intros j st Hjk Hx Hus Hhit Hlen;
    [cbn in Hlen; lia|].
  cbn [firstn] in Hus.
  pose proof (Forall_inv Hus) as Hnz; apply Z.eqb_neq in Hnz.
  pose proof (Forall_inv_tail Hus) as Hrest.
  cbn [gen_loop at_head within firstn timeline_pairs].
  rewrite Hnz, Hx.
  destruct (Nat.eqb_spec k j) as [->|Hne].
  - rewrite Nat.sub_diag in *; cbn [firstn timeline_pairs].
    rewrite gen_loop_stops.
    + rewrite gen_tone_eq; cbn [emitted do_exit emit_all].
      rewrite (Hhit tone eq_refl), app_nil_r, Hx; split; reflexivity.
    + rewrite gen_tone_eq; cbn [do_exit emit_all].
      rewrite (Hhit tone eq_refl); apply orb_true_r.
  - replace (k - j)%nat with (S (k - S j)) in * by lia.
    destruct (IH (S j) (gen_tone cfg tone None st)) as (He & Hf).
    + lia.
    + rewrite gen_tone_eq; cbn [do_exit emit_all hit]; now rewrite Hx.
    + exact Hrest.
    + intros tn Hn; apply Hhit; exact Hn.
    + cbn [length] in Hlen; lia.
    + rewrite He, Hf, gen_tone_eq; cbn [emitted rng emit_all].
      rewrite <- app_assoc; split; reflexivity.
Qed.

(** C7.  The cancellation flag is read by the loop condition of [gen] only.
    A signal that arrives before the first tone is processed leaves no
    sample pair and an untouched output block.  A signal that arrives during
    tone [k] (counted from 0, just before its sample [t]), the loop having
    reached that tone, leaves exactly the sample pairs of the tones 0 to [k],
    each tone complete: their number is the sum of the sample counts of
    these tones, the tone in progress is finished, no later tone is
    synthesised.  The output block has received every one of these pairs,
    the flag is set, and the output is that of an undisturbed run over the
    timeline cut after tone [k]. *)
Theorem cancellation_between_tones (cfg : config) (rand_seed : Z)
  (content : list Z) (tones : list tone_t) :
  emitted (gen cfg rand_seed content (BeforeTone 0) tones) = [] /\
  snk (gen cfg rand_seed content (BeforeTone 0) tones) =
    new_sink (out_block_size cfg) content /\
  forall (k : nat) (t : Z) (tone : tone_t),
    nth_error tones k = Some tone ->
    Forall (fun tn : tone_t => us tn <> 0) (firstn (S k) tones) ->
    0 <= t < sample_count cfg (size_t (us tone)) ->
    let cut := gen cfg rand_seed content (DuringTone k t) tones in
    let played := firstn (S k) tones in
    emitted cut = timeline_pairs cfg (srand rand_seed) played /\
    length (emitted cut) = list_sum (map (tone_samples cfg) played) /\
    snk cut =
      block_put_all (map encode_pair (timeline_pairs cfg (srand rand_seed)
                                        played))
        (new_sink (out_block_size cfg) content) /\
    do_exit cut = true /\
    same_output cut
      (gen cfg rand_seed content Never (played ++ [terminator])).
Proof.
  split; [|split].
  - unfold gen; destruct tones as [|tn rest]; [reflexivity|].
    cbn [gen_loop at_head Nat.eqb].
    now destruct (us tn =? 0).
  - unfold gen; destruct tones as [|tn rest]; [reflexivity|].
    cbn [gen_loop at_head Nat.eqb].
    now destruct (us tn =? 0).
  - intros k t tone Hk Hus Ht; cbv zeta.
    assert (Hhit : forall tn : tone_t,
               nth_error tones (k - 0) = Some tn ->
               hit (Some t) 0 (tone_samples cfg tn) = true).
    { rewrite Nat.sub_0_r; intros tn Hn; rewrite Hk in Hn; injection Hn as <-.
      unfold hit, tone_samples.
      apply andb_true_iff; split; [apply Z.leb_le|apply Z.ltb_lt]; lia. }
    assert (Hlen : (k - 0 < length tones)%nat).
    { rewrite Nat.sub_0_r; apply nth_error_Some; rewrite Hk; discriminate. }
    destruct (gen_loop_during cfg k t tones 0 (initial cfg rand_seed content))
      as (He & Hf);
      [lia|reflexivity|now rewrite Nat.sub_0_r|exact Hhit|exact Hlen|].
    rewrite Nat.sub_0_r in He; cbn [emitted rng initial app] in He.
    fold (gen cfg rand_seed content (DuringTone k t) tones) in He, Hf.
    split; [exact He|].
    split; [rewrite He; apply timeline_pairs_length|].
    split; [rewrite <- He; apply gen_sink_log|].
    split; [exact Hf|].
    pose proof (gen_loop_cut cfg k t tones 0 (initial cfg rand_seed content))
      as Hc.
    rewrite Nat.sub_0_r in Hc.
    apply Hc; [lia|rewrite Nat.sub_0_r in Hhit; exact Hhit].
Qed.

End Cancellation.

(** * The sample count of a tone *)

Section Truncation.

Local Open Scope Q_scope.

Lemma trunc_opp (q : Q) : Exact.trunc (- q) = (- Exact.trunc q)%Z.
Proof.
  destruct q as [n d]; unfold Exact.trunc, Qopp; cbn [Qnum Qden].
  apply Z.quot_opp_l; discriminate.
Qed.

Lemma trunc_ceiling (q : Q) : q <= 0 -> Exact.trunc q = Qceiling q.
Proof.
  intros H; unfold Qceiling.
  rewrite <- trunc_floor by lra.
  rewrite trunc_opp; lia.
Qed.

(** Truncation depends on the number only, not on how the fraction is
    written. *)
Lemma trunc_comp (p q : Q) : p == q -> Exact.trunc p = Exact.trunc q.
Proof.
  intros E; destruct (Qlt_le_dec p 0) as [Hn|Hp].
  - rewrite !trunc_ceiling by lra.
    unfold Qceiling; now rewrite E.
  - rewrite !trunc_floor by lra.
    now rewrite E.
Qed.

Lemma trunc_inject_Z (z : Z) : Exact.trunc (inject_Z z) = z.
Proof. unfold Exact.trunc; cbn [inject_Z Qnum Qden]; apply Z.quot_1_r. Qed.

(** The integral part of a double is the truncation of its value. *)
Lemma trunc_value64 (f : float) :
  B64.trunc f = option_map Exact.trunc (value64 f).
Proof.
  unfold B64.trunc, value64.
  destruct (Prim2SF f) as [s|s| |s m e]; cbn [option_map]; try reflexivity.
  f_equal.
  destruct (Z.leb_spec 0 e) as [He|He].
  - destruct s; [rewrite trunc_opp|]; now rewrite trunc_inject_Z.
  - assert (E : Exact.trunc (Qred (Z.pos m # 2 ^ Z.to_pos (- e))) =
                (Z.pos m / 2 ^ (- e))%Z).
    { rewrite (trunc_comp _ _ (Qred_correct _)).
      unfold Exact.trunc; cbn [Qnum Qden].
      rewrite Pos2Z.inj_pow, Z2Pos.id by lia.
      apply Z.quot_div_nonneg; [lia|].
      apply Z.pow_pos_nonneg; lia. }
    destruct s; [rewrite trunc_opp|]; now rewrite E.
Qed.

(** Where the value is non-negative and its floor fits [size_t], the
    conversion of a double to [size_t] is the floor of its value. *)
Lemma to_size_t_value64 (f : float) (q : Q) :
  value64 f = Some q ->
  0 <= q ->
  (Qfloor q <= SIZE_MAX)%Z ->
  to_size_t (Arith := B64.arith) f = Qfloor q.
Proof.
  intros Hv H0 Hmax; cbn [to_size_t B64.arith].
  rewrite trunc_value64, Hv; cbn [option_map size_t_of_trunc].
  rewrite trunc_floor by exact H0.
  assert (H : (0 <= Qfloor q)%Z)
    by (change 0%Z with (Qfloor 0); apply Qfloor_resp_le, H0).
  apply Z.leb_le in H, Hmax; now rewrite H, Hmax.
Qed.

End Truncation.

Section SampleCount.

Local Open Scope Q_scope.

(** C1, as amended.  A tone event of duration [us > 0] makes the engine emit
    exactly as many sample pairs as the conversion
    [(size_t)(us * sample_rate / 1000000)] yields, whatever its frequency
    and level, on the noise-only branch as on the oscillator branch, and
    whether or not a signal arrives during the tone; every pair goes through
    [signal_out] into the output block.  In exact arithmetic that number is
    [floor (us * sample_rate / 1000000)].  In binary64, the arithmetic of
    the program, it is the floor of the value of the double that the product
    and the quotient, each rounded to nearest, leave. *)
Theorem tone_emits_sample_count :
  (forall (P : Platform Exact.arith) (cfg : config (A := Exact.arith))
          (tone : tone_t (A := Exact.arith)) (sig : option Z)
          (st : state (A := Exact.arith)),
      (0 < us tone <= SIZE_MAX)%Z ->
      0 <= sample_rate cfg ->
      (Qfloor (inject_Z (us tone) * sample_rate cfg / 1000000) <=
       SIZE_MAX)%Z ->
      exists pairs : list (Q * Q),
        Z.of_nat (length pairs) =
          Qfloor (inject_Z (us tone) * sample_rate cfg / 1000000) /\
        emitted (gen_tone cfg tone sig st) = emitted st ++ pairs /\
        snk (gen_tone cfg tone sig st) =
          block_put_all (map (encode_pair (A := Exact.arith)) pairs)
            (snk st)) /\
  (forall (P : Platform B64.arith) (cfg : config (A := B64.arith))
          (tone : tone_t (A := B64.arith)) (sig : option Z)
          (st : state (A := B64.arith)) (q : Q),
      (0 < us tone <= SIZE_MAX)%Z ->
      value64
        (PrimFloat.div
           (PrimFloat.mul (B64.of_Z (us tone)) (sample_rate cfg))
           (B64.of_Z 1000000)) = Some q ->
      0 <= q ->
      (Qfloor q <= SIZE_MAX)%Z ->
      exists pairs : list (float * float),
        Z.of_nat (length pairs) = Qfloor q /\
        emitted (gen_tone cfg tone sig st) = emitted st ++ pairs /\
        snk (gen_tone cfg tone sig st) =
          block_put_all (map (encode_pair (A := B64.arith)) pairs)
            (snk st)).
Proof.
  split.
  - intros P cfg tone sig st Hus Hr Hmax.
    assert (H0 : 0 <= inject_Z (us tone) * sample_rate cfg / 1000000).
    { assert (0 <= inject_Z (us tone))
        by (change 0 with (inject_Z 0); rewrite <- Zle_Qle; lia).
      unfold Qdiv; change (/ 1000000) with (1 # 1000000); nra. }
    assert (H1 : (0 <= Qfloor (inject_Z (us tone) * sample_rate cfg /
                               1000000))%Z)
      by (change 0%Z with (Qfloor 0); apply Qfloor_resp_le, H0).
    exists (tone_pairs cfg tone (rng st)).
    split; [|rewrite gen_tone_eq; split; reflexivity].
    transitivity (Z.of_nat (tone_samples cfg tone));
      [f_equal;
       exact (tone_pairs_length (A := Exact.arith) cfg tone (rng st))|].
    unfold tone_samples.
    rewrite size_t_id by lia.
    rewrite sample_count_floor by assumption.
    apply Z2Nat.id, H1.
  - intros P cfg tone sig st q Hus Hv H0 Hmax.
    assert (H1 : (0 <= Qfloor q)%Z)
      by (change 0%Z with (Qfloor 0); apply Qfloor_resp_le, H0).
    exists (tone_pairs cfg tone (rng st)).
    split; [|rewrite gen_tone_eq; split; reflexivity].
    transitivity (Z.of_nat (tone_samples cfg tone));
      [f_equal;
       exact (tone_pairs_length (A := B64.arith) cfg tone (rng st))|].
    unfold tone_samples, sample_count.
    rewrite size_t_id by lia.
    cbn [dmul ddiv of_integer B64.arith].
    rewrite (to_size_t_value64 _ q Hv H0 Hmax).
    apply Z2Nat.id, H1.
Qed.

End SampleCount.

(** * Runs that show the rounding, the cancellation and the clock *)

Section RoundedRuns.

#[local] Existing Instance B64.arith.
#[local] Existing Instance Ref.platform.

(** C1, as stated, fails in binary64.  With a sample rate of 9999999 Hz a
    tone of 901000001 us has 9009999108 whole samples, since
    901000001 * 9999999 / 1000000 = 9009999108.999999; the product is not
    a double, the quotient of the rounded product rounds to 9009999109, and
    the engine emits 9009999109 pairs. *)
Lemma sample_count_is_not_floor :
  value64 (sample_rate cfg10M) = Some 9999999%Q /\
  us tone901 = 901000001 /\
  Qfloor (901000001 * 9999999 / 1000000)%Q = 9009999108 /\
  sample_count cfg10M (us tone901) = 9009999109 /\
  Z.of_nat (length (emitted (gen_tone cfg10M tone901 None start64))) =
    9009999109.
Proof.
  assert (E : sample_count cfg10M (size_t (us tone901)) = 9009999109)
    by (vm_compute; reflexivity).
  split; [vm_compute; reflexivity|].
  split; [reflexivity|].
  split; [vm_compute; reflexivity|].
  split; [vm_compute; reflexivity|].
  rewrite gen_tone_eq; cbn [emitted emit_all start64 initial app].
  rewrite (tone_pairs_length (A := B64.arith)).
  unfold tone_samples; rewrite E.
  apply Z2Nat.id; lia.
Qed.

Lemma tone_emits_sample_count_witness :
  ((0 < us toneQ <= SIZE_MAX) /\
   (0 <= sample_rate cfgQ)%Q /\
   (Qfloor (inject_Z (us toneQ) * sample_rate cfgQ / 1000000)%Q <=
    SIZE_MAX) /\
   exists pairs : list (Q * Q),
     Z.of_nat (length pairs) =
       Qfloor (inject_Z (us toneQ) * sample_rate cfgQ / 1000000)%Q /\
     emitted
       (gen_tone cfgQ toneQ None
          (initial (P := Ref.platform Exact.arith) cfgQ 1 (repeat 0 512))) =
       [] ++ pairs /\
     snk
       (gen_tone cfgQ toneQ None
          (initial (P := Ref.platform Exact.arith) cfgQ 1 (repeat 0 512))) =
       block_put_all (map (encode_pair (A := Exact.arith)) pairs)
         (new_sink 512 (repeat 0 512))) /\
  ((0 < us (tone64 0 1000 0) <= SIZE_MAX) /\
   value64
     (PrimFloat.div
        (PrimFloat.mul (B64.of_Z (us (tone64 0 1000 0))) (sample_rate cfg64))
        (B64.of_Z 1000000)) = Some 1000%Q /\
   (0 <= 1000)%Q /\
   (Qfloor 1000 <= SIZE_MAX) /\
   exists pairs : list (float * float),
     Z.of_nat (length pairs) = Qfloor 1000 /\
     emitted (gen_tone cfg64 (tone64 0 1000 0) None start64) =
       emitted start64 ++ pairs /\
     snk (gen_tone cfg64 (tone64 0 1000 0) None start64) =
       block_put_all (map (encode_pair (A := B64.arith)) pairs)
         (snk start64)).
Proof.
  destruct tone_emits_sample_count as [HE HB].
  split.
  - assert (H1 : 0 < us toneQ <= SIZE_MAX) by (unfold SIZE_MAX; cbn; lia).
    assert (H2 : (0 <= sample_rate cfgQ)%Q) by (vm_compute; discriminate).
    assert (H3 : Qfloor (inject_Z (us toneQ) * sample_rate cfgQ / 1000000)%Q <=
                 SIZE_MAX) by (vm_compute; discriminate).
    exact (conj H1 (conj H2 (conj H3
             (HE (Ref.platform Exact.arith) cfgQ toneQ None
                (initial (P := Ref.platform Exact.arith) cfgQ 1
                   (repeat 0 512)) H1 H2 H3)))).
  - assert (H1 : 0 < us (tone64 0 1000 0) <= SIZE_MAX)
      by (unfold SIZE_MAX; cbn; lia).
    assert (H2 : value64
                   (PrimFloat.div
                      (PrimFloat.mul (B64.of_Z (us (tone64 0 1000 0)))
                         (sample_rate cfg64))
                      (B64.of_Z 1000000)) = Some 1000%Q)
      by (vm_compute; reflexivity).
    assert (H3 : (0 <= 1000)%Q) by (vm_compute; discriminate).
    assert (H4 : Qfloor 1000 <= SIZE_MAX) by (vm_compute; discriminate).
    exact (conj H1 (conj H2 (conj H3 (conj H4
             (HB (Ref.platform B64.arith) cfg64 (tone64 0 1000 0) None
                start64 1000%Q H1 H2 H3 H4))))).
Defined.

Lemma cancellation_between_tones_witness :
  nth_error timeline64 1 = Some (tone64 0 5 (-30)) /\
  Forall (fun tn : tone_t => us tn <> 0) (firstn 2 timeline64) /\
  0 <= 2 < sample_count cfg64 (size_t (us (tone64 0 5 (-30)))) /\
  let cut :=
    gen (P := Ref.platform B64.arith) cfg64 1 (repeat 0 512) (DuringTone 1 2)
      timeline64 in
  let played := firstn 2 timeline64 in
  emitted cut = timeline_pairs cfg64 (srand 1) played /\
  length (emitted cut) = list_sum (map (tone_samples cfg64) played) /\
  snk cut =
    block_put_all (map encode_pair (timeline_pairs cfg64 (srand 1) played))
      (new_sink (out_block_size cfg64) (repeat 0 512)) /\
  do_exit cut = true /\
  same_output cut
    (gen (P := Ref.platform B64.arith) cfg64 1 (repeat 0 512) Never
       (played ++ [terminator])).
Proof.
  assert (H1 : nth_error timeline64 1 = Some (tone64 0 5 (-30)))
    by reflexivity.
  assert (H2 : Forall (fun tn : tone_t => us tn <> 0) (firstn 2 timeline64))
    by (repeat constructor; cbn; lia).
  assert (E : sample_count cfg64 (size_t (us (tone64 0 5 (-30)))) = 5)
    by (vm_compute; reflexivity).
  assert (H3 : 0 <= 2 < sample_count cfg64 (size_t (us (tone64 0 5 (-30)))))
    by (rewrite E; lia).
  split; [exact H1|split; [exact H2|split; [exact H3|]]].
  destruct (cancellation_between_tones (P := Ref.platform B64.arith) cfg64 1
              (repeat 0 512) timeline64) as (_ & _ & H).
  exact (H 1%nat 2 (tone64 0 5 (-30)) H1 H2 H3).
Defined.

(** The run of [timeline64] cut during its second tone has emitted all 305
    sample pairs. *)
Example cancelled_run_305 :
  length
    (emitted
       (gen (P := Ref.platform B64.arith) cfg64 1 (repeat 0 512)
          (DuringTone 1 2) timeline64)) = 305%nat.
Proof. vm_compute; reflexivity. Qed.

End RoundedRuns.

(** * What reaches the destination *)

Section Destination.

Context {A : Arith} {P : Platform A} {S : Stdio A}.

(** With a file as destination, the bytes written to it depend neither on
    the content of the block [malloc] returned nor on the clock; with the
    standard output as destination, the same bytes are followed by the line
    of [printf]. *)
Lemma file_stream_reproducible (cfg : config) (rand_seed : Z)
  (arr : arrival) (tones : list tone_t) (content1 content2 : list Z)
  (start1 stop1 start2 stop2 : Z) :
  Z.of_nat (length content1) = out_block_size cfg ->
  Z.of_nat (length content2) = out_block_size cfg ->
  on_file (gen_output File cfg rand_seed content1 arr tones start1 stop1) =
  on_file (gen_output File cfg rand_seed content2 arr tones start2 stop2) /\
  on_stdout (gen_output Stdout cfg rand_seed content1 arr tones start1 stop1) =
  on_file (gen_output File cfg rand_seed content2 arr tones start2 stop2) ++
  elapsed_line start1 stop1.
Proof.
  intros H1 H2; cbn [gen_output on_file on_stdout].
  assert (H : st_rel (initial cfg rand_seed content1)
                (initial cfg rand_seed content2)).
  { split; [reflexivity|split; [reflexivity|split; [reflexivity|]]].
    apply new_sink_rel; lia. }
  apply (gen_loop_rel cfg arr tones 0) in H.
  destruct H as (_ & _ & _ & _ & _ & _ & Hf & _).
  unfold gen; rewrite Hf; split; reflexivity.
Qed.

End Destination.

Section StandardOutput.

#[local] Existing Instance B64.arith.
#[local] Existing Instance Ref.platform.

(** C8.  With ["-"] as file name the samples go to the standard output, and
    so does the line that [gen] prints with [printf] after the loop: the
    stream ends with the processor time the run took.  Two runs of the same
    seed, configuration, timeline and block content whose clock readings
    differ leave different streams on the standard output; they differ in
    the digits of the elapsed time only. *)
Theorem stdout_stream_not_reproducible :
  let run (stop : Z) :=
    gen_output (P := Ref.platform B64.arith) Stdout cfg64 1 (repeat 0 512)
      Never timeline64 0 stop in
  on_stdout (run 1000) =
    concat (fd_out (snk run64)) ++ elapsed_text ++
    [49; 46; 48; 48; 48; 48; 48; 48] ++ [newline] /\
  on_stdout (run 2000) =
    concat (fd_out (snk run64)) ++ elapsed_text ++
    [50; 46; 48; 48; 48; 48; 48; 48] ++ [newline] /\
  length (concat (fd_out (snk run64))) = 512%nat /\
  on_stdout (run 1000) <> on_stdout (run 2000).
Proof.
  cbv zeta.
  split; [vm_compute; reflexivity|].
  split; [vm_compute; reflexivity|].
  split; [vm_compute; reflexivity|].
  intros H.
  apply (f_equal (fun l => nth 532 l 0)) in H.
  vm_compute in H; discriminate.
Qed.

End StandardOutput.

(** * Rounding to binary64 *)

(** The operations of primitive floats are specified by [SFadd] and [SFmul]
    of the standard library, which round with [binary_round_aux]: the
    mantissa is shifted right until it fits, the bits shifted out decide
    between the two neighbours.  What follows bounds the result of that
    rounding: it never falls below a double that the exact value reaches,
    and it is within one unit in the last place of the exact value. *)

Section Shifts.

Lemma shr_1_m (r : shr_record) :
  0 <= shr_m r -> shr_m (shr_1 r) = shr_m r / 2.
Proof.
  destruct r as [m rb sb]; cbn [shr_m]; intros H.
  destruct m as [|p|p]; [reflexivity| |lia].
  destruct p as [p|p|]; cbn [shr_1 shr_m].
  - rewrite Pos2Z.inj_xI. apply Z.div_unique with (r := 1); lia.
  - rewrite Pos2Z.inj_xO. apply Z.div_unique with (r := 0); lia.
  - reflexivity.
Qed.

Lemma iter_shr_m (p : positive) :
  forall r : shr_record,
    0 <= shr_m r ->
    shr_m (iter_pos shr_1 p r) = shr_m r / 2 ^ Z.pos p.
Proof.
  assert (Hnn : forall r, 0 <= shr_m r -> 0 <= shr_m (shr_1 r)).
  { intros r H; rewrite shr_1_m by exact H; apply Z.div_pos; lia. }
  induction p as [p IH|p IH|]; intros r Hr; cbn [iter_pos].
  - assert (H1 : 0 <= shr_m (shr_1 r)) by auto.
    assert (H2 : 0 <= shr_m (iter_pos shr_1 p (shr_1 r)))
      by (rewrite IH by exact H1; apply Z.div_pos;
          [exact H1|apply Z.pow_pos_nonneg; lia]).
    rewrite IH by exact H2. rewrite IH by exact H1. rewrite shr_1_m by exact Hr.
    rewrite !Z.div_div by (try apply Z.pow_pos_nonneg; lia).
    f_equal.
    assert (E : Z.pos p~1 = 1 + Z.pos p + Z.pos p) by lia.
    rewrite E, !Z.pow_add_r by lia.
    change (2 ^ 1) with 2; ring.
  - assert (H2 : 0 <= shr_m (iter_pos shr_1 p r))
      by (rewrite IH by exact Hr; apply Z.div_pos;
          [exact Hr|apply Z.pow_pos_nonneg; lia]).
    rewrite IH by exact H2. rewrite IH by exact Hr.
    rewrite !Z.div_div by (try apply Z.pow_pos_nonneg; lia).
    f_equal.
    assert (E : Z.pos p~0 = Z.pos p + Z.pos p) by lia.
    rewrite E, Z.pow_add_r by lia; reflexivity.
  - rewrite shr_1_m by exact Hr; reflexivity.
Qed.

Lemma shr_m_of_loc (m : Z) (l : location) :
  shr_m (shr_record_of_loc m l) = m.
Proof. destruct l as [|[| |]]; reflexivity. Qed.

Lemma fexp_eq (e : Z) : fexp prec emax e = fexp64 e.
Proof. reflexivity. Qed.

Lemma shr_fexp_m (m e : Z) (l : location) :
  0 <= m ->
  shr_m (fst (shr_fexp prec emax m e l)) = m / 2 ^ shift64 m e /\
  snd (shr_fexp prec emax m e l) = e + shift64 m e.
Proof.
  intros Hm; unfold shr_fexp, shr, shift64; rewrite fexp_eq.
  destruct (fexp64 (Zdigits2 m + e) - e) as [|p|p] eqn:E; cbn [fst snd].
  - rewrite shr_m_of_loc, Z.max_id; cbn; rewrite Z.div_1_r; lia.
  - rewrite iter_shr_m by (now rewrite shr_m_of_loc).
    rewrite shr_m_of_loc, Z.max_r by lia; split; reflexivity.
  - rewrite shr_m_of_loc, Z.max_l by lia; cbn; rewrite Z.div_1_r; lia.
Qed.

Lemma rne_bounds (m : Z) (l : location) :
  m <= round_nearest_even m l <= m + 1.
Proof.
  unfold round_nearest_even; destruct l as [|[| |]]; try lia.
  destruct (Z.even m); lia.
Qed.

Lemma bra_unfold (sx : bool) (mx ex : Z) (lx : location) :
  0 <= mx ->
  exists m1' : Z,
    mx / 2 ^ shift64 mx ex <= m1' <= mx / 2 ^ shift64 mx ex + 1 /\
    (shift64 mx ex = 0 -> lx = loc_Exact -> m1' = mx) /\
    binary_round_aux prec emax sx mx ex lx =
    sf_of sx (m1' / 2 ^ shift64 m1' (ex + shift64 mx ex))
      (ex + shift64 mx ex + shift64 m1' (ex + shift64 mx ex)).
Proof.
  intros Hm; unfold binary_round_aux.
  destruct (shr_fexp_m mx ex lx Hm) as (H1 & H2).
  destruct (shr_fexp prec emax mx ex lx) as [mrs' e'] eqn:E1.
  cbn [fst snd] in H1, H2; subst e'.
  set (m1' := round_nearest_even (shr_m mrs') (loc_of_shr_record mrs')).
  assert (Hb : mx / 2 ^ shift64 mx ex <= m1' <= mx / 2 ^ shift64 mx ex + 1)
    by (rewrite <- H1; apply rne_bounds).
  assert (H0 : 0 <= mx / 2 ^ shift64 mx ex)
    by (apply Z.div_pos;
        [exact Hm|apply Z.pow_pos_nonneg; unfold shift64; lia]).
  assert (Hm1 : 0 <= m1') by lia.
  destruct (shr_fexp_m m1' (ex + shift64 mx ex) loc_Exact Hm1) as (H3 & H4).
  destruct (shr_fexp prec emax m1' (ex + shift64 mx ex) loc_Exact)
    as [mrs'' e''] eqn:E2.
  cbn [fst snd] in H3, H4; subst e''.
  exists m1'; split; [exact Hb|]; split.
  - intros Hs Hl; subst lx; unfold m1'.
    unfold shr_fexp, shr in E1.
    unfold shift64 in Hs; rewrite <- fexp_eq in Hs.
    destruct (fexp prec emax (Zdigits2 mx + ex) - ex) as [|p|p];
      try lia; injection E1 as <- _; reflexivity.
  - rewrite H3; unfold sf_of.
    destruct (m1' / 2 ^ shift64 m1' (ex + shift64 mx ex)); reflexivity.
Qed.

End Shifts.

Section Bounds.

Local Open Scope Q_scope.

Lemma bpow_pos (e : Z) : 0 < bpow e.
Proof. apply Qpower_0_lt; reflexivity. Qed.

Lemma bpow_add (a b : Z) : bpow (a + b) == bpow a * bpow b.
Proof. apply Qpower_plus; discriminate. Qed.

Lemma bpow_Z (e : Z) : (0 <= e)%Z -> bpow e == inject_Z (2 ^ e).
Proof. intros H; unfold bpow; now rewrite Zpower_Qpower. Qed.

Lemma bpow_le (a b : Z) : (a <= b)%Z -> bpow a <= bpow b.
Proof. intros H; apply Qpower_le_compat_l; [exact H|discriminate]. Qed.

Lemma bpow_lt_inv (a b : Z) : bpow a < bpow b -> (a < b)%Z.
Proof. intros H; apply (Qpower_lt_compat_l_inv 2); [exact H|reflexivity]. Qed.

Lemma F2Q_shift (m e n : Z) :
  (0 <= n)%Z -> F2Q (m * 2 ^ n) e == F2Q m (e + n).
Proof.
  intros H; unfold F2Q.
  rewrite inject_Z_mult, bpow_add, <- (bpow_Z n H); ring.
Qed.

Lemma F2Q_le (a b e : Z) : (a <= b)%Z -> F2Q a e <= F2Q b e.
Proof.
  intros H; unfold F2Q.
  apply Qmult_le_compat_r; [now rewrite <- Zle_Qle|].
  apply Qlt_le_weak, bpow_pos.
Qed.

Lemma F2Q_lt (a b e : Z) : (a < b)%Z -> F2Q a e < F2Q b e.
Proof.
  intros H; unfold F2Q.
  apply Qmult_lt_compat_r; [apply bpow_pos|now rewrite <- Zlt_Qlt].
Qed.

Lemma F2Q_le_inv (a b e : Z) : F2Q a e <= F2Q b e -> (a <= b)%Z.
Proof.
  intros H; destruct (Z_le_gt_dec a b) as [Hle|Hgt]; [exact Hle|].
  exfalso; apply (Qlt_not_le _ _ (F2Q_lt b a e ltac:(lia))), H.
Qed.

Lemma F2Q_nonneg (m e : Z) : (0 <= m)%Z -> 0 <= F2Q m e.
Proof.
  intros H; unfold F2Q; apply Qmult_le_0_compat.
  - change 0 with (inject_Z 0); now rewrite <- Zle_Qle.
  - apply Qlt_le_weak, bpow_pos.
Qed.

Lemma F2Q_pos (m e : Z) : (0 < m)%Z -> 0 < F2Q m e.
Proof.
  intros H; unfold F2Q; apply Qmult_lt_0_compat.
  - change 0 with (inject_Z 0); now rewrite <- Zlt_Qlt.
  - apply bpow_pos.
Qed.

Lemma F2Q_pow2 (k e : Z) : (0 <= k)%Z -> F2Q (2 ^ k) e == bpow (k + e).
Proof. intros H; unfold F2Q; rewrite bpow_add, <- (bpow_Z k H); ring. Qed.

Lemma F2Q_succ (m e : Z) : F2Q (m + 1) e == F2Q m e + bpow e.
Proof. unfold F2Q; rewrite inject_Z_plus; change (inject_Z 1) with 1; ring. Qed.

Lemma F2Q_div_le (m e n : Z) :
  (0 <= m)%Z -> (0 <= n)%Z -> F2Q (m / 2 ^ n) (e + n) <= F2Q m e.
Proof.
  intros Hm Hn; rewrite <- F2Q_shift by exact Hn.
  apply F2Q_le.
  assert (0 < 2 ^ n)%Z by (apply Z.pow_pos_nonneg; lia).
  pose proof (Z.mul_div_le m (2 ^ n) H); lia.
Qed.

Lemma F2Q_div_gt (m e n : Z) :
  (0 <= m)%Z -> (0 <= n)%Z -> F2Q m e < F2Q (m / 2 ^ n + 1) (e + n).
Proof.
  intros Hm Hn; rewrite <- F2Q_shift by exact Hn.
  apply F2Q_lt.
  assert (0 < 2 ^ n)%Z by (apply Z.pow_pos_nonneg; lia).
  pose proof (Z.mul_succ_div_gt m (2 ^ n) H); lia.
Qed.

Lemma Zdigits2_bounds (m : Z) :
  (0 < m)%Z -> (2 ^ (Zdigits2 m - 1) <= m < 2 ^ Zdigits2 m)%Z.
Proof.
  destruct m as [|p|p]; try lia; intros _.
  apply digits2_pos_bounds.
Qed.

Lemma Zdigits2_pos (m : Z) : (0 < m)%Z -> (0 < Zdigits2 m)%Z.
Proof. destruct m; cbn; lia. Qed.

(** Truncation to the format keeps every lower bound that is a double. *)
Lemma trunc_keeps_bound (m e b eb : Z) :
  (0 < m)%Z -> (0 < b < 2 ^ 53)%Z -> (-1074 <= eb)%Z ->
  F2Q b eb <= F2Q m e ->
  F2Q b eb <= F2Q (m / 2 ^ shift64 m e) (e + shift64 m e).
Proof.
  intros Hm Hb Heb Hle.
  pose proof (Zdigits2_bounds m Hm) as Hd.
  pose proof (Zdigits2_pos m Hm) as Hdp.
  set (d := Zdigits2 m) in *.
  assert (Hn : (0 <= shift64 m e)%Z) by (unfold shift64; lia).
  destruct (Z.eq_dec (shift64 m e) 0) as [E0|Hnz].
  - rewrite E0, Z.add_0_r; change (2 ^ 0)%Z with 1%Z.
    now rewrite Z.div_1_r.
  - set (n := shift64 m e) in *.
    assert (He' : (e + n = fexp64 (d + e))%Z)
      by (unfold n, shift64 in *; fold d in Hnz |- *; lia).
    assert (H2n : (0 < 2 ^ n)%Z) by (apply Z.pow_pos_nonneg; lia).
    destruct (Z_le_gt_dec (e + n) eb) as [Hge|Hlt].
    + set (k := (eb - (e + n))%Z).
      assert (Hk : (0 <= k)%Z) by (unfold k; lia).
      assert (E1 : F2Q b eb == F2Q (b * 2 ^ k) (e + n)).
      { rewrite F2Q_shift by exact Hk.
        now replace (e + n + k)%Z with eb by (unfold k; lia). }
      rewrite E1; apply F2Q_le.
      apply Z.div_le_lower_bound; [exact H2n|].
      apply (F2Q_le_inv _ _ e).
      rewrite (Z.mul_comm (2 ^ n)), F2Q_shift by exact Hn.
      now rewrite <- E1.
    + assert (En : (n = d - 53)%Z) by (unfold fexp64 in He'; lia).
      assert (H52 : (2 ^ 52 <= m / 2 ^ n)%Z).
      { apply Z.div_le_lower_bound; [exact H2n|].
        rewrite <- Z.pow_add_r by lia.
        replace (n + 52)%Z with (d - 1)%Z by lia; apply Hd. }
      apply Qle_trans with (F2Q (2 ^ 53) eb);
        [apply F2Q_le; lia|].
      apply Qle_trans with (F2Q (2 ^ 52) (e + n));
        [|apply F2Q_le; exact H52].
      rewrite !F2Q_pow2 by lia.
      apply bpow_le; lia.
Qed.

Lemma round_err_nonneg (x : Q) : 0 <= x -> 0 <= round_err x.
Proof.
  intros H; unfold round_err.
  pose proof (bpow_pos (-52)); pose proof (bpow_pos (-1074)); nra.
Qed.

(** The unit in the last place of a value is within its error bound. *)
Lemma ulp_le_round_err (m e : Z) :
  (0 < m)%Z -> (0 < shift64 m e)%Z ->
  bpow (e + shift64 m e) <= round_err (F2Q m e).
Proof.
  intros Hm Hs.
  pose proof (Zdigits2_bounds m Hm) as Hd.
  pose proof (Zdigits2_pos m Hm) as Hdp.
  unfold shift64 in *; set (d := Zdigits2 m) in *.
  unfold round_err.
  pose proof (bpow_pos (-52)) as H52; pose proof (bpow_pos (-1074)) as Hmin.
  pose proof (F2Q_pos m e Hm) as Hx.
  destruct (Z_le_gt_dec (d + e - 53) (-1074)) as [Hsub|Hnorm].
  - replace (e + Z.max 0 (fexp64 (d + e) - e))%Z with (-1074)%Z
      by (unfold fexp64 in *; lia).
    nra.
  - replace (e + Z.max 0 (fexp64 (d + e) - e))%Z with (d - 1 + e + -52)%Z
      by (unfold fexp64 in *; lia).
    rewrite bpow_add.
    assert (H : bpow (d - 1 + e) <= F2Q m e).
    { rewrite <- F2Q_pow2 by lia; apply F2Q_le, Hd. }
    nra.
Qed.

Lemma bra_bounds (sx : bool) (mx : positive) (ex : Z) :
  exists m2 e2 : Z,
    binary_round_aux prec emax sx (Z.pos mx) ex loc_Exact = sf_of sx m2 e2 /\
    (0 <= m2)%Z /\
    (forall b eb : Z,
        (0 < b < 2 ^ 53)%Z -> (-1074 <= eb)%Z ->
        F2Q b eb <= F2Q (Z.pos mx) ex -> F2Q b eb <= F2Q m2 e2) /\
    F2Q (Z.pos mx) ex - round_err (F2Q (Z.pos mx) ex) <= F2Q m2 e2 /\
    F2Q m2 e2 <= F2Q (Z.pos mx) ex + round_err (F2Q (Z.pos mx) ex).
Proof.
  destruct (bra_unfold sx (Z.pos mx) ex loc_Exact ltac:(lia))
    as (m1' & Hb & Hex & Hbra).
  set (m := Z.pos mx) in *.
  assert (Hm : (0 < m)%Z) by (unfold m; lia).
  set (n1 := shift64 m ex) in *.
  set (m1 := (m / 2 ^ n1)%Z) in *.
  set (e1 := (ex + n1)%Z) in *.
  set (n2 := shift64 m1' e1) in *.
  assert (Hn1 : (0 <= n1)%Z) by (unfold n1, shift64; lia).
  assert (Hn2 : (0 <= n2)%Z) by (unfold n2, shift64; lia).
  assert (H2n1 : (0 < 2 ^ n1)%Z) by (apply Z.pow_pos_nonneg; lia).
  assert (Hm1 : (0 <= m1)%Z) by (apply Z.div_pos; lia).
  assert (Hm1' : (0 <= m1')%Z) by lia.
  pose proof (round_err_nonneg (F2Q m ex) (Qlt_le_weak _ _ (F2Q_pos m ex Hm)))
    as Herr.
  pose proof (Zdigits2_bounds m Hm) as Hd.
  assert (Hlow1 : F2Q m1 e1 <= F2Q m1' e1) by (apply F2Q_le; lia).
  assert (Hm1lt : (m1 < 2 ^ 53)%Z).
  { apply Z.div_lt_upper_bound; [exact H2n1|].
    rewrite <- Z.pow_add_r by lia.
    apply Z.lt_le_trans with (2 ^ Zdigits2 m)%Z; [apply Hd|].
    apply Z.pow_le_mono_r; [lia|].
    unfold n1, shift64, fexp64; lia. }
  assert (He1 : (-1074 <= e1)%Z).
  { pose proof (Zdigits2_pos m Hm).
    unfold e1, n1, shift64, fexp64; lia. }
  assert (Hkeep : forall b eb : Z,
             (0 < b < 2 ^ 53)%Z -> (-1074 <= eb)%Z ->
             F2Q b eb <= F2Q m1' e1 ->
             F2Q b eb <= F2Q (m1' / 2 ^ n2) (e1 + n2)).
  { intros b eb Hb0 Heb Hle.
    destruct (Z.eq_dec m1' 0) as [Ez|Hnz].
    - exfalso; rewrite Ez in Hle.
      pose proof (F2Q_pos b eb ltac:(lia)).
      unfold F2Q at 2 in Hle; change (inject_Z 0) with 0 in Hle.
      rewrite Qmult_0_l in Hle; lra.
    - apply trunc_keeps_bound; try assumption; lia. }
  exists (m1' / 2 ^ n2)%Z, (e1 + n2)%Z.
  split; [exact Hbra|].
  split; [apply Z.div_pos; [lia|apply Z.pow_pos_nonneg; lia]|].
  split; [|split].
  - intros b eb Hb0 Heb Hle.
    apply Hkeep; try assumption.
    apply Qle_trans with (F2Q m1 e1); [|exact Hlow1].
    apply trunc_keeps_bound; assumption.
  - apply Qle_trans with (F2Q m1 e1).
    + destruct (Z.eq_dec n1 0) as [E0|Hnz].
      * unfold m1, e1; rewrite E0, Z.add_0_r.
        change (2 ^ 0)%Z with 1%Z; rewrite Z.div_1_r; lra.
      * pose proof (F2Q_div_gt m ex n1 ltac:(lia) Hn1) as Hgt.
        fold m1 e1 in Hgt; rewrite F2Q_succ in Hgt.
        pose proof (ulp_le_round_err m ex Hm ltac:(fold n1; lia)) as Hu.
        fold n1 e1 in Hu; lra.
    + destruct (Z.eq_dec m1 0) as [Ez|Hnz].
      * rewrite Ez; unfold F2Q at 1; change (inject_Z 0) with 0.
        rewrite Qmult_0_l; apply F2Q_nonneg.
        apply Z.div_pos; [lia|apply Z.pow_pos_nonneg; lia].
      * apply Hkeep; [lia|exact He1|exact Hlow1].
  - apply Qle_trans with (F2Q m1' e1);
      [apply F2Q_div_le; assumption|].
    destruct (Z.eq_dec n1 0) as [E0|Hnz].
    + rewrite (Hex E0 eq_refl).
      unfold e1; rewrite E0, Z.add_0_r; lra.
    + apply Qle_trans with (F2Q (m1 + 1) e1); [apply F2Q_le; lia|].
      rewrite F2Q_succ.
      pose proof (F2Q_div_le m ex n1 ltac:(lia) Hn1) as Hle.
      fold m1 e1 in Hle.
      pose proof (ulp_le_round_err m ex Hm ltac:(fold n1; lia)) as Hu.
      fold n1 e1 in Hu; lra.
Qed.

End Bounds.

(** * Addition of 1.0 and multiplication by 127.5 *)

Section Ops.

Local Open Scope Q_scope.

Lemma rounds_to_comp (x y : Q) (m e : Z) :
  x == y -> rounds_to x m e -> rounds_to y m e.
Proof.
  intros E (H0 & Hlb & Hlo & Hhi); unfold rounds_to, round_err in *.
  split; [exact H0|split; [|split]].
  - intros b eb Hb Heb Hle; apply Hlb; try assumption; now rewrite E.
  - now rewrite <- E.
  - now rewrite <- E.
Qed.

Lemma iter_xO (d m : positive) :
  Z.pos (Pos.iter xO m d) = (Z.pos m * 2 ^ Z.pos d)%Z.
Proof.
  induction d as [|d IH] using Pos.peano_ind.
  - cbn; lia.
  - rewrite Pos.iter_succ, Pos2Z.inj_xO, IH, Pos2Z.inj_succ, Z.pow_succ_r
      by lia.
    ring.
Qed.

Lemma shl_align_fst (m : positive) (e e' : Z) :
  (e' <= e)%Z ->
  Z.pos (fst (shl_align m e e')) = (Z.pos m * 2 ^ (e - e'))%Z.
Proof.
  intros H; unfold shl_align.
  destruct (e' - e)%Z as [|p|p] eqn:E; cbn [fst]; try lia.
  - replace (e - e')%Z with 0%Z by lia; cbn; lia.
  - rewrite iter_xO; f_equal; f_equal; lia.
Qed.

Lemma shl_align_value (m : positive) (e e' : Z) :
  F2Q (Z.pos (fst (shl_align m e e'))) (snd (shl_align m e e')) ==
  F2Q (Z.pos m) e.
Proof.
  unfold shl_align.
  destruct (e' - e)%Z as [|p|p] eqn:E; cbn [fst snd]; try reflexivity.
  rewrite iter_xO, F2Q_shift by lia.
  now replace (e' + Z.pos p)%Z with e by lia.
Qed.

Lemma binary_round_bounds (s : bool) (m : positive) (e : Z) :
  exists m2 e2 : Z,
    binary_round prec emax s m e = sf_of s m2 e2 /\
    rounds_to (F2Q (Z.pos m) e) m2 e2.
Proof.
  unfold binary_round.
  pose proof (shl_align_value m e
                (fexp prec emax (Z.pos (digits2_pos m) + e))) as Hv.
  destruct (shl_align m e (fexp prec emax (Z.pos (digits2_pos m) + e)))
    as [mz ez]; cbn [fst snd] in Hv.
  destruct (bra_bounds s mz ez) as (m2 & e2 & Hr & H0 & Hlb & Hlo & Hhi).
  exists m2, e2; split; [exact Hr|].
  apply (rounds_to_comp _ _ _ _ Hv).
  repeat split; assumption.
Qed.

Lemma rounds_to_zero : rounds_to 0 0 0.
Proof.
  unfold rounds_to, round_err; split; [lia|split; [|split]].
  - intros b eb Hb _ Hle; exfalso.
    pose proof (F2Q_pos b eb ltac:(lia)); lra.
  - unfold F2Q; change (inject_Z 0) with 0.
    pose proof (bpow_pos (-52)); pose proof (bpow_pos (-1074)); lra.
  - unfold F2Q; change (inject_Z 0) with 0.
    pose proof (bpow_pos (-52)); pose proof (bpow_pos (-1074)); lra.
Qed.

Lemma rounds_to_exact (m e : Z) :
  (0 <= m)%Z -> rounds_to (F2Q m e) m e.
Proof.
  intros Hm; pose proof (round_err_nonneg _ (F2Q_nonneg m e Hm)).
  unfold rounds_to; split; [exact Hm|split; [|split]]; try lra.
  intros b eb _ _ Hle; exact Hle.
Qed.

(** [x + 1.0] *)
Lemma SFadd_one (x : spec_float) (qx : Q) :
  sf_val x = Some qx ->
  exists (s : bool) (m2 e2 : Z),
    SFadd prec emax x one_sf = sf_of s m2 e2 /\
    rounds_to (Qabs (qx + 1)) m2 e2 /\
    (s = true -> qx + 1 < 0) /\
    (s = false -> 0 <= qx + 1).
Proof.
  destruct x as [sx|sx| |sx mx ex]; cbn [sf_val]; try discriminate;
    intros Hq; injection Hq as <-.
  - exists false, 4503599627370496%Z, (-52)%Z.
    split; [reflexivity|].
    split; [|split; [discriminate|intros _; lra]].
    apply (rounds_to_comp (F2Q 4503599627370496 (-52)));
      [reflexivity|apply rounds_to_exact; lia].
  - unfold SFadd, one_sf.
    set (ez := Z.min ex (-52)).
    set (M := (cond_Zopp sx (Z.pos (fst (shl_align mx ex ez))) +
               cond_Zopp false
                 (Z.pos (fst (shl_align 4503599627370496 (-52) ez))))%Z).
    assert (HM : F2Q M ez ==
                 (if sx then - F2Q (Z.pos mx) ex else F2Q (Z.pos mx) ex) + 1).
    { unfold M; rewrite !shl_align_fst by (unfold ez; lia).
      assert (E1 : F2Q (Z.pos mx * 2 ^ (ex - ez)) ez == F2Q (Z.pos mx) ex).
      { rewrite F2Q_shift by (unfold ez; lia).
        now replace (ez + (ex - ez))%Z with ex by lia. }
      assert (E2 : F2Q (4503599627370496 * 2 ^ (-52 - ez)) ez == 1).
      { rewrite F2Q_shift by (unfold ez; lia).
        replace (ez + (-52 - ez))%Z with (-52)%Z by lia; reflexivity. }
      unfold F2Q in *; cbn [cond_Zopp]; destruct sx; cbn [cond_Zopp];
        rewrite inject_Z_plus, ?inject_Z_opp; lra. }
    set (qx := if sx then - F2Q (Z.pos mx) ex else F2Q (Z.pos mx) ex) in *.
    clearbody M; unfold binary_normalize.
    destruct M as [|p|p].
    + exists false, 0%Z, 0%Z; split; [reflexivity|].
      assert (E : qx + 1 == 0)
        by (rewrite <- HM; unfold F2Q; change (inject_Z 0) with 0; ring).
      split; [|split; [discriminate|intros _; lra]].
      apply (rounds_to_comp 0); [now rewrite E|apply rounds_to_zero].
    + destruct (binary_round_bounds false p ez) as (m2 & e2 & Hr & Hb).
      pose proof (F2Q_pos (Z.pos p) ez ltac:(lia)) as Hp.
      exists false, m2, e2; split; [exact Hr|].
      split; [|split; [discriminate|intros _; lra]].
      apply (rounds_to_comp (F2Q (Z.pos p) ez)); [|exact Hb].
      rewrite HM, Qabs_pos; [reflexivity|lra].
    + destruct (binary_round_bounds true p ez) as (m2 & e2 & Hr & Hb).
      pose proof (F2Q_pos (Z.pos p) ez ltac:(lia)) as Hp.
      assert (Hn : F2Q (Z.neg p) ez == - F2Q (Z.pos p) ez).
      { unfold F2Q; change (Z.neg p) with (- Z.pos p)%Z.
        rewrite inject_Z_opp; ring. }
      exists true, m2, e2; split; [exact Hr|].
      split; [|split; [intros _; lra|discriminate]].
      apply (rounds_to_comp (F2Q (Z.pos p) ez)); [|exact Hb].
      rewrite Qabs_neg by lra; lra.
Qed.

(** [x * 127.5] *)
Lemma SFmul_scale (s : bool) (m e : Z) :
  (0 <= m)%Z ->
  (sf_of s m e = S754_infinity s /\
   SFmul prec emax (sf_of s m e) scale_sf = S754_infinity s) \/
  exists m2 e2 : Z,
    sf_of s m e <> S754_infinity s /\
    SFmul prec emax (sf_of s m e) scale_sf = sf_of s m2 e2 /\
    rounds_to (F2Q m e * (255 # 2)) m2 e2.
Proof.
  intros Hm; destruct m as [|p|p]; [| |lia].
  - right; exists 0%Z, 0%Z; cbn [sf_of]; split; [discriminate|].
    split; [cbn; now destruct s|].
    apply (rounds_to_comp 0);
      [unfold F2Q; change (inject_Z 0) with 0; ring|apply rounds_to_zero].
  - cbn [sf_of]; destruct (e <=? 1024 - 53)%Z.
    + right; unfold SFmul, scale_sf.
      destruct (bra_bounds (xorb s false) (p * 8972014882652160)
                  (e + -46)) as (m2 & e2 & Hr & H0 & Hb).
      rewrite xorb_false_r in Hr.
      exists m2, e2; split; [discriminate|].
      split; [rewrite xorb_false_r; exact Hr|].
      apply (rounds_to_comp (F2Q (Z.pos (p * 8972014882652160)) (e + -46))).
      * unfold F2Q; rewrite Pos2Z.inj_mul, inject_Z_mult, bpow_add.
        assert (E : inject_Z 8972014882652160 * bpow (-46) == 255 # 2)
          by reflexivity.
        rewrite <- E; ring.
      * split; assumption.
    + left; split; [reflexivity|cbn; now destruct s].
Qed.

End Ops.

(** * The encoder in binary64 *)

Section EncodeB64.

Local Open Scope Q_scope.

Lemma bpow_neg (e : Z) :
  (e < 0)%Z -> bpow e == 1 # Pos.pow 2 (Z.to_pos (- e)).
Proof.
  intros H; unfold bpow.
  replace e with (- - e)%Z at 1 by lia.
  rewrite Qpower_opp.
  change (2 ^ (- e)) with (inject_Z 2 ^ (- e)).
  rewrite <- Zpower_Qpower by lia.
  assert (E : (2 ^ (- e) = Z.pos (2 ^ Z.to_pos (- e)))%Z)
    by (rewrite Pos2Z.inj_pow, Z2Pos.id; lia).
  rewrite E; reflexivity.
Qed.

Lemma value64_sf (f : float) :
  match value64 f, sf_val (Prim2SF f) with
  | Some q, Some q' => q == q'
  | None, None => True
  | _, _ => False
  end.
Proof.
  unfold value64, sf_val.
  destruct (Prim2SF f) as [s|s| |s m e]; try exact I; [reflexivity|].
  assert (E : (if (0 <=? e)%Z then inject_Z (Z.pos m * 2 ^ e)
               else Qred (Z.pos m # 2 ^ Z.to_pos (- e))) ==
              F2Q (Z.pos m) e).
  { unfold F2Q; destruct (Z.leb_spec 0 e) as [He|He].
    - rewrite inject_Z_mult, bpow_Z by exact He; reflexivity.
    - rewrite Qred_correct, bpow_neg by exact He.
      set (d := (2 ^ Z.to_pos (- e))%positive).
      unfold Qeq; cbn; lia. }
  destruct s; [now rewrite E|exact E].
Qed.

Lemma sf_val_of (s : bool) (m e : Z) (q : Q) :
  (0 <= m)%Z ->
  sf_val (sf_of s m e) = Some q ->
  q == (if s then - F2Q m e else F2Q m e).
Proof.
  intros Hm; unfold sf_of.
  destruct m as [|p|p]; [| |lia].
  - cbn; intros H; injection H as <-.
    unfold F2Q; change (inject_Z 0) with 0; destruct s; ring.
  - destruct (e <=? 1024 - 53)%Z; cbn; [|discriminate].
    intros H; injection H as <-; reflexivity.
Qed.

Lemma sf_of_finite (s : bool) (m e : Z) :
  (0 <= m)%Z -> F2Q m e < bpow 972 ->
  sf_val (sf_of s m e) = Some (if s then - F2Q m e else F2Q m e) \/
  (m = 0%Z /\ sf_val (sf_of s m e) = Some 0).
Proof.
  intros Hm Hlt; unfold sf_of.
  destruct m as [|p|p]; [right; split; reflexivity| |lia].
  left.
  assert (He : (e < 972)%Z).
  { apply bpow_lt_inv.
    apply Qle_lt_trans with (F2Q (Z.pos p) e); [|exact Hlt].
    rewrite <- (Qmult_1_l (bpow e)) at 1; unfold F2Q.
    apply Qmult_le_compat_r; [|apply Qlt_le_weak, bpow_pos].
    change 1 with (inject_Z 1); rewrite <- Zle_Qle; lia. }
  replace (e <=? 1024 - 53)%Z with true by (symmetry; apply Z.leb_le; lia).
  reflexivity.
Qed.

Lemma one_sf_eq : Prim2SF (B64.of_Q 1.0) = one_sf.
Proof. vm_compute; reflexivity. Qed.

Lemma scale_sf_eq : Prim2SF (B64.of_Q 127.5) = scale_sf.
Proof. vm_compute; reflexivity. Qed.

Lemma eps_val : bpow (-52) == 1 # 4503599627370496.
Proof. reflexivity. Qed.

Lemma round_err_le (x : Q) :
  0 <= x -> round_err x <= (x + 1) * (1 # 4503599627370496).
Proof.
  intros H; unfold round_err.
  pose proof (bpow_le (-1074) (-52) ltac:(lia)) as Hmin.
  rewrite eps_val in *; lra.
Qed.

Lemma encode_scaled (v : float) (q : Q) :
  value64 (scaled64 v) = Some q ->
  inject_Z (- 2 ^ 31) < q < inject_Z (2 ^ 31) ->
  encode (A := B64.arith) v = Z.max 0 (Z.min 255 (Exact.trunc q)).
Proof.
  intros Hq Hr.
  change (encode (A := B64.arith) v)
    with (uint8_t (bound (int_of_trunc (B64.trunc (scaled64 v))))).
  rewrite trunc_value64, Hq; cbn [option_map].
  change (int_of_trunc (Some (Exact.trunc q)))
    with (to_int (Arith := Exact.arith) q).
  now rewrite to_int_exact, bound_clamp.
Qed.

(** The two roundings of the scaled64 value. *)
Lemma scaled_rounds (v : float) (qv : Q) :
  value64 v = Some qv ->
  exists (s : bool) (ma ea : Z),
    rounds_to (Qabs (qv + 1)) ma ea /\
    (s = true -> qv + 1 < 0) /\
    (s = false -> 0 <= qv + 1) /\
    ((sf_of s ma ea = S754_infinity s /\
      Prim2SF (scaled64 v) = S754_infinity s) \/
     exists ms es : Z,
       sf_of s ma ea <> S754_infinity s /\
       Prim2SF (scaled64 v) = sf_of s ms es /\
       rounds_to (F2Q ma ea * (255 # 2)) ms es).
Proof.
  intros Hv.
  pose proof (value64_sf v) as Hsf; rewrite Hv in Hsf.
  destruct (sf_val (Prim2SF v)) as [qv'|] eqn:Hv'; [|contradiction].
  destruct (SFadd_one _ _ Hv') as (s & ma & ea & Ha & Hr & Hneg & Hpos).
  exists s, ma, ea.
  split; [apply (rounds_to_comp (Qabs (qv' + 1))); [now rewrite Hsf|exact Hr]|].
  split; [intros E; rewrite Hsf; auto|].
  split; [intros E; rewrite Hsf; auto|].
  unfold scaled64; rewrite mul_spec, add_spec, one_sf_eq, scale_sf_eq.
  unfold SF64mul, SF64add; rewrite Ha.
  destruct Hr as (Hma & _).
  exact (SFmul_scale s ma ea Hma).
Qed.


Lemma trunc_nonpos (q : Q) : q <= 0 -> (Exact.trunc q <= 0)%Z.
Proof.
  intros H; rewrite trunc_ceiling by exact H.
  change 0%Z with (Qceiling 0); apply Qceiling_resp_le, H.
Qed.

Lemma value64_of_sf (f : float) (q' : Q) :
  sf_val (Prim2SF f) = Some q' ->
  exists q : Q, value64 f = Some q /\ q == q'.
Proof.
  intros H; pose proof (value64_sf f) as Hsf; rewrite H in Hsf.
  destruct (value64 f) as [q|]; [|contradiction].
  exists q; split; [reflexivity|exact Hsf].
Qed.

(** C2, as amended.  The encoder truncates.  Let [s] be the double that
    [signal_out] computes for [(v + 1.0) * 127.5], sum and product each
    rounded to nearest.  Whenever [s] lies in the range of [int] (the
    conversion is undefined in C otherwise), the byte is the integral part
    of [s], rounded toward zero and not to nearest, clamped to 0..255; a
    sample below -1 gives 0 and a sample above 1 gives 255.  For every
    sample in [-1, 1], [s] is finite and lies in [0, 256), within 1e-12 of
    the real number [(v + 1) * 127.5]; the byte is the floor of [s], and
    decoding it recovers the sample within one quantisation step, 1/127.5,
    up to the rounding of the two double operations, which is below
    1e-14. *)
Theorem encode_truncates_and_saturates (v : float) (qv : Q) :
  value64 v = Some qv ->
  (forall q : Q,
      value64 (scaled64 v) = Some q ->
      inject_Z (- 2 ^ 31) < q < inject_Z (2 ^ 31) ->
      encode (A := B64.arith) v = Z.max 0 (Z.min 255 (Exact.trunc q)) /\
      (qv < -1 -> encode (A := B64.arith) v = 0%Z) /\
      (1 < qv -> encode (A := B64.arith) v = 255%Z)) /\
  (-1 <= qv <= 1 ->
   exists q : Q,
     value64 (scaled64 v) = Some q /\
     0 <= q < 256 /\
     Qabs (q - (qv + 1) * 127.5) <= 1 # 1000000000000 /\
     encode (A := B64.arith) v = Qfloor q /\
     Qabs (decode (encode (A := B64.arith) v) - qv) <
       1 / 127.5 + (1 # 100000000000000)).
Proof.
  intros Hv.
  destruct (scaled_rounds v qv Hv)
    as (s & ma & ea & (Hma & Hlb1 & Hlo1 & Hhi1) & Hneg & Hpos & Hmul).
  split.
  - intros q Hq Hr.
    pose proof (encode_scaled v q Hq Hr) as He.
    split; [exact He|].
    pose proof (value64_sf (scaled64 v)) as Hsf; rewrite Hq in Hsf.
    destruct Hmul as [(_ & Hinf)|(ms & es & _ & Hs & Hms & Hlb2 & _)];
      [rewrite Hinf in Hsf; contradiction|].
    rewrite Hs in Hsf.
    destruct (sf_val (sf_of s ms es)) as [q'|] eqn:Hq'; [|contradiction].
    apply (sf_val_of s ms es q' Hms) in Hq'.
    pose proof (F2Q_nonneg ms es Hms) as Hnn.
    split.
    + intros Hlow; rewrite He.
      destruct s; [|specialize (Hpos eq_refl); lra].
      assert (Hq0 : q <= 0) by (rewrite Hsf, Hq'; lra).
      pose proof (trunc_nonpos q Hq0); lia.
    + intros Hhigh; rewrite He.
      destruct s; [specialize (Hneg eq_refl); lra|].
      assert (H2 : F2Q 1 1 <= F2Q ma ea).
      { apply Hlb1; [lia|lia|].
        rewrite Qabs_pos by lra.
        change (F2Q 1 1) with (1 * 2 ^ 1); lra. }
      assert (H255 : F2Q 255 0 <= F2Q ms es).
      { apply Hlb2; [lia|lia|].
        change (F2Q 1 1) with (1 * 2 ^ 1) in H2.
        change (F2Q 255 0) with (255 * 1); lra. }
      assert (Hq255 : 255 <= q)
        by (rewrite Hsf, Hq'; change (F2Q 255 0) with (255 * 1) in H255; lra).
      assert (Ht : (255 <= Exact.trunc q)%Z).
      { rewrite trunc_floor by lra.
        change 255%Z with (Qfloor 255); apply Qfloor_resp_le, Hq255. }
      lia.
  - intros [Hm1 Hp1].
    destruct s; [specialize (Hneg eq_refl); lra|].
    unfold round_err in Hlo1, Hhi1; rewrite Qabs_pos in Hlo1, Hhi1 by lra.
    pose proof (round_err_le (qv + 1) ltac:(lra)) as He1.
    unfold round_err in He1.
    pose proof (F2Q_nonneg ma ea Hma) as Hya.
    set (ya := F2Q ma ea) in *.
    assert (H4 : bpow 10 <= bpow 972) by (apply bpow_le; lia).
    change (bpow 10) with 1024 in H4.
    destruct Hmul as [(Hinf & _)|(ms & es & _ & Hs & Hms & _ & Hlo2 & Hhi2)].
    { exfalso.
      destruct (sf_of_finite false ma ea Hma ltac:(fold ya; lra))
        as [H|[_ H]]; rewrite Hinf in H; discriminate. }
    pose proof (round_err_le (ya * (255 # 2)) ltac:(lra)) as He2.
    pose proof (F2Q_nonneg ms es Hms) as Hys.
    set (ys := F2Q ms es) in *.
    assert (Hval : exists q : Q, value64 (scaled64 v) = Some q /\ q == ys).
    { destruct (sf_of_finite false ms es Hms ltac:(fold ys; lra))
        as [H|[Hz H]]; rewrite <- Hs in H;
        destruct (value64_of_sf _ _ H) as (q & Hq & E);
        exists q; (split; [exact Hq|]); [exact E|].
      rewrite E; unfold ys, F2Q; rewrite Hz.
      change (inject_Z 0) with 0; ring. }
    destruct Hval as (q & Hq & Eq).
    assert (Hq0 : 0 <= q) by (rewrite Eq; exact Hys).
    assert (Hq256 : q < 256) by (rewrite Eq; lra).
    assert (Hd : Qabs (q - (qv + 1) * 127.5) <= 1 # 1000000000000).
    { apply Qabs_Qle_condition; rewrite Eq; split; lra. }
    assert (Hr : inject_Z (- 2 ^ 31) < q < inject_Z (2 ^ 31))
      by (change (inject_Z (- 2 ^ 31)) with (-2147483648);
          change (inject_Z (2 ^ 31)) with 2147483648; lra).
    pose proof (encode_scaled v q Hq Hr) as He.
    rewrite trunc_floor in He by exact Hq0.
    pose proof (Qfloor_le q) as Hf1; pose proof (Qlt_floor q) as Hf2.
    rewrite inject_Z_plus in Hf2; change (inject_Z 1) with 1 in Hf2.
    assert (Hf0 : (0 <= Qfloor q)%Z)
      by (change 0%Z with (Qfloor 0); apply Qfloor_resp_le, Hq0).
    assert (Hf255 : (Qfloor q <= 255)%Z).
    { assert (H : inject_Z (Qfloor q) < inject_Z 256)
        by (change (inject_Z 256) with 256; lra).
      apply inject_Z_lt_inv in H; lia. }
    assert (Hb : encode (A := B64.arith) v = Qfloor q) by lia.
    exists q; split; [exact Hq|].
    split; [split; assumption|].
    split; [exact Hd|].
    split; [exact Hb|].
    rewrite Hb; unfold decode.
    set (z := inject_Z (Qfloor q)) in *.
    apply Qabs_Qle_condition in Hd; destruct Hd as [Hd1 Hd2].
    assert (E : z / 127.5 - 1 - qv == (z - (qv + 1) * 127.5) * (2 # 255))
      by field.
    assert (Estep : 1 / 127.5 == 2 # 255) by reflexivity.
    apply Qabs_Qlt_condition; rewrite E, Estep; split; lra.
Qed.

End EncodeB64.

Section EncoderRuns.

Local Open Scope Q_scope.

(** Rounding can move the scaled value across an integer: for this double
    the real number [(v + 1) * 127.5] is [4 - 2^-54], the double product is
    4, and the byte is 4 where exact arithmetic gives 3. *)
Example encode_rounds_up_to_4 :
  value64 (scaled64 (-0x1.efefefefefeffp-1)%float) = Some 4 /\
  encode (A := B64.arith) (-0x1.efefefefefeffp-1)%float = 4%Z /\
  encode (A := Exact.arith) (-8724620454592255 # 9007199254740992) = 3%Z.
Proof. vm_compute; repeat split. Qed.

Lemma encode_truncates_and_saturates_witness :
  (value64 0.5%float = Some (1 # 2) /\
   value64 (scaled64 0.5%float) = Some (765 # 4) /\
   inject_Z (- 2 ^ 31) < 765 # 4 < inject_Z (2 ^ 31) /\
   -1 <= 1 # 2 <= 1 /\
   encode (A := B64.arith) 0.5%float =
     Z.max 0 (Z.min 255 (Exact.trunc (765 # 4))) /\
   exists q : Q,
     value64 (scaled64 0.5%float) = Some q /\
     0 <= q < 256 /\
     Qabs (q - ((1 # 2) + 1) * 127.5) <= 1 # 1000000000000 /\
     encode (A := B64.arith) 0.5%float = Qfloor q /\
     Qabs (decode (encode (A := B64.arith) 0.5%float) - (1 # 2)) <
       1 / 127.5 + (1 # 100000000000000)) /\
  (value64 (-2)%float = Some (-2) /\
   value64 (scaled64 (-2)%float) = Some (-255 # 2) /\
   inject_Z (- 2 ^ 31) < -255 # 2 < inject_Z (2 ^ 31) /\
   -2 < -1 /\
   encode (A := B64.arith) (-2)%float = 0%Z) /\
  (value64 3%float = Some 3 /\
   value64 (scaled64 3%float) = Some 510 /\
   inject_Z (- 2 ^ 31) < 510 < inject_Z (2 ^ 31) /\
   1 < 3 /\
   encode (A := B64.arith) 3%float = 255%Z).
Proof.
  split; [|split].
  - assert (H0 : value64 0.5%float = Some (1 # 2))
      by (vm_compute; reflexivity).
    assert (H1 : value64 (scaled64 0.5%float) = Some (765 # 4))
      by (vm_compute; reflexivity).
    assert (H2 : inject_Z (- 2 ^ 31) < 765 # 4 < inject_Z (2 ^ 31))
      by (split; reflexivity).
    assert (H3 : -1 <= 1 # 2 <= 1) by (split; discriminate).
    destruct (encode_truncates_and_saturates 0.5%float (1 # 2) H0)
      as (Hs & Hin).
    destruct (Hs (765 # 4) H1 H2) as (Hf & _).
    exact (conj H0 (conj H1 (conj H2 (conj H3 (conj Hf (Hin H3)))))).
  - assert (H0 : value64 (-2)%float = Some (-2))
      by (vm_compute; reflexivity).
    assert (H1 : value64 (scaled64 (-2)%float) = Some (-255 # 2))
      by (vm_compute; reflexivity).
    assert (H2 : inject_Z (- 2 ^ 31) < -255 # 2 < inject_Z (2 ^ 31))
      by (split; reflexivity).
    assert (H3 : -2 < -1) by reflexivity.
    destruct (encode_truncates_and_saturates (-2)%float (-2) H0)
      as (Hs & _).
    destruct (Hs (-255 # 2) H1 H2) as (_ & Hlow & _).
    exact (conj H0 (conj H1 (conj H2 (conj H3 (Hlow H3))))).
  - assert (H0 : value64 3%float = Some 3) by (vm_compute; reflexivity).
    assert (H1 : value64 (scaled64 3%float) = Some 510)
      by (vm_compute; reflexivity).
    assert (H2 : inject_Z (- 2 ^ 31) < 510 < inject_Z (2 ^ 31))
      by (split; reflexivity).
    assert (H3 : 1 < 3) by reflexivity.
    destruct (encode_truncates_and_saturates 3%float 3 H0) as (Hs & _).
    destruct (Hs 510 H1 H2) as (_ & _ & Hhigh).
    exact (conj H0 (conj H1 (conj H2 (conj H3 (Hhigh H3))))).
Defined.

End EncoderRuns.
